(** * An n-gram language-model builder and a syllable splitter, verified

    Shallow embedding of [language-model/ngrams.py] (n-gram extraction,
    unigram probabilities, ARPA serialisation) and of
    [kaldi-style/kaz_syllable_split.py] (rule-based syllable marking).

    Conventions.
    - A Python [str] of the language-model script is a [string]; the corpus
      is UTF-8 text and the script only ever cuts it at the ASCII characters
      newline and space, which never occur inside a multi-byte UTF-8
      sequence, so cutting the byte string and cutting the decoded text
      agree.
    - A Python [str] of the syllable splitter is a list of code points,
      because that script indexes and slices words by character.
    - Python integers are [Z]; a Python list is a [list]; a [dict] is an
      association list in insertion order, which is the order its [items()]
      are iterated in and therefore the order a stable sort falls back to.
    - Exceptions are the [Error] branch of [result].
    - A Python [float] is a binary64 number.  [Binary64] has the division
      of two integers as the interpreter does it, the exact quotient
      rounded to the nearest float; [Ngrams] has the same lines of [main]
      over exact arithmetic, which is what the spec's formulas and the
      estimators read from the spec are stated in. *)

From Stdlib Require Import List ZArith Lia Bool Arith.
From Stdlib Require Import Ascii String.
From Stdlib Require Import QArith Qabs Qpower.
From Stdlib Require Import Permutation Sorted.
From Stdlib Require Import Reals Qreals Psatz.
From Stdlib Require Import Floats.SpecFloat.
From Stdlib Require DecimalString.
Import ListNotations.

Set Implicit Arguments.
Unset Strict Implicit.

Local Open Scope Z_scope.

(* ================================================================== *)
(** * Python primitives *)
(* ================================================================== *)

Module Py.

(** Exceptions the two scripts can raise. *)
Inductive exn : Type :=
| FileNotFoundError
| ZeroDivisionError
| IndexError
| KeyError
| OverflowError
| ValueError
| OSError.

Inductive result (A : Type) : Type :=
| Ok (a : A)
| Error (e : exn).
Arguments Ok {A} a.
Arguments Error {A} e.

Definition bind {A B} (m : result A) (k : A -> result B) : result B :=
  match m with
  | Ok a => k a
  | Error e => Error e
  end.

(** [for x in xs: ys.append(f(x))] where [f] may raise. *)
Fixpoint mapM {A B} (f : A -> result B) (xs : list A) : result (list B) :=
  match xs with
  | [] => Ok []
  | x :: xs' =>
      bind (f x) (fun y => bind (mapM f xs') (fun ys => Ok (y :: ys)))
  end.

Definition len {A} (l : list A) : Z := Z.of_nat (List.length l).

(** [range(k)] *)
Definition range (k : Z) : list Z := map Z.of_nat (seq 0 (Z.to_nat k)).

(** How a slice bound is brought into [0 .. len]: a negative bound counts
    from the end, everything is clamped. *)
Definition clamp_index (n i : Z) : Z :=
  if i <? 0 then Z.max 0 (i + n) else Z.min i n.

(** [l[lo:hi]]; [None] is an omitted bound. *)
Definition slice {A} (l : list A) (lo hi : option Z) : list A :=
  let n := len l in
  let a := match lo with Some i => clamp_index n i | None => 0 end in
  let b := match hi with Some i => clamp_index n i | None => n end in
  firstn (Z.to_nat (b - a)) (skipn (Z.to_nat a) l).

(** [l[i]] for a non-negative or negative index. *)
Definition index {A} (l : list A) (i : Z) : result A :=
  let j := if i <? 0 then i + len l else i in
  if j <? 0 then Error IndexError
  else match nth_error l (Z.to_nat j) with
       | Some x => Ok x
       | None => Error IndexError
       end.

(** [s.split(sep)] for a one-character separator: every occurrence cuts,
    empty pieces are kept, and the result is never empty. *)
Fixpoint split_on {A} (is_sep : A -> bool) (s : list A) : list (list A) :=
  match s with
  | [] => [[]]
  | c :: s' =>
      if is_sep c then [] :: split_on is_sep s'
      else match split_on is_sep s' with
           | [] => [[c]]
           | w :: ws => (c :: w) :: ws
           end
  end.

(** [s.split()] without argument: runs of whitespace separate, and no
    empty piece is produced.  [cur] is the word being read, reversed. *)
Fixpoint split_ws_aux {A} (is_space : A -> bool) (cur : list A)
         (s : list A) : list (list A) :=
  match s with
  | [] => match cur with [] => [] | _ => [rev cur] end
  | c :: s' =>
      if is_space c then
        match cur with
        | [] => split_ws_aux is_space [] s'
        | _ => rev cur :: split_ws_aux is_space [] s'
        end
      else split_ws_aux is_space (c :: cur) s'
  end.

Definition split_ws {A} (is_space : A -> bool) (s : list A)
  : list (list A) :=
  split_ws_aux is_space [] s.

(** [sep.join(pieces)] *)
Fixpoint join {A} (sep : list A) (pieces : list (list A)) : list A :=
  match pieces with
  | [] => []
  | [p] => p
  | p :: ps => p ++ sep ++ join sep ps
  end.

End Py.

Import Py.

(* ================================================================== *)
(** * The language-model script, [language-model/ngrams.py] *)
(* ================================================================== *)

Module Ngrams.

(** A token; an n-gram is the tuple of its tokens. *)
Definition token := string.
Definition ngram := list token.

Definition newline : ascii := "010"%char.
Definition space : ascii := " "%char.

(** [s.split(c)] on a [str]. *)
Definition str_split (c : ascii) (s : string) : list string :=
  map string_of_list_ascii
      (split_on (Ascii.eqb c) (list_ascii_of_string s)).

(** [get_ngrams_from_line(tokens, n)] *)
Definition get_ngrams_from_line (tokens : list token) (n : Z)
  : list ngram :=
  if n =? 1 then
    map (fun tok => [tok]) tokens
  else
    map (fun i => slice tokens (Some i) (Some (i + n)))
        (range (len tokens - (n - 1))).

(** The three accumulators of [get_ngram_tuples]. *)
Record tuples : Type := mkTuples {
  unigrams : list ngram;
  bigrams : list ngram;
  trigrams : list ngram
}.

(** One iteration of the loop over the lines. *)
Definition scan_line (lenSentenceCutoff : Z) (acc : tuples)
           (line : string) : tuples :=
  let line := str_split space line in
  if len line >? lenSentenceCutoff then
    mkTuples (unigrams acc ++ get_ngrams_from_line line 1)
             (bigrams acc ++ get_ngrams_from_line line 2)
             (trigrams acc ++ get_ngrams_from_line line 3)
  else acc.

(** [get_ngram_tuples(lines, startTime, lenSentenceCutoff)]; the progress
    messages and the clock are left out. *)
Definition get_ngram_tuples (lines : string) (lenSentenceCutoff : Z)
  : tuples :=
  fold_left (scan_line lenSentenceCutoff)
            (str_split newline lines)
            (mkTuples [] [] []).

(** The token lists of the lines that pass the filter. *)
Definition kept_sentences (lines : string) (cutoff : Z)
  : list (list token) :=
  filter (fun toks => len toks >? cutoff)
         (map (str_split space) (str_split newline lines)).

(** ** Tables

    A [dict] keyed by n-grams, in insertion order. *)

Definition dict (V : Type) : Type := list (ngram * V).

Fixpoint ngram_eqb (a b : ngram) : bool :=
  match a, b with
  | [], [] => true
  | x :: a', y :: b' => String.eqb x y && ngram_eqb a' b'
  | _, _ => false
  end.

(** [d.get(k)] *)
Fixpoint lookup {V} (k : ngram) (d : dict V) : option V :=
  match d with
  | [] => None
  | (k', v) :: d' => if ngram_eqb k k' then Some v else lookup k d'
  end.

(** [d[k] = v]: an existing key keeps its place. *)
Fixpoint dict_set {V} (k : ngram) (v : V) (d : dict V) : dict V :=
  match d with
  | [] => [(k, v)]
  | (k', v') :: d' =>
      if ngram_eqb k k' then (k', v) :: d'
      else (k', v') :: dict_set k v d'
  end.

Definition keys {V} (d : dict V) : list ngram := map fst d.
Definition values {V} (d : dict V) : list V := map snd d.

(** Modelled from the spec: [get_count_dict] of the module
    [corpus_stats], which the script imports and which is not among the
    sources.  The spec's Count Aggregator: "Increment a per-key counter
    for every occurrence; counter starts at 0 for unseen keys." *)
Definition count_of (k : ngram) (countDict : dict Z) : Z :=
  match lookup k countDict with Some c => c | None => 0 end.

Definition count_step (countDict : dict Z) (k : ngram) : dict Z :=
  dict_set k (count_of k countDict + 1) countDict.

Definition get_count_dict (ngrams : list ngram) : dict Z :=
  fold_left count_step ngrams [].

(** How often [k] occurs in a list of n-grams. *)
Definition occurrences (k : ngram) (l : list ngram) : Z :=
  len (filter (ngram_eqb k) l).

(** ** Unigram probabilities, lines 171-175 of [main], over exact
    arithmetic

    The quotient is kept as the rational number it is and the logarithm as
    the real number it is.  What the interpreter holds instead, a float
    with its rounding, its underflow and its [OverflowError], is in
    [Binary64]. *)

(** What the logarithm of a rational number is. *)
Inductive flt : Type :=
| Finite (r : R)
| NegInf
| NaN.

(** [a / b] on two integers before it is rounded: the exact quotient, or
    [ZeroDivisionError]. *)
Definition true_div (a b : Z) : result Q :=
  if b =? 0 then Error ZeroDivisionError
  else Ok (inject_Z a / inject_Z b)%Q.

(** The logarithm [np.log] approximates: minus infinity at zero,
    not-a-number below. *)
Definition np_log (x : Q) : flt :=
  match (x ?= 0)%Q with
  | Gt => Finite (ln (Q2R x))
  | Eq => NegInf
  | Lt => NaN
  end.

(** [sum(d.values())] *)
Definition sum_values (d : dict Z) : Z := fold_left Z.add (values d) 0.

(** The loop [for key, value in d.items(): out[key] = f(key, value)] on
    an empty [out]. *)
Definition dict_for {V W} (f : ngram -> V -> result W) (d : dict V)
  : result (dict W) :=
  fold_left
    (fun acc kv =>
       bind acc (fun out =>
       bind (f (fst kv) (snd kv)) (fun w =>
       Ok (dict_set (fst kv) w out))))
    d (Ok []).

(** An entry of the table built by [dict_for], next to the entry it was
    computed from. *)
Definition built_from {V W} (f : ngram -> V -> result W)
           (kv : ngram * V) (kw : ngram * W) : Prop :=
  fst kw = fst kv /\ f (fst kv) (snd kv) = Ok (snd kw).

(** The loop that fills [uniProbDict], over exact arithmetic. *)
Definition uni_prob_dict (uniCountDict : dict Z) : result (dict flt) :=
  let N := sum_values uniCountDict in
  dict_for
    (fun key value => bind (true_div value N) (fun p => Ok (np_log p)))
    uniCountDict.

(** The value under the logarithm, for each word of the vocabulary. *)
Definition unigram_mle (uniCountDict : dict Z) : list Q :=
  map (fun value => (inject_Z value / inject_Z (sum_values uniCountDict))%Q)
      (values uniCountDict).

Definition Qsum (l : list Q) : Q := fold_right Qplus 0%Q l.

(** Modelled from the spec: [get_MLE_dict] of the module [corpus_stats],
    not among the sources.  The spec's Probability Estimator: for an
    n-gram [(c_1,...,c_{n-1}, w)], "MLE = count(c_1..c_{n-1}, w) /
    count(c_1..c_{n-1}) using the count table of order n-1 as denominator
    source"; a missing or zero denominator is the spec's
    invariant-violation error, here the exception Python raises at that
    point. *)
Definition get_MLE_dict (lowerCountDict countDict : dict Z) (n : Z)
  : result (dict Q) :=
  dict_for
    (fun key value =>
       let context := slice key None (Some (n - 1)) in
       match lookup context lowerCountDict with
       | None => Error KeyError
       | Some denominator => true_div value denominator
       end)
    countDict.

(** ** [main], up to the tables handed to the backoff helper *)

Record tables : Type := mkTables {
  uniCountDict : dict Z;
  biCountDict : dict Z;
  triCountDict : dict Z;
  uniProbDict : dict flt;
  biMLEdict : dict Q;
  triMLEdict : dict Q
}.

(** [open(fileName)] and the loop that concatenates the lines read;
    [None] is a file that does not exist. *)
Definition read_corpus (file : option string) : result string :=
  match file with
  | None => Error FileNotFoundError
  | Some text => Ok text
  end.

(** Lines 156-180 of [main].  The two statements that follow pass
    [uniProbDict] and [biMLEdict] to [get_brants_bow_dict], whose body is
    not among the sources, and its results to [print_to_file], which is
    modelled on its own in [Arpa]. *)
Definition main (file : option string) : result tables :=
  bind (read_corpus file) (fun lines =>
  let t := get_ngram_tuples lines 4 in
  let uniCountDict := get_count_dict (unigrams t) in
  let biCountDict := get_count_dict (bigrams t) in
  let triCountDict := get_count_dict (trigrams t) in
  bind (uni_prob_dict uniCountDict) (fun uniProbDict =>
  bind (get_MLE_dict uniCountDict biCountDict 2) (fun biMLEdict =>
  bind (get_MLE_dict biCountDict triCountDict 3) (fun triMLEdict =>
  Ok (mkTables uniCountDict biCountDict triCountDict
               uniProbDict biMLEdict triMLEdict))))).

(** ** The spec's reading of the sentence filter

    The spec words the tokenisation as whitespace splitting; this is
    that reading, to be compared with [str_split space]. *)
Definition ascii_isspace (c : ascii) : bool :=
  let n := nat_of_ascii c in
  ((9 <=? n) && (n <=? 13) || (28 <=? n) && (n <=? 32))%nat.

Definition whitespace_tokens (line : string) : list string :=
  map string_of_list_ascii
      (split_ws ascii_isspace (list_ascii_of_string line)).

End Ngrams.

(* ================================================================== *)
(** * Floats: lines 171-175 of [main] as the interpreter runs them *)
(* ================================================================== *)

Module Binary64.

Import Ngrams.

(** A Python [float] is an IEEE 754 binary64 number.  [spec_float] is the
    Standard Library's type of such numbers: [S754_finite s m e] is
    [m * 2^e], negated when [s] is set. *)
Definition float : Type := spec_float.

(** 53 bits of mantissa; the least positive float is [2^emin] and every
    float is below [2^emax]. *)
Definition prec : Z := 53.
Definition emin : Z := -1074.
Definition emax : Z := 1024.

(** [a / (b * 2^e)] as a fraction of two integers, for [e] of either
    sign. *)
Definition scaled_num (a e : Z) : Z := a * 2 ^ Z.max 0 (- e).
Definition scaled_den (b e : Z) : Z := b * 2 ^ Z.max 0 e.

(** The integer part of the binary logarithm of [a / b], for positive [a]
    and [b]. *)
Definition ilog2 (a b : Z) : Z :=
  let d := Z.log2 a - Z.log2 b in
  if scaled_num a d <? scaled_den b d then d - 1 else d.

(** The exponent of the float nearest to [a / b]: the one that leaves 53
    bits in front of the binary point, unless that is below [emin]. *)
Definition exponent (a b : Z) : Z := Z.max emin (ilog2 a b - (prec - 1)).

(** [n / d] rounded to the nearest integer, to the even one of two that
    are equally near. *)
Definition round_half_even (n d : Z) : Z :=
  let q := n / d in
  match 2 * (n mod d) ?= d with
  | Lt => q
  | Gt => q + 1
  | Eq => if Z.even q then q else q + 1
  end.

Definition mantissa (a b : Z) : Z :=
  let e := exponent a b in
  round_half_even (scaled_num a e) (scaled_den b e).

(** [a / b] on two integers.  The interpreter raises [ZeroDivisionError]
    for a zero divisor, and else returns the float nearest to the exact
    quotient, ties to even: a quotient too small for a float becomes a
    zero, one that rounds to [2^emax] or more raises [OverflowError].  A
    zero has the sign of the quotient, that of [b] when [a] is zero. *)
Definition true_div (a b : Z) : result float :=
  if b =? 0 then Error ZeroDivisionError
  else
    let negate := xorb (a <? 0) (b <? 0) in
    let m := mantissa (Z.abs a) (Z.abs b) in
    let e := exponent (Z.abs a) (Z.abs b) in
    if (a =? 0) || (m =? 0) then Ok (S754_zero negate)
    else
      let '(m, e) :=
        if m =? 2 ^ prec then (2 ^ (prec - 1), e + 1) else (m, e) in
      if e + prec <=? emax then Ok (S754_finite negate (Z.to_pos m) e)
      else Error OverflowError.

Section Log.

(** [np.log] on a float: a function of the C library from floats to
    floats, which raises nothing (at zero and below it warns).  Nothing
    more of it is used. *)
Variable np_log : float -> float.

(** The loop that fills [uniProbDict]. *)
Definition uni_prob_dict (uniCountDict : dict Z) : result (dict float) :=
  let N := sum_values uniCountDict in
  dict_for
    (fun key value => bind (true_div value N) (fun p => Ok (np_log p)))
    uniCountDict.

End Log.

(** The floats [value/N] the loop takes the logarithm of, in the order of
    the table. *)
Definition unigram_mle (uniCountDict : dict Z) : result (list float) :=
  mapM (fun value => true_div value (sum_values uniCountDict))
       (values uniCountDict).

(** The number a float stands for; an infinity and a not-a-number stand
    for none, and get zero here. *)
Definition value (x : float) : Q :=
  match x with
  | S754_finite s m e =>
      if s then (- (inject_Z (Z.pos m) * 2 ^ e))%Q
      else (inject_Z (Z.pos m) * 2 ^ e)%Q
  | _ => 0%Q
  end.

(** Half the distance from [1] to the next float. *)
Definition unit_roundoff : Q := (2 ^ (-53))%Q.

(** A zero or a finite number, as opposed to an infinity or a
    not-a-number. *)
Definition finite (y : float) : bool :=
  match y with
  | S754_zero _ | S754_finite _ _ _ => true
  | _ => false
  end.

Definition even_mantissa (q : float) : bool :=
  match q with
  | S754_finite _ m _ => Z.even (Z.pos m)
  | _ => true
  end.

(** [q] is [x] correctly rounded: a number of binary64, by the Standard
    Library's [valid_binary], such that no number of binary64 is nearer to
    [x], and which has the even mantissa if another one is as near. *)
Definition nearest_float (x : Q) (q : float) : Prop :=
  finite q = true
  /\ valid_binary prec emax q = true
  /\ forall y,
       finite y = true -> valid_binary prec emax y = true ->
       (Qabs (value q - x) <= Qabs (value y - x))%Q
       /\ ((Qabs (value y - x) == Qabs (value q - x))%Q ->
           ~ (value y == value q)%Q ->
           even_mantissa q = true).

(** Floats added one after another, from zero, as a loop [s += p] adds
    them, with the addition of the Standard Library's specification of
    binary64. *)
Definition added_in_turn (l : list float) : float :=
  fold_left (SFadd prec emax) l (S754_zero false).

(** [true_div] next to the division of the Standard Library's
    specification of binary64, which rounds its quotient and not its
    operands: an integer goes in as it is, [as_SFdiv] is whether the two
    return the same. *)
Definition of_int (z : Z) : spec_float :=
  match z with
  | Z0 => S754_zero false
  | Zpos p => S754_finite false p 0
  | Zneg p => S754_finite true p 0
  end.

Definition same_float (x y : spec_float) : bool :=
  match x, y with
  | S754_zero s, S754_zero s' => Bool.eqb s s'
  | S754_finite s m e, S754_finite s' m' e' =>
      Bool.eqb s s' && Pos.eqb m m' && Z.eqb e e'
  | _, _ => false
  end.

Definition as_SFdiv (a b : Z) : bool :=
  match true_div a b, SFdiv prec emax (of_int a) (of_int b) with
  | Ok q, x => same_float q x
  | Error OverflowError, S754_infinity _ => true
  | Error ZeroDivisionError, (S754_infinity _ | S754_nan) => true
  | _, _ => false
  end.

End Binary64.

(* ================================================================== *)
(** * Backoff weights *)
(* ================================================================== *)

Module Backoff.

Import Ngrams.

(** The context [c_1..c_{n-1}] of an n-gram, and the same continuation
    seen by the next-lower-order model, [c_2..c_{n-1}, w]. *)
Definition context_of (k : ngram) : ngram := removelast k.
Definition lower_of (k : ngram) : ngram := tl k.

(** The entries of the order-n table that continue [ctx]. *)
Definition continuations (ctx : ngram) (higher : dict Q) : dict Q :=
  filter (fun kv => ngram_eqb (context_of (fst kv)) ctx) higher.

Definition observed_mass (ctx : ngram) (higher : dict Q) : Q :=
  Qsum (values (continuations ctx higher)).

(** The lower-order probabilities of those same continuations. *)
Definition lower_mass (ctx : ngram) (higher lower : dict Q) : result Q :=
  fold_left
    (fun acc kv =>
       bind acc (fun s =>
       match lookup (lower_of (fst kv)) lower with
       | Some p => Ok (s + p)%Q
       | None => Error KeyError
       end))
    (continuations ctx higher) (Ok 0%Q).

(** [a / b] on two floats, idealised as rationals. *)
Definition float_div (a b : Q) : result Q :=
  if Qeq_bool b 0 then Error ZeroDivisionError else Ok (a / b)%Q.

(** Modelled from the spec: the weight computed by [get_brants_bow_dict]
    of the module [backoff], which the script imports and which is not
    among the sources ([main] passes it one table; the spec's formula
    names two, so the weight is modelled on those two).  The spec's
    Backoff Weight Calculator: "weight = (1 - sum of
    observed-continuation-probabilities-under-this-context) normalized by
    (1 - sum of corresponding lower-order probabilities of those same
    continuations)", and when that normalizer is about zero, "clamping
    the weight to zero instead of raising".  [tol] is how close to zero
    counts as about zero, which the spec leaves open. *)
Definition brants_weight (tol observed lower : Q) : result Q :=
  let normalizer := (1 - lower)%Q in
  if Qle_bool (Qabs normalizer) tol then Ok 0%Q
  else float_div (1 - observed)%Q normalizer.

(** Modelled from the spec: the backoff entry of one context; "If a
    context has no observed continuations, it carries no backoff
    entry". *)
Definition backoff_weight (tol : Q) (higher lower : dict Q) (ctx : ngram)
  : result (option Q) :=
  match continuations ctx higher with
  | [] => Ok None
  | _ :: _ =>
      bind (lower_mass ctx higher lower) (fun low =>
      bind (brants_weight tol (observed_mass ctx higher) low) (fun w =>
      Ok (Some w)))
  end.

End Backoff.

(* ================================================================== *)
(** * The ARPA serialiser, [print_to_file] *)
(* ================================================================== *)

Module Arpa.

Import Ngrams.
Local Open Scope string_scope.

Definition nl : string := String newline EmptyString.

(** [str(n)] on an integer. *)
Definition str_int (z : Z) : string :=
  DecimalString.NilZero.string_of_int (Z.to_int z).

(** [sorted(d.items(), key=operator.itemgetter(1), reverse=True)].
    Python's sort compares with [<] only and is stable, also when
    reversed: entries whose values are equal keep the order they have in
    the dict.  [x] is put in front of the first entry that is not greater
    than it. *)
Fixpoint insert_desc {K V} (lt : V -> V -> bool) (x : K * V)
         (l : list (K * V)) : list (K * V) :=
  match l with
  | [] => [x]
  | y :: l' =>
      if lt (snd x) (snd y) then y :: insert_desc lt x l' else x :: l
  end.

Fixpoint sorted_desc {K V} (lt : V -> V -> bool) (l : list (K * V))
  : list (K * V) :=
  match l with
  | [] => []
  | x :: l' => insert_desc lt x (sorted_desc lt l')
  end.

(** What [outFile.write(entry+'\n')] leaves in the file, over a loop. *)
Fixpoint write_rows (rows : list string) : string :=
  match rows with
  | [] => EmptyString
  | entry :: rows' => entry ++ nl ++ write_rows rows'
  end.

Section Serializer.

(** The float type of the tables: how [str] prints it and how [<]
    and [==] compare it. *)
Variable F : Type.
Variable str_F : F -> string.
Variable F_lt : F -> F -> bool.
Variable F_eq : F -> F -> bool.

(** [<] on two pairs, as Python compares tuples: the first components
    decide unless they are equal. *)
Definition pair_lt (x y : F * F) : bool :=
  if F_eq (fst x) (fst y) then F_lt (snd x) (snd y)
  else F_lt (fst x) (fst y).

Definition uni_entry (backoff : bool) (kv : ngram * (F * F))
  : result string :=
  let '(key, value) := kv in
  bind (index key 0) (fun k0 =>
  if backoff then
    Ok (str_F (fst value) ++ " " ++ k0 ++ " " ++ str_F (snd value))
  else
    Ok (str_F (fst value) ++ " " ++ k0)).

Definition bi_entry (backoff : bool) (kv : ngram * (F * F))
  : result string :=
  let '(key, value) := kv in
  bind (index key 0) (fun k0 =>
  bind (index key 1) (fun k1 =>
  if backoff then
    Ok (str_F (fst value) ++ " " ++ k0 ++ " " ++ k1 ++ " " ++
        str_F (snd value))
  else
    Ok (str_F (fst value) ++ " " ++ k0 ++ " " ++ k1))).

Definition tri_entry (kv : ngram * F) : result string :=
  let '(key, value) := kv in
  bind (index key 0) (fun k0 =>
  bind (index key 1) (fun k1 =>
  bind (index key 2) (fun k2 =>
  Ok (str_F value ++ " " ++ k0 ++ " " ++ k1 ++ " " ++ k2)))).

(** Everything [print_to_file] writes, in the order it is written: the
    preamble with the three counts, then each section header and the rows
    of that section, then the end marker.  Each header and the end marker
    are written with a newline in front. *)
Definition document (n1 n2 n3 : Z) (rows1 rows2 rows3 : list string)
  : string :=
  nl ++ "\data\" ++ nl ++
  "ngram 1=" ++ str_int n1 ++ nl ++
  "ngram 2=" ++ str_int n2 ++ nl ++
  "ngram 3=" ++ str_int n3 ++ nl ++
  nl ++ "\1-grams:" ++ nl ++ write_rows rows1 ++
  nl ++ "\2-grams:" ++ nl ++ write_rows rows2 ++
  nl ++ "\3-grams:" ++ nl ++ write_rows rows3 ++
  nl ++ "\end\".

Definition file_name (backoff : bool) (smoothing : string) : string :=
  let backedOff := if backoff then "yes" else "no" in
  "lm_smoothing-" ++ smoothing ++ "_backoff-" ++ backedOff ++ ".txt".

(** [print_to_file] from its first write on: the name of the file and
    what it holds once the function has returned.  An exception leaves a
    truncated file behind, which this model does not describe.  The call
    of [open] that comes before the first write is in
    [print_to_file_on]. *)
Definition print_to_file (uniBowDict biBowDict : dict (F * F))
           (triMLEdict : dict F) (backoff : bool) (smoothing : string)
  : result (string * string) :=
  let sortedUni := sorted_desc pair_lt uniBowDict in
  bind (mapM (uni_entry backoff) sortedUni) (fun rows1 =>
  let sortedBi := sorted_desc pair_lt biBowDict in
  bind (mapM (bi_entry backoff) sortedBi) (fun rows2 =>
  let sortedTri := sorted_desc F_lt triMLEdict in
  bind (mapM tri_entry sortedTri) (fun rows3 =>
  Ok (file_name backoff smoothing,
      document (len uniBowDict) (len biBowDict) (len triMLEdict)
               rows1 rows2 rows3)))).

(** ** [print_to_file] against a file system

    [open(name, 'w', encoding='utf-8')] is answered by the operating
    system: [opens name] is [None] where the file is created or emptied,
    and else the exception raised, [FileNotFoundError] for a directory
    in the name that does not exist, [ValueError] for a NUL character,
    another [OSError] for a name that is too long or a place that may not
    be written.  It is called before anything is sorted or written.
    Writing to the file once it is open is taken to go through. *)
Definition open_w (opens : string -> option exn) (name : string)
  : result string :=
  match opens name with
  | Some e => Error e
  | None => Ok name
  end.

Definition print_to_file_on (opens : string -> option exn)
           (uniBowDict biBowDict : dict (F * F)) (triMLEdict : dict F)
           (backoff : bool) (smoothing : string)
  : result (string * string) :=
  bind (open_w opens (file_name backoff smoothing)) (fun _ =>
  print_to_file uniBowDict biBowDict triMLEdict backoff smoothing).

End Serializer.

(** ** What "sorted by descending value" means

    [<] on floats that are numbers is a strict weak order: nothing is
    less than something less than itself, and what is not less carries
    over. *)
Definition strict_weak_order {V} (lt : V -> V -> bool) : Prop :=
  (forall x y, lt x y = true -> lt y x = false)
  /\ (forall x y z, lt x y = false -> lt y z = false -> lt x z = false).

(** [==] holds of the floats neither of which is less than the other. *)
Definition eq_agrees {V} (lt eq : V -> V -> bool) : Prop :=
  forall x y, eq x y = true <-> lt x y = false /\ lt y x = false.

(** Two values the sort cannot tell apart. *)
Definition tied {V} (lt : V -> V -> bool) (v v' : V) : bool :=
  negb (lt v v') && negb (lt v' v).

(** [sorted] holds the entries of [table], no value is less than one that
    comes after it, and entries with tied values are in the order they
    have in [table]. *)
Definition descending_stable {K V} (lt : V -> V -> bool)
           (table sorted : list (K * V)) : Prop :=
  Permutation sorted table
  /\ StronglySorted (fun x y => lt (snd x) (snd y) = false) sorted
  /\ forall v,
       filter (fun e => tied lt v (snd e)) sorted
       = filter (fun e => tied lt v (snd e)) table.

(** The rows of a section, next to the sorted entries they print. *)
Definition uni_row {F} (str_F : F -> string) (backoff : bool)
           (kv : ngram * (F * F)) (row : string) : Prop :=
  exists w rest,
    fst kv = w :: rest
    /\ row = if backoff
             then str_F (fst (snd kv)) ++ " " ++ w ++ " " ++
                  str_F (snd (snd kv))
             else str_F (fst (snd kv)) ++ " " ++ w.

Definition bi_row {F} (str_F : F -> string) (backoff : bool)
           (kv : ngram * (F * F)) (row : string) : Prop :=
  exists w1 w2 rest,
    fst kv = w1 :: w2 :: rest
    /\ row = if backoff
             then str_F (fst (snd kv)) ++ " " ++ w1 ++ " " ++ w2 ++ " " ++
                  str_F (snd (snd kv))
             else str_F (fst (snd kv)) ++ " " ++ w1 ++ " " ++ w2.

Definition tri_row {F} (str_F : F -> string)
           (kv : ngram * F) (row : string) : Prop :=
  exists w1 w2 w3 rest,
    fst kv = w1 :: w2 :: w3 :: rest
    /\ row = str_F (snd kv) ++ " " ++ w1 ++ " " ++ w2 ++ " " ++ w3.

End Arpa.

(* ================================================================== *)
(** * The syllable splitter, [kaldi-style/kaz_syllable_split.py] *)
(* ================================================================== *)

Module Syllable.

(** A character is its code point. *)
Definition char := N.
Definition word := list char.

Local Open Scope N_scope.

(** The three alternations, in the order they are written. *)
Definition consonant : list char :=
  [0x43f; 0x431; 0x434; 0x442; 0x43a; 0x433; 0x445; 0x448; 0x449; 0x436;
   0x437; 0x441; 0x446; 0x447; 0x439; 0x43b; 0x43c; 0x43d; 0x4a3; 0x444;
   0x432; 0x440; 0x44a; 0x44c].
Definition vowel : list char :=
  [0x438; 0x435; 0x44d; 0x4e9; 0x4af; 0x430; 0x43e; 0x443; 0x44b].
Definition glide : list char :=
  [0x451; 0x44f; 0x44e; 0x435].

(** The marker ["@ @"]. *)
Definition marker : word := [0x40; 0x20; 0x40].

(** Every pattern of the script is a sequence of groups, each an
    alternation of single characters. *)
Definition pattern := list (list char).

Definition in_group (g : list char) (c : char) : bool :=
  existsb (N.eqb c) g.

(** [re.match(p, s)]: the groups match the first characters of [s], one
    each; what follows in [s] is not looked at. *)
Fixpoint re_match (p : pattern) (s : word) : bool :=
  match p, s with
  | [], _ => true
  | g :: p', c :: s' => in_group g c && re_match p' s'
  | _ :: _, [] => false
  end.

Definition vcv : pattern := [vowel ++ glide; consonant; vowel].
Definition vccv : pattern := [vowel ++ glide; consonant; consonant; vowel].
Definition vccc : pattern :=
  [vowel ++ glide; consonant; consonant; consonant].
Definition vgv : pattern := [vowel ++ glide; glide].

(** What [str.split()] takes for whitespace. *)
Definition isspace (c : char) : bool :=
  (9 <=? c) && (c <=? 13) || (28 <=? c) && (c <=? 32) ||
  (c =? 0x85) || (c =? 0xa0) || (c =? 0x1680) ||
  (0x2000 <=? c) && (c <=? 0x200a) ||
  (c =? 0x2028) || (c =? 0x2029) || (c =? 0x202f) || (c =? 0x205f) ||
  (c =? 0x3000).

Local Open Scope Z_scope.

(** The variables of one [while] loop. *)
Record loop : Type := mkLoop {
  cur : word;
  i : Z;
  j : Z;
  lenWord : Z
}.

(** The body of a [while] loop; [k] is how far behind [i] the marker
    goes in. *)
Definition loop_body (p : pattern) (k : Z) (st : loop) : loop :=
  let w := cur st in
  if re_match p (slice w (Some (i st)) (Some (j st))) then
    mkLoop (slice w None (Some (i st + k)) ++ marker ++
            slice w (Some (i st + k)) None)
           (i st + 3) (j st + 3) (lenWord st + 3)
  else
    mkLoop w (i st + 1) (j st + 1) (lenWord st).

(** [while j < lenWord: ...], run for at most [fuel] tests of the
    condition. *)
Fixpoint while (fuel : nat) (p : pattern) (k : Z) (st : loop)
  : option loop :=
  match fuel with
  | O => None
  | S fuel' =>
      if j st <? lenWord st then while fuel' p k (loop_body p k st)
      else Some st
  end.

(** Tests that are always enough, see [while_terminates]: after a match
    the next test fails, so at most two tests go by before [j] gets one
    closer to [lenWord]. *)
Definition enough (st : loop) : nat :=
  S (Z.to_nat (2 * (lenWord st - j st) + 1)).

(** What holds of the variables whenever the condition is tested: [j] is
    [i] plus the width of the pattern and [lenWord] is one more than the
    length of the word. *)
Definition well_formed (p : pattern) (st : loop) : Prop :=
  0 <= i st /\ j st = i st + len p /\ lenWord st = len (cur st) + 1.

(** One pass: [i=0], [j=width], then the loop; [width] is the number
    of groups of the pattern.  The word and [lenWord] are handed on to
    the next pass. *)
Definition pass (p : pattern) (k width : Z) (w : word) (lenWord : Z)
  : option (word * Z) :=
  let st := mkLoop w 0 width lenWord in
  match while (enough st) p k st with
  | Some st' => Some (cur st', Syllable.lenWord st')
  | None => None
  end.

(** The body of [for word in line.split()], up to [print]. *)
Definition split_word (w : word) : option word :=
  let lenWord := len w + 1 in
  match pass vcv 1 3 w lenWord with
  | None => None
  | Some (w1, lenWord1) =>
      match pass vccv 2 4 w1 lenWord1 with
      | None => None
      | Some (w2, lenWord2) =>
          match pass vccc 3 4 w2 lenWord2 with
          | None => None
          | Some (w3, lenWord3) =>
              match pass vgv 1 2 w3 lenWord3 with
              | None => None
              | Some (w4, _) => Some w4
              end
          end
      end
  end.

(** [print(word)] *)
Definition print (w : word) : list char := w ++ [10%N].

Fixpoint split_words (ws : list word) : option (list word) :=
  match ws with
  | [] => Some []
  | w :: ws' =>
      match split_word w, split_words ws' with
      | Some o, Some os => Some (o :: os)
      | _, _ => None
      end
  end.

(** One iteration of [for line in f]: the words printed, in order. *)
Definition process_line (line : list char) : option (list word) :=
  split_words (split_ws isspace line).

(** What a run over the lines of the file sends to standard output. *)
Definition stdout_of (printed : list word) : list char :=
  flat_map print printed.

(** ** The rule passes as the spec words them

    A pass scans the word from left to right; where the pattern matches
    at [pos] the marker goes in at [pos + k] and the scan goes on three
    characters further, else one character further; it ends when fewer
    than [width] characters are left. *)
Inductive scan (p : pattern) (k : Z) : word -> Z -> word -> Prop :=
| scan_end w pos :
    len w < pos + len p ->
    scan p k w pos w
| scan_hit w pos w' :
    pos + len p <= len w ->
    re_match p (slice w (Some pos) (Some (pos + len p))) = true ->
    scan p k (slice w None (Some (pos + k)) ++ marker ++
              slice w (Some (pos + k)) None) (pos + 3) w' ->
    scan p k w pos w'
| scan_miss w pos w' :
    pos + len p <= len w ->
    re_match p (slice w (Some pos) (Some (pos + len p))) = false ->
    scan p k w (pos + 1) w' ->
    scan p k w pos w'.

(** ** Whitespace tokenisation as the spec words it

    The words of a line are its runs of characters that are not
    whitespace, each as long as it can be: the line is some whitespace,
    then, for each word in turn, the word and what is behind it, which
    starts with whitespace unless the line ends with the word. *)
Inductive whitespace_words {A} (is_space : A -> bool)
  : list A -> list (list A) -> Prop :=
| words_none gap :
    Forall (fun c => is_space c = true) gap ->
    whitespace_words is_space gap []
| words_cons gap w rest ws :
    Forall (fun c => is_space c = true) gap ->
    w <> [] ->
    Forall (fun c => is_space c = false) w ->
    (rest = [] \/ exists c rest', rest = c :: rest' /\ is_space c = true) ->
    whitespace_words is_space rest ws ->
    whitespace_words is_space (gap ++ w ++ rest) (w :: ws).

End Syllable.

(* ================================================================== *)
(** * Inputs used in the examples *)
(* ================================================================== *)

Module Scenario.

Import Ngrams.
Local Open Scope string_scope.

(** The unigram counts of the spec's corpus ["a b a b c"]. *)
Definition abab_counts : dict Z := [(["a"], 2); (["b"], 2); (["c"], 1)].

(** The corpus ["a a a a a"]: the only word has probability one, so the
    one continuation of the context [a] takes all of the lower-order
    probability. *)
Definition aaaaa_bigram_probs : dict Q := [(["a"; "a"], 1%Q)].
Definition aaaaa_unigram_probs : dict Q := [(["a"], 1%Q)].

(** Tables for the serialiser, with integers standing for the floats:
    the model of ["a a a a a"] in logarithms, ... *)
Definition aaaaa_uni : dict (Z * Z) := [(["a"], (0, 0))].
Definition aaaaa_bi : dict (Z * Z) := [(["a"; "a"], (0, 0))].
Definition aaaaa_tri : dict Z := [(["a"; "a"; "a"], 0)].

(** ... three trigrams of equal probability, as the corpus
    ["b x y a x y c x y"] gives them in this order, ... *)
Definition tied_trigrams : dict Z :=
  [(["b"; "x"; "y"], 0); (["a"; "x"; "y"], 0); (["c"; "x"; "y"], 0)].

(** ... and unigrams that differ in probability or in weight only. *)
Definition mixed_unigrams : dict (Z * Z) :=
  [(["u"], (-3, 0)); (["v"], (-1, 1)); (["w"], (-1, 2)); (["z"], (-3, 0))].

(** A directory that may be written and has no directory in it: a name
    with a NUL character is turned down by the interpreter, one with a
    slash names a directory that is not there. *)
Definition plain_directory (name : string) : option exn :=
  if existsb (Ascii.eqb "000"%char) (list_ascii_of_string name)
  then Some ValueError
  else if existsb (Ascii.eqb "/"%char) (list_ascii_of_string name)
       then Some FileNotFoundError
       else None.

(** Ten words counted once each. *)
Definition tenths : dict Z :=
  map (fun w => ([w], 1))
      ["a"; "b"; "c"; "d"; "e"; "f"; "g"; "h"; "i"; "j"].

(** What stands for [np.log] where an example needs a function and none
    of its values: the float itself. *)
Definition any_log (x : Binary64.float) : Binary64.float := x.

(** The order the spec would have ties broken by: n-grams compared word
    by word. *)
Fixpoint ngram_lex_lt (a b : ngram) : bool :=
  match a, b with
  | _, [] => false
  | [], _ :: _ => true
  | x :: a', y :: b' =>
      String.ltb x y || (String.eqb x y && ngram_lex_lt a' b')
  end.

End Scenario.

(* ================================================================== *)
(** * Notions the further properties are stated with *)
(* ================================================================== *)

Module Notions.

Import Ngrams.
Local Open Scope string_scope.

(** The sentence read back from its n-grams: the first one, then the last
    token of each of the others. *)
Definition tokens_of_ngrams (ngrams : list ngram) : list token :=
  match ngrams with
  | [] => []
  | g :: rest => g ++ map (fun h => last h EmptyString) rest
  end.

(** The accumulators of two runs, one after the other. *)
Definition append_tuples (t1 t2 : tuples) : tuples :=
  mkTuples (unigrams t1 ++ unigrams t2)
           (bigrams t1 ++ bigrams t2)
           (trigrams t1 ++ trigrams t2).

(** The number of tokens of a list of sentences. *)
Definition total_tokens (sentences : list (list token)) : Z :=
  fold_right (fun toks acc => len toks + acc) 0 sentences.

(** A string in which character [c] does not occur. *)
Definition free_of (c : ascii) (s : string) : Prop :=
  ~ In c (list_ascii_of_string s).

(** No two entries of the table have values the sort cannot tell
    apart. *)
Definition no_ties {K V} (lt : V -> V -> bool) (table : list (K * V))
  : Prop :=
  forall x y,
    In x table -> In y table ->
    Arpa.tied lt (snd x) (snd y) = true -> x = y.

(** The lines of the ARPA file, given the rows of its sections. *)
Definition document_lines (n1 n2 n3 : Z) (rows1 rows2 rows3 : list string)
  : list string :=
  [EmptyString; "\data\";
   "ngram 1=" ++ Arpa.str_int n1;
   "ngram 2=" ++ Arpa.str_int n2;
   "ngram 3=" ++ Arpa.str_int n3;
   EmptyString; "\1-grams:"] ++ rows1 ++
  [EmptyString; "\2-grams:"] ++ rows2 ++
  [EmptyString; "\3-grams:"] ++ rows3 ++
  [EmptyString; "\end\"].

(** [out] is [w] cut into pieces, none of them empty, with the marker
    between one piece and the next. *)
Definition cut_into (w out : Syllable.word) : Prop :=
  exists pieces,
    out = join Syllable.marker pieces
    /\ List.concat pieces = w
    /\ Forall (fun piece => piece <> []) pieces.

(** A pattern none of whose groups holds a character of the marker. *)
Definition marker_free (p : Syllable.pattern) : Prop :=
  Forall (Forall (fun c => Syllable.in_group Syllable.marker c = false)) p.

(** No window of [w] matches the pattern. *)
Definition matches_nowhere (p : Syllable.pattern) (w : Syllable.word)
  : Prop :=
  forall q : nat, Syllable.re_match p (skipn q w) = false.

End Notions.

(* ================================================================== *)
(** * Facts about the Python primitives *)
(* ================================================================== *)

Unset Implicit Arguments.

Section PyFacts.

Variable A : Type.
Implicit Types (l : list A) (a b n : Z).

Lemma len_nonneg l : 0 <= len l.
Proof. unfold len. lia. Qed.

Lemma len_app l l' : len (l ++ l') = len l + len l'.
Proof. unfold len. rewrite length_app. lia. Qed.

Lemma len_map (B : Type) (f : A -> B) l : len (map f l) = len l.
Proof. unfold len. now rewrite length_map. Qed.

Lemma range_len n : len (range n) = Z.max 0 n.
Proof. unfold len, range. rewrite length_map, length_seq. lia. Qed.

Lemma range_nth n (m : nat) :
  Z.of_nat m < n -> nth_error (range n) m = Some (Z.of_nat m).
Proof.
  intros H. unfold range.
  rewrite nth_error_map, nth_error_seq.
  destruct (Nat.ltb_spec m (Z.to_nat n)); [ reflexivity | lia ].
Qed.

Lemma range_nonpos n : n <= 0 -> range n = [].
Proof.
  intros H. unfold range. replace (Z.to_nat n) with 0%nat by lia.
  reflexivity.
Qed.

(** A slice whose bounds lie inside the list. *)
Lemma slice_inside l a b :
  0 <= a -> a <= b -> b <= len l ->
  slice l (Some a) (Some b)
  = firstn (Z.to_nat (b - a)) (skipn (Z.to_nat a) l).
Proof.
  intros Ha Hab Hb. unfold slice, clamp_index.
  destruct (Z.ltb_spec a 0); [ lia | ].
  destruct (Z.ltb_spec b 0); [ lia | ].
  rewrite !Z.min_l by lia. reflexivity.
Qed.

Lemma slice_prefix l a :
  0 <= a -> a <= len l ->
  slice l None (Some a) = firstn (Z.to_nat a) l.
Proof.
  intros Ha Hb. unfold slice, clamp_index.
  destruct (Z.ltb_spec a 0); [ lia | ].
  rewrite Z.min_l by lia. rewrite Z.sub_0_r. reflexivity.
Qed.

Lemma slice_suffix l a :
  0 <= a -> a <= len l ->
  slice l (Some a) None = skipn (Z.to_nat a) l.
Proof.
  intros Ha Hb. unfold slice, clamp_index.
  destruct (Z.ltb_spec a 0); [ lia | ].
  rewrite Z.min_l by lia.
  apply firstn_all2. unfold len in *. rewrite length_skipn. lia.
Qed.

(** Cutting a list in two at an inner position loses nothing. *)
Lemma slice_cut l a :
  0 <= a -> a <= len l ->
  slice l None (Some a) ++ slice l (Some a) None = l.
Proof.
  intros Ha Hb. rewrite slice_prefix, slice_suffix by assumption.
  apply firstn_skipn.
Qed.

End PyFacts.

(* ================================================================== *)
(** * The n-gram extractor *)
(* ================================================================== *)

Section Extractor.

Import Ngrams.

Lemma get_ngrams_unigram (tokens : list token) :
  get_ngrams_from_line tokens 1 = map (fun tok => [tok]) tokens.
Proof. reflexivity. Qed.

Lemma get_ngrams_general (tokens : list token) (n : Z) :
  n <> 1 ->
  get_ngrams_from_line tokens n
  = map (fun i => slice tokens (Some i) (Some (i + n)))
        (range (len tokens - n + 1)).
Proof.
  intros Hn. unfold get_ngrams_from_line.
  destruct (Z.eqb_spec n 1); [ contradiction | ].
  now replace (len tokens - (n - 1)) with (len tokens - n + 1) by lia.
Qed.

Lemma get_ngrams_len (tokens : list token) (n : Z) :
  n <> 1 ->
  len (get_ngrams_from_line tokens n) = Z.max 0 (len tokens - n + 1).
Proof.
  intros Hn. now rewrite get_ngrams_general, len_map, range_len.
Qed.

Lemma get_ngrams_nth (tokens : list token) (n : Z) (m : nat) :
  2 <= n -> Z.of_nat m <= len tokens - n ->
  nth_error (get_ngrams_from_line tokens n) m
  = Some (firstn (Z.to_nat n) (skipn m tokens)).
Proof.
  intros Hn Hm. rewrite get_ngrams_general by lia.
  rewrite nth_error_map, range_nth by lia. cbn [option_map].
  rewrite slice_inside by lia.
  now replace (Z.of_nat m + n - Z.of_nat m) with n by lia;
    rewrite Nat2Z.id.
Qed.

(** C5. For every token list and every order [n >= 2] the extractor
    returns the slices [tokens[i:i+n]] for [i = 0 .. len(tokens) - n], in
    that order and each of length [n]: the [m]-th tuple is the [n] tokens
    that start at position [m], so repeated n-grams are all kept.  Hence
    [L - n + 1] tuples for [L >= n], [L - 1] bigrams for [L >= 2], and
    none when [L < n]. *)
Theorem get_ngrams_from_line_spec (tokens : list token) (n : Z) :
  2 <= n ->
  let L := len tokens in
  get_ngrams_from_line tokens n
  = map (fun i => slice tokens (Some i) (Some (i + n)))
        (range (L - n + 1))
  /\ (forall m : nat,
        Z.of_nat m <= L - n ->
        exists g,
          nth_error (get_ngrams_from_line tokens n) m = Some g
          /\ g = firstn (Z.to_nat n) (skipn m tokens)
          /\ len g = n)
  /\ len (get_ngrams_from_line tokens n) = Z.max 0 (L - n + 1)
  /\ (2 <= L -> len (get_ngrams_from_line tokens 2) = L - 1)
  /\ (L < n -> get_ngrams_from_line tokens n = []).
Proof.
  intros Hn L. repeat split.
  - apply get_ngrams_general. lia.
  - intros m Hm. eexists. split; [ | split; [ reflexivity | ] ].
    + now apply get_ngrams_nth.
    + unfold L, len in *. rewrite length_firstn, length_skipn. lia.
  - apply get_ngrams_len. lia.
  - intros HL. rewrite get_ngrams_len by lia. fold L. lia.
  - intros HL. rewrite get_ngrams_general by lia.
    now rewrite range_nonpos by (fold L; lia).
Qed.

(** The sentence ["a b a b c"] of the spec: four bigrams, the repeated
    one twice. *)
Lemma get_ngrams_from_line_spec_witness :
  2 <= 2
  /\ get_ngrams_from_line ["a"; "b"; "a"; "b"; "c"]%string 2
     = [["a"; "b"]; ["b"; "a"]; ["a"; "b"]; ["b"; "c"]]%string.
Proof.
  split; [ lia | ].
  destruct (@get_ngrams_from_line_spec
              ["a"; "b"; "a"; "b"; "c"]%string 2 ltac:(lia))
    as [H _].
  rewrite H. reflexivity.
Defined.

End Extractor.

(* ================================================================== *)
(** * Tables and counting *)
(* ================================================================== *)

Section Tables.

Import Ngrams.

Lemma ngram_eqb_spec (a b : ngram) : reflect (a = b) (ngram_eqb a b).
Proof.
  revert b. induction a as [|x a IH]; intros [|y b]; cbn.
  - now constructor.
  - constructor. discriminate.
  - constructor. discriminate.
  - destruct (String.eqb_spec x y) as [->|Hxy]; cbn.
    + destruct (IH b) as [->|Hab]; constructor; congruence.
    + constructor. congruence.
Qed.

Lemma ngram_eqb_refl (a : ngram) : ngram_eqb a a = true.
Proof. now destruct (ngram_eqb_spec a a). Qed.

Lemma ngram_eqb_neq (a b : ngram) : a <> b -> ngram_eqb a b = false.
Proof. now destruct (ngram_eqb_spec a b). Qed.

Variable V : Type.
Implicit Types (d : dict V) (k : ngram) (v : V).

Lemma lookup_set_same k v d : lookup k (dict_set k v d) = Some v.
Proof.
  induction d as [|[k' v'] d IH]; cbn.
  - now rewrite ngram_eqb_refl.
  - destruct (ngram_eqb_spec k k') as [->|Hk]; cbn.
    + now rewrite ngram_eqb_refl.
    + now rewrite (ngram_eqb_neq _ _ Hk).
Qed.

Lemma lookup_set_other k k' v d :
  k' <> k -> lookup k' (dict_set k v d) = lookup k' d.
Proof.
  intros Hk. induction d as [|[k0 v0] d IH]; cbn.
  - now rewrite (ngram_eqb_neq _ _ Hk).
  - destruct (ngram_eqb_spec k k0) as [->|Hk0]; cbn.
    + now rewrite (ngram_eqb_neq _ _ Hk).
    + now rewrite IH.
Qed.

Lemma lookup_In k v d : lookup k d = Some v -> In (k, v) d.
Proof.
  induction d as [|[k' v'] d IH]; cbn; [ discriminate | ].
  destruct (ngram_eqb_spec k k') as [->|Hk].
  - intros [= ->]. now left.
  - intros H. right. now apply IH.
Qed.

Lemma lookup_None k d : lookup k d = None <-> ~ In k (keys d).
Proof.
  induction d as [|[k' v'] d IH]; cbn.
  - tauto.
  - destruct (ngram_eqb_spec k k') as [->|Hk].
    + split; [ discriminate | intros H; exfalso; apply H; now left ].
    + rewrite IH. split; [ intros H [E|E]; [ congruence | contradiction ] | tauto ].
Qed.

Lemma In_lookup k v d :
  NoDup (keys d) -> In (k, v) d -> lookup k d = Some v.
Proof.
  induction d as [|[k' v'] d IH]; cbn; [ tauto | ].
  intros Hnd [E|Hin].
  - injection E as -> ->. now rewrite ngram_eqb_refl.
  - inversion Hnd as [|? ? Hk' Hnd']; subst.
    destruct (ngram_eqb_spec k k') as [->|Hk]; [ | now apply IH ].
    exfalso. apply Hk'. change k' with (fst (k', v)). now apply in_map.
Qed.

Lemma keys_set k v d :
  keys (dict_set k v d)
  = match lookup k d with Some _ => keys d | None => keys d ++ [k] end.
Proof.
  unfold keys. induction d as [|[k' v'] d IH]; cbn; [ reflexivity | ].
  destruct (ngram_eqb_spec k k') as [->|Hk]; cbn; [ reflexivity | ].
  rewrite IH. now destruct (lookup k d).
Qed.

Lemma NoDup_keys_set k v d : NoDup (keys d) -> NoDup (keys (dict_set k v d)).
Proof.
  intros Hnd. rewrite keys_set. destruct (lookup k d) eqn:E; [ assumption | ].
  apply lookup_None in E.
  apply NoDup_rev in Hnd. rewrite <- (rev_involutive (keys d ++ [k])).
  apply NoDup_rev. rewrite rev_app_distr. cbn. constructor; [ | assumption ].
  now rewrite <- in_rev.
Qed.

Lemma len_set k v d :
  len (dict_set k v d)
  = match lookup k d with Some _ => len d | None => len d + 1 end.
Proof.
  assert (H : forall d', len d' = len (keys d'))
    by (intros d'; unfold keys; now rewrite len_map).
  rewrite !H, keys_set.
  destruct (lookup k d); [ reflexivity | ]. rewrite len_app. reflexivity.
Qed.

End Tables.

Section Counting.

Import Ngrams.

Lemma count_step_fold (l : list ngram) (d : dict Z) (k : ngram) :
  count_of k (fold_left count_step l d) = count_of k d + occurrences k l.
Proof.
  revert d. induction l as [|g l IH]; intros d; cbn.
  - unfold occurrences, len. cbn. lia.
  - rewrite IH. unfold occurrences, count_step. cbn [filter].
    destruct (ngram_eqb_spec k g) as [->|Hk].
    + unfold count_of at 1. rewrite lookup_set_same.
      unfold len. cbn [List.length]. lia.
    + unfold count_of at 1. now rewrite lookup_set_other by assumption.
Qed.

Lemma count_step_positive (l : list ngram) (d : dict Z) :
  (forall k c, lookup k d = Some c -> 0 < c) ->
  forall k c, lookup k (fold_left count_step l d) = Some c -> 0 < c.
Proof.
  revert d. induction l as [|g l IH]; intros d Hd; cbn; [ exact Hd | ].
  apply IH. intros k c. unfold count_step.
  destruct (ngram_eqb_spec k g) as [->|Hk].
  - rewrite lookup_set_same. intros [= <-]. unfold count_of.
    destruct (lookup g d) eqn:E; [ apply Hd in E | ]; lia.
  - rewrite lookup_set_other by assumption. apply Hd.
Qed.

Lemma count_step_NoDup (l : list ngram) (d : dict Z) :
  NoDup (keys d) -> NoDup (keys (fold_left count_step l d)).
Proof.
  revert d. induction l as [|g l IH]; intros d Hd; cbn; [ exact Hd | ].
  apply IH. now apply NoDup_keys_set.
Qed.

(** The count table holds, for each n-gram of the list and for no other,
    the number of its occurrences. *)
Lemma get_count_dict_lookup (l : list ngram) (k : ngram) (c : Z) :
  lookup k (get_count_dict l) = Some c <->
  c = occurrences k l /\ In k l.
Proof.
  pose proof (count_step_fold l [] k) as Hc.
  pose proof (count_step_positive l [] ltac:(discriminate) k) as Hp.
  change (fold_left count_step l []) with (get_count_dict l) in Hc, Hp.
  unfold count_of in Hc. cbn [lookup] in Hc.
  assert (Hocc : 0 < occurrences k l <-> In k l).
  { unfold occurrences, len. split.
    - intros H. destruct (filter (ngram_eqb k) l) as [|g r] eqn:E;
        [ cbn in H; lia | ].
      assert (Hg : In g (filter (ngram_eqb k) l)) by (rewrite E; now left).
      apply filter_In in Hg. destruct Hg as [Hg Hkg].
      now destruct (ngram_eqb_spec k g); subst.
    - intros H.
      assert (Hk : In k (filter (ngram_eqb k) l))
        by (apply filter_In; split; [ assumption | apply ngram_eqb_refl ]).
      destruct (filter (ngram_eqb k) l); [ destruct Hk | cbn; lia ]. }
  destruct (lookup k (get_count_dict l)) as [c'|] eqn:E.
  - specialize (Hp c' eq_refl). split.
    + intros [= <-]. split; [ lia | apply Hocc; lia ].
    + intros [-> _]. f_equal. lia.
  - split; [ discriminate | ]. intros [_ Hin]. apply Hocc in Hin. lia.
Qed.

Lemma get_count_dict_positive (l : list ngram) (k : ngram) (c : Z) :
  lookup k (get_count_dict l) = Some c -> 0 < c.
Proof.
  apply (count_step_positive l []). discriminate.
Qed.

Lemma get_count_dict_NoDup (l : list ngram) : NoDup (keys (get_count_dict l)).
Proof. apply (count_step_NoDup l []). constructor. Qed.

Lemma get_count_dict_nil : get_count_dict [] = [].
Proof. reflexivity. Qed.

End Counting.

(* ================================================================== *)
(** * Splitting text *)
(* ================================================================== *)

Section Splitting.

Variable A : Type.
Variable is_sep : A -> bool.

Lemma split_on_nonempty (s : list A) : split_on is_sep s <> [].
Proof.
  destruct s as [|c s]; cbn; [ discriminate | ].
  destruct (is_sep c); [ discriminate | ].
  destruct (split_on is_sep s); discriminate.
Qed.

Lemma split_on_len (s : list A) : 1 <= len (split_on is_sep s).
Proof.
  pose proof (split_on_nonempty s).
  unfold len. destruct (split_on is_sep s); [ contradiction | cbn; lia ].
Qed.

(** Joining the pieces with the separator gives the text back. *)
Lemma split_on_join (sep : A) (s : list A) :
  (forall c, is_sep c = true -> c = sep) ->
  join [sep] (split_on is_sep s) = s.
Proof.
  intros Hsep. induction s as [|c s IH]; cbn; [ reflexivity | ].
  pose proof (split_on_nonempty s) as Hne.
  destruct (is_sep c) eqn:Ec.
  - destruct (split_on is_sep s) as [|w ws]; [ contradiction | ].
    change (join [sep] ([] :: w :: ws)) with (sep :: join [sep] (w :: ws)).
    rewrite IH. f_equal. symmetry. now apply Hsep.
  - destruct (split_on is_sep s) as [|w ws]; [ contradiction | ].
    rewrite <- IH. destruct ws; reflexivity.
Qed.

(** No piece holds a separator. *)
Lemma split_on_pieces (s : list A) :
  Forall (Forall (fun c => is_sep c = false)) (split_on is_sep s).
Proof.
  induction s as [|c s IH]; cbn.
  - repeat constructor.
  - destruct (is_sep c) eqn:Ec.
    + constructor; [ constructor | assumption ].
    + destruct (split_on is_sep s) as [|w ws]; [ repeat constructor; assumption | ].
      inversion IH; subst. constructor; [ | assumption ].
      now constructor.
Qed.

End Splitting.

Section WhitespaceSplitting.

Variable A : Type.
Variable is_space : A -> bool.

Lemma split_ws_aux_pieces (s cur : list A) :
  Forall (fun c => is_space c = false) cur ->
  Forall (fun w => w <> [] /\ Forall (fun c => is_space c = false) w)
         (split_ws_aux is_space cur s).
Proof.
  revert cur. induction s as [|c s IH]; intros cur Hcur; cbn.
  - destruct cur as [|x cur]; constructor; [ | constructor ].
    split.
    + intros E. apply (f_equal (@List.length A)) in E.
      rewrite length_rev in E. discriminate.
    + now apply Forall_rev.
  - destruct (is_space c) eqn:Ec.
    + destruct cur as [|x cur]; [ apply IH; constructor | ].
      constructor; [ | apply IH; constructor ].
      split.
      * intros E. apply (f_equal (@List.length A)) in E.
        rewrite length_rev in E. discriminate.
      * now apply Forall_rev.
    + apply IH. now constructor.
Qed.

(** The words of [split()] are not empty and hold no whitespace. *)
Lemma split_ws_pieces (s : list A) :
  Forall (fun w => w <> [] /\ Forall (fun c => is_space c = false) w)
         (split_ws is_space s).
Proof. apply split_ws_aux_pieces. constructor. Qed.

End WhitespaceSplitting.

Section StringSplitting.

Import Ngrams.

Lemma string_of_list_ascii_app (a b : list ascii) :
  string_of_list_ascii (a ++ b)
  = (string_of_list_ascii a ++ string_of_list_ascii b)%string.
Proof. induction a as [|c a IH]; cbn; [ reflexivity | now rewrite IH ]. Qed.

Lemma string_of_join (sep : list ascii) (ps : list (list ascii)) :
  string_of_list_ascii (join sep ps)
  = String.concat (string_of_list_ascii sep) (map string_of_list_ascii ps).
Proof.
  induction ps as [|p ps IH]; [ reflexivity | ].
  destruct ps as [|q ps]; [ reflexivity | ].
  change (join sep (p :: q :: ps)) with (p ++ sep ++ join sep (q :: ps)).
  rewrite !string_of_list_ascii_app, IH. reflexivity.
Qed.

(** [c.join(s.split(c)) == s] *)
Lemma str_split_join (c : ascii) (s : string) :
  String.concat (String c EmptyString) (str_split c s) = s.
Proof.
  unfold str_split.
  change (String c EmptyString) with (string_of_list_ascii [c]).
  rewrite <- string_of_join, split_on_join.
  - apply string_of_list_ascii_of_string.
  - intros x Hx. symmetry. now apply Ascii.eqb_eq.
Qed.

(** No piece of [s.split(c)] holds a [c]. *)
Lemma str_split_pieces (c : ascii) (s piece : string) :
  In piece (str_split c s) -> ~ In c (list_ascii_of_string piece).
Proof.
  unfold str_split. rewrite in_map_iff. intros (w & <- & Hw) Hc.
  rewrite list_ascii_of_string_of_list_ascii in Hc.
  pose proof (split_on_pieces _ (Ascii.eqb c) (list_ascii_of_string s)) as H.
  rewrite Forall_forall in H. specialize (H _ Hw).
  rewrite Forall_forall in H. specialize (H _ Hc).
  now rewrite Ascii.eqb_refl in H.
Qed.

Lemma str_split_len (c : ascii) (s : string) : 1 <= len (str_split c s).
Proof. unfold str_split. rewrite len_map. apply split_on_len. Qed.

End StringSplitting.

(* ================================================================== *)
(** * Loops that build a table *)
(* ================================================================== *)

Section DictFor.

Import Ngrams.

Variables V W : Type.
Variable f : ngram -> V -> result W.

Lemma dict_set_fresh (k : ngram) (w : W) (out : dict W) :
  ~ In k (keys out) -> dict_set k w out = out ++ [(k, w)].
Proof.
  induction out as [|[k' w'] out IH]; cbn; [ reflexivity | ].
  intros Hk. destruct (ngram_eqb_spec k k') as [->|Hne]; [ tauto | ].
  now rewrite IH by tauto.
Qed.

Lemma dict_for_fold (d : dict V) (out0 : dict W) :
  NoDup (keys out0 ++ keys d) ->
  (forall k v, In (k, v) d -> exists w, f k v = Ok w) ->
  exists out,
    fold_left
      (fun acc kv =>
         bind acc (fun out =>
         bind (f (fst kv) (snd kv)) (fun w =>
         Ok (dict_set (fst kv) w out))))
      d (Ok out0) = Ok (out0 ++ out)
    /\ Forall2 (built_from f) d out.
Proof.
  revert out0. induction d as [|[k v] d IH]; intros out0 Hnd Hf.
  - exists []. rewrite app_nil_r. split; [ reflexivity | constructor ].
  - destruct (Hf k v (or_introl eq_refl)) as [w Hw].
    cbn [fold_left bind fst snd]. rewrite Hw. cbn [bind].
    assert (Hfresh : ~ In k (keys out0)).
    { cbn in Hnd. apply NoDup_remove_2 in Hnd. intros Hin. apply Hnd.
      apply in_or_app. now left. }
    rewrite dict_set_fresh by assumption.
    destruct (IH (out0 ++ [(k, w)])) as (out & Hout & Hall).
    + unfold keys in *. rewrite map_app, <- app_assoc. exact Hnd.
    + intros k' v' Hin. apply Hf. now right.
    + exists ((k, w) :: out). rewrite Hout, <- app_assoc. split.
      * reflexivity.
      * constructor; [ now split | assumption ].
Qed.

(** Over a table (distinct keys) on whose entries [f] raises nothing, the
    loop returns a table with the same keys in the same order, each with
    the value [f] computes for it. *)
Lemma dict_for_ok (d : dict V) :
  NoDup (keys d) ->
  (forall k v, In (k, v) d -> exists w, f k v = Ok w) ->
  exists out, dict_for f d = Ok out /\ Forall2 (built_from f) d out.
Proof.
  intros Hnd Hf. destruct (dict_for_fold d [] Hnd Hf) as (out & H1 & H2).
  exists out. now split.
Qed.

Lemma built_from_keys (d : dict V) (out : dict W) :
  Forall2 (built_from f) d out -> keys out = keys d.
Proof.
  unfold keys. induction 1 as [|kv kw d out [Hk _] _ IH]; cbn;
    [ reflexivity | ].
  now rewrite Hk, IH.
Qed.

Lemma built_from_lookup (d : dict V) (out : dict W) (k : ngram) (v : V) :
  Forall2 (built_from f) d out ->
  lookup k d = Some v ->
  exists w, f k v = Ok w /\ lookup k out = Some w.
Proof.
  induction 1 as [|[k1 v1] [k2 w2] d out [Hk Hw] _ IH]; cbn;
    [ discriminate | ].
  cbn in Hk, Hw. subst k2.
  destruct (ngram_eqb_spec k k1) as [->|Hne].
  - intros [= ->]. now exists w2.
  - exact IH.
Qed.

End DictFor.

(* ================================================================== *)
(** * The sentence filter *)
(* ================================================================== *)

Section SentenceFilter.

Import Ngrams.

Lemma scan_lines_fold (cutoff : Z) (ls : list string) (acc : tuples) :
  let kept :=
    filter (fun toks => len toks >? cutoff) (map (str_split space) ls) in
  fold_left (scan_line cutoff) ls acc
  = mkTuples
      (unigrams acc ++ flat_map (fun t => get_ngrams_from_line t 1) kept)
      (bigrams acc ++ flat_map (fun t => get_ngrams_from_line t 2) kept)
      (trigrams acc ++ flat_map (fun t => get_ngrams_from_line t 3) kept).
Proof.
  revert acc. induction ls as [|l ls IH]; intros acc; cbn zeta.
  - cbn. rewrite !app_nil_r. now destruct acc.
  - cbn [fold_left map filter]. rewrite IH. unfold scan_line.
    destruct (len (str_split space l) >? cutoff); cbn zeta.
    + cbn [flat_map unigrams bigrams trigrams]. now rewrite !app_assoc.
    + reflexivity.
Qed.

Lemma get_ngram_tuples_flat (lines : string) (cutoff : Z) :
  get_ngram_tuples lines cutoff
  = mkTuples
      (flat_map (fun t => get_ngrams_from_line t 1)
                (kept_sentences lines cutoff))
      (flat_map (fun t => get_ngrams_from_line t 2)
                (kept_sentences lines cutoff))
      (flat_map (fun t => get_ngrams_from_line t 3)
                (kept_sentences lines cutoff)).
Proof. unfold get_ngram_tuples. now rewrite scan_lines_fold. Qed.

Lemma In_range (k i : Z) :
  In i (range k) -> exists m : nat, i = Z.of_nat m /\ Z.of_nat m < k.
Proof.
  unfold range. rewrite in_map_iff. intros (m & <- & Hm).
  apply in_seq in Hm. exists m. split; [ reflexivity | lia ].
Qed.

(** Every tuple of order [n >= 2] is [n] tokens that follow one another
    in the sentence. *)
Lemma In_get_ngrams (toks : list token) (n : Z) (g : ngram) :
  2 <= n ->
  In g (get_ngrams_from_line toks n) ->
  exists m : nat,
    Z.of_nat m <= len toks - n /\ g = firstn (Z.to_nat n) (skipn m toks).
Proof.
  intros Hn. rewrite get_ngrams_general by lia.
  rewrite in_map_iff. intros (i & <- & Hi).
  apply In_range in Hi. destruct Hi as (m & -> & Hm).
  exists m. split; [ lia | ].
  rewrite slice_inside by lia.
  now replace (Z.of_nat m + n - Z.of_nat m) with n by lia;
    rewrite Nat2Z.id.
Qed.

(** The context of an observed bigram is an observed unigram. *)
Lemma bigram_context (toks : list token) (g : ngram) :
  In g (get_ngrams_from_line toks 2) ->
  exists a b, g = [a; b] /\ In [a] (get_ngrams_from_line toks 1).
Proof.
  intros Hg. apply In_get_ngrams in Hg; [ | lia ].
  destruct Hg as (m & Hm & ->).
  pose proof (firstn_skipn m toks) as Hcut.
  assert (Hlen : (2 <= List.length (skipn m toks))%nat)
    by (rewrite length_skipn; unfold len in Hm; lia).
  destruct (skipn m toks) as [|a [|b r]]; cbn in Hlen; try lia.
  exists a, b. split; [ reflexivity | ].
  rewrite get_ngrams_unigram. apply (in_map (fun tok => [tok])).
  rewrite <- Hcut. apply in_or_app. right. now left.
Qed.

(** The context of an observed trigram is an observed bigram. *)
Lemma trigram_context (toks : list token) (g : ngram) :
  In g (get_ngrams_from_line toks 3) ->
  exists a b c, g = [a; b; c] /\ In [a; b] (get_ngrams_from_line toks 2).
Proof.
  intros Hg. apply In_get_ngrams in Hg; [ | lia ].
  destruct Hg as (m & Hm & ->).
  assert (Hbi : nth_error (get_ngrams_from_line toks 2) m
                = Some (firstn (Z.to_nat 2) (skipn m toks)))
    by (apply get_ngrams_nth; lia).
  apply nth_error_In in Hbi.
  assert (Hlen : (3 <= List.length (skipn m toks))%nat)
    by (rewrite length_skipn; unfold len in Hm; lia).
  destruct (skipn m toks) as [|a [|b [|c r]]]; cbn in Hlen; try lia.
  exists a, b, c. split; [ reflexivity | exact Hbi ].
Qed.

Lemma observed_bigram_context (lines : string) (cutoff : Z) (g : ngram) :
  In g (bigrams (get_ngram_tuples lines cutoff)) ->
  exists a b,
    g = [a; b] /\ In [a] (unigrams (get_ngram_tuples lines cutoff)).
Proof.
  rewrite get_ngram_tuples_flat. cbn [bigrams unigrams].
  rewrite in_flat_map. intros (toks & Htoks & Hg).
  destruct (bigram_context toks g Hg) as (a & b & -> & Ha).
  exists a, b. split; [ reflexivity | ].
  apply in_flat_map. now exists toks.
Qed.

Lemma observed_trigram_context (lines : string) (cutoff : Z) (g : ngram) :
  In g (trigrams (get_ngram_tuples lines cutoff)) ->
  exists a b c,
    g = [a; b; c] /\ In [a; b] (bigrams (get_ngram_tuples lines cutoff)).
Proof.
  rewrite get_ngram_tuples_flat. cbn [trigrams bigrams].
  rewrite in_flat_map. intros (toks & Htoks & Hg).
  destruct (trigram_context toks g Hg) as (a & b & c & -> & Ha).
  exists a, b, c. split; [ reflexivity | ].
  apply in_flat_map. now exists toks.
Qed.

End SentenceFilter.

(* ================================================================== *)
(** * The probability estimator *)
(* ================================================================== *)

Section Estimator.

Import Ngrams.

Lemma true_div_ok (a b : Z) :
  b <> 0 -> true_div a b = Ok (inject_Z a / inject_Z b)%Q.
Proof.
  intros Hb. unfold true_div. now destruct (Z.eqb_spec b 0).
Qed.

Lemma inject_Z_nonzero (z : Z) : z <> 0 -> ~ (inject_Z z == 0)%Q.
Proof. intros Hz H. apply Hz. unfold Qeq in H. cbn in H. lia. Qed.

Lemma quotient_positive (a b : Z) :
  0 < a -> 0 < b -> (0 < inject_Z a / inject_Z b)%Q.
Proof.
  intros Ha Hb. apply Qlt_shift_div_l.
  - unfold Qlt. cbn. lia.
  - rewrite Qmult_0_l. unfold Qlt. cbn. lia.
Qed.

Lemma Q2R_quotient (a b : Z) :
  b <> 0 -> Q2R (inject_Z a / inject_Z b) = (IZR a / IZR b)%R.
Proof.
  intros Hb. rewrite Q2R_div by now apply inject_Z_nonzero.
  unfold Q2R. cbn. now rewrite !Rinv_1, !Rmult_1_r.
Qed.

(** The logarithm of a quotient of two counts is a finite number. *)
Lemma np_log_quotient (a b : Z) :
  0 < a -> 0 < b ->
  np_log (inject_Z a / inject_Z b) = Finite (ln (IZR a / IZR b)).
Proof.
  intros Ha Hb. unfold np_log.
  pose proof (quotient_positive a b Ha Hb) as Hpos.
  apply Qgt_alt in Hpos. rewrite Hpos.
  now rewrite Q2R_quotient by lia.
Qed.

Lemma fold_left_add (l : list Z) (a : Z) :
  fold_left Z.add l a = a + fold_right Z.add 0 l.
Proof.
  revert a. induction l as [|x l IH]; intros a; cbn; [ lia | ].
  rewrite IH. lia.
Qed.

Lemma sum_values_cons (k : ngram) (c : Z) (d : dict Z) :
  sum_values ((k, c) :: d) = c + sum_values d.
Proof.
  unfold sum_values, values. cbn [map snd fold_left].
  rewrite !fold_left_add. cbn. lia.
Qed.

(** A table of positive counts has a positive total unless it is empty. *)
Lemma sum_values_positive (d : dict Z) :
  (forall k c, In (k, c) d -> 0 < c) ->
  d <> [] -> 0 < sum_values d.
Proof.
  intros Hpos Hne. destruct d as [|[k c] d]; [ contradiction | ].
  clear Hne. rewrite sum_values_cons.
  assert (Hc : 0 < c) by (apply (Hpos k); now left).
  assert (Hd : 0 <= sum_values d).
  { assert (H : forall k c, In (k, c) d -> 0 < c)
      by (intros k' c' Hin; apply (Hpos k'); now right).
    clear Hpos Hc. induction d as [|[k' c'] d IH].
    - cbn. lia.
    - rewrite sum_values_cons.
      assert (0 < c') by (apply (H k'); now left).
      assert (0 <= sum_values d)
        by (apply IH; intros k2 c2 Hin; apply (H k2); now right).
      lia. }
  lia.
Qed.

Lemma Qsum_quotients (l : list Z) (q : Q) :
  (Qsum (map (fun value => inject_Z value / q) l)
   == inject_Z (fold_right Z.add 0%Z l) / q)%Q.
Proof.
  induction l as [|x l IH]; cbn [map Qsum fold_right].
  - unfold Qdiv. now rewrite Qmult_0_l.
  - rewrite IH, inject_Z_plus. unfold Qdiv. ring.
Qed.

(** The values under the logarithm add up to one. *)
Lemma unigram_mle_sum (d : dict Z) :
  sum_values d <> 0 -> (Qsum (unigram_mle d) == 1)%Q.
Proof.
  intros HN. unfold unigram_mle. rewrite Qsum_quotients.
  unfold sum_values in *. rewrite fold_left_add in HN.
  rewrite fold_left_add.
  apply Qmult_inv_r. now apply inject_Z_nonzero.
Qed.

(** Over a count table that is not empty, the loop of [main] stores the
    logarithm of [count / N] for every key, in the order of the table. *)
Lemma uni_prob_dict_ok (d : dict Z) :
  NoDup (keys d) ->
  (forall k c, In (k, c) d -> 0 < c) ->
  exists probs,
    uni_prob_dict d = Ok probs
    /\ keys probs = keys d
    /\ forall k c,
         lookup k d = Some c ->
         lookup k probs
         = Some (Finite (ln (IZR c / IZR (sum_values d)))).
Proof.
  intros Hnd Hpos. unfold uni_prob_dict. cbn zeta.
  set (f := fun (_ : ngram) value =>
              bind (true_div value (sum_values d))
                   (fun p => Ok (np_log p))).
  assert (HN : forall k c, In (k, c) d -> 0 < sum_values d).
  { intros k c Hin. apply sum_values_positive; [ assumption | ].
    intros ->. destruct Hin. }
  destruct (dict_for_ok _ _ f d Hnd) as (probs & Hrun & Hall).
  - intros k c Hin. unfold f. specialize (HN k c Hin).
    rewrite true_div_ok by lia. eexists. reflexivity.
  - exists probs. split; [ exact Hrun | ].
    split; [ now apply (built_from_keys _ _ f) | ].
    intros k c Hk.
    destruct (built_from_lookup _ _ f d probs k c Hall Hk) as (w & Hw & ->).
    apply lookup_In in Hk. specialize (HN k c Hk).
    unfold f in Hw. rewrite true_div_ok in Hw by lia. cbn in Hw.
    injection Hw as <-. f_equal.
    apply np_log_quotient; [ now apply (Hpos k) | assumption ].
Qed.

(** An empty count table: the loop body never runs, nothing is divided. *)
Lemma uni_prob_dict_nil : uni_prob_dict [] = Ok [].
Proof. reflexivity. Qed.

(** Where every context is in the lower-order table with a count that is
    not zero, each estimate is the count over the count of the context. *)
Lemma get_MLE_dict_ok (lower cd : dict Z) (n : Z) :
  NoDup (keys cd) ->
  (forall k c,
      In (k, c) cd ->
      exists den,
        lookup (slice k None (Some (n - 1))) lower = Some den /\ den <> 0) ->
  exists mle,
    get_MLE_dict lower cd n = Ok mle
    /\ keys mle = keys cd
    /\ forall k c,
         lookup k cd = Some c ->
         exists den,
           lookup (slice k None (Some (n - 1))) lower = Some den
           /\ den <> 0
           /\ lookup k mle = Some (inject_Z c / inject_Z den)%Q.
Proof.
  intros Hnd Hctx. unfold get_MLE_dict.
  set (f := fun key value =>
              let context := slice key None (Some (n - 1)) in
              match lookup context lower with
              | Some denominator => true_div value denominator
              | None => Error KeyError
              end).
  destruct (dict_for_ok _ _ f cd Hnd) as (mle & Hrun & Hall).
  - intros k c Hin. destruct (Hctx k c Hin) as (den & Hden & Hnz).
    unfold f. cbn zeta. rewrite Hden, true_div_ok by assumption.
    eexists. reflexivity.
  - exists mle. split; [ exact Hrun | ].
    split; [ now apply (built_from_keys _ _ f) | ].
    intros k c Hk.
    destruct (built_from_lookup _ _ f cd mle k c Hall Hk) as (w & Hw & ->).
    destruct (Hctx k c (lookup_In _ _ _ _ Hk)) as (den & Hden & Hnz).
    exists den. split; [ assumption | ]. split; [ assumption | ].
    unfold f in Hw. cbn zeta in Hw.
    rewrite Hden, true_div_ok in Hw by assumption. now injection Hw as <-.
Qed.

End Estimator.

(* ================================================================== *)
(** * [main] *)
(* ================================================================== *)

Section Main.

Import Ngrams.

Lemma count_table_entry (l : list ngram) (k : ngram) (c : Z) :
  In (k, c) (get_count_dict l) -> 0 < c /\ In k l.
Proof.
  intros Hin.
  apply In_lookup in Hin; [ | apply get_count_dict_NoDup ].
  split.
  - now apply (get_count_dict_positive l k).
  - now apply get_count_dict_lookup in Hin.
Qed.

Lemma observed_has_count (l : list ngram) (k : ngram) :
  In k l -> exists c, lookup k (get_count_dict l) = Some c /\ c <> 0.
Proof.
  intros Hin. destruct (lookup k (get_count_dict l)) as [c|] eqn:E.
  - exists c. split; [ reflexivity | ].
    apply get_count_dict_positive in E. lia.
  - apply lookup_None in E. exfalso. apply E.
    assert (H : exists c, lookup k (get_count_dict l) = Some c).
    { exists (occurrences k l). apply get_count_dict_lookup. now split. }
    destruct H as (c & Hc). apply lookup_In in Hc.
    change k with (fst (k, c)). now apply in_map.
Qed.

(** The context of every counted bigram is a counted unigram. *)
Lemma bigram_contexts_counted (text : string) (cutoff : Z) (k : ngram)
      (c : Z) :
  In (k, c) (get_count_dict (bigrams (get_ngram_tuples text cutoff))) ->
  exists den,
    lookup (slice k None (Some (2 - 1)))
           (get_count_dict (unigrams (get_ngram_tuples text cutoff)))
    = Some den
    /\ den <> 0.
Proof.
  intros Hin. apply count_table_entry in Hin. destruct Hin as [_ Hin].
  apply observed_bigram_context in Hin.
  destruct Hin as (a & b & -> & Ha).
  change (slice [a; b] None (Some (2 - 1))) with [a].
  now apply observed_has_count.
Qed.

(** The context of every counted trigram is a counted bigram. *)
Lemma trigram_contexts_counted (text : string) (cutoff : Z) (k : ngram)
      (c : Z) :
  In (k, c) (get_count_dict (trigrams (get_ngram_tuples text cutoff))) ->
  exists den,
    lookup (slice k None (Some (3 - 1)))
           (get_count_dict (bigrams (get_ngram_tuples text cutoff)))
    = Some den
    /\ den <> 0.
Proof.
  intros Hin. apply count_table_entry in Hin. destruct Hin as [_ Hin].
  apply observed_trigram_context in Hin.
  destruct Hin as (a & b & w & -> & Ha).
  change (slice [a; b; w] None (Some (3 - 1))) with [a; b].
  now apply observed_has_count.
Qed.

(** On every text [main] gets as far as the six tables, with the cutoff
    [4], and each table is what the stage before it leads to. *)
Lemma main_tables (text : string) :
  exists t,
    main (Some text) = Ok t
    /\ uniCountDict t = get_count_dict (unigrams (get_ngram_tuples text 4))
    /\ biCountDict t = get_count_dict (bigrams (get_ngram_tuples text 4))
    /\ triCountDict t = get_count_dict (trigrams (get_ngram_tuples text 4))
    /\ uni_prob_dict (uniCountDict t) = Ok (uniProbDict t)
    /\ get_MLE_dict (uniCountDict t) (biCountDict t) 2 = Ok (biMLEdict t)
    /\ get_MLE_dict (biCountDict t) (triCountDict t) 3 = Ok (triMLEdict t).
Proof.
  unfold main, read_corpus. cbn [bind]. cbn zeta.
  set (tup := get_ngram_tuples text 4).
  destruct (uni_prob_dict_ok (get_count_dict (unigrams tup)))
    as (probs & Hprobs & _).
  { apply get_count_dict_NoDup. }
  { intros k c Hin. now apply count_table_entry in Hin. }
  destruct (get_MLE_dict_ok (get_count_dict (unigrams tup))
                            (get_count_dict (bigrams tup)) 2)
    as (bi & Hbi & _).
  { apply get_count_dict_NoDup. }
  { apply bigram_contexts_counted. }
  destruct (get_MLE_dict_ok (get_count_dict (bigrams tup))
                            (get_count_dict (trigrams tup)) 3)
    as (tri & Htri & _).
  { apply get_count_dict_NoDup. }
  { apply trigram_contexts_counted. }
  rewrite Hprobs, Hbi, Htri. cbn [bind].
  eexists. split; [ reflexivity | ]. cbn. repeat split; assumption.
Qed.

(** C1. On every corpus, for every bigram [(a, b)] with a count that is
    not zero in the bigram table, the count of [(a)] in the unigram table
    is not zero and the estimate stored for [(a, b)] is exactly
    [count(a, b) / count(a)]; likewise for every trigram [(a, b, w)], with
    [count(a, b, w) / count(a, b)] over the bigram table. *)
Theorem mle_is_count_ratio (text : string) :
  exists t,
    main (Some text) = Ok t
    /\ (forall a b c,
          lookup [a; b] (biCountDict t) = Some c -> c <> 0 ->
          exists den,
            lookup [a] (uniCountDict t) = Some den
            /\ den <> 0
            /\ lookup [a; b] (biMLEdict t)
               = Some (inject_Z c / inject_Z den)%Q)
    /\ (forall a b w c,
          lookup [a; b; w] (triCountDict t) = Some c -> c <> 0 ->
          exists den,
            lookup [a; b] (biCountDict t) = Some den
            /\ den <> 0
            /\ lookup [a; b; w] (triMLEdict t)
               = Some (inject_Z c / inject_Z den)%Q).
Proof.
  destruct (main_tables text)
    as (t & Hmain & Hu & Hb & Ht & _ & Hbi & Htri).
  exists t. split; [ exact Hmain | ].
  rewrite Hu, Hb in Hbi. rewrite Hb, Ht in Htri. rewrite Hu, Hb, Ht.
  split.
  - intros a b c Hc _.
    destruct (get_MLE_dict_ok _ _ 2 (get_count_dict_NoDup _)
                (bigram_contexts_counted text 4))
      as (mle & Hmle & _ & Hlook).
    rewrite Hbi in Hmle. injection Hmle as <-.
    exact (Hlook [a; b] c Hc).
  - intros a b w c Hc _.
    destruct (get_MLE_dict_ok _ _ 3 (get_count_dict_NoDup _)
                (trigram_contexts_counted text 4))
      as (mle & Hmle & _ & Hlook).
    rewrite Htri in Hmle. injection Hmle as <-.
    exact (Hlook [a; b; w] c Hc).
Qed.

(** The corpus ["a b a b c"] of the spec: the estimate of [b] after [a]
    is [2/2]. *)
Lemma mle_is_count_ratio_witness :
  exists t,
    main (Some "a b a b c"%string) = Ok t
    /\ lookup ["a"; "b"]%string (biCountDict t) = Some 2
    /\ lookup ["a"]%string (uniCountDict t) = Some 2
    /\ lookup ["a"; "b"]%string (biMLEdict t)
       = Some (inject_Z 2 / inject_Z 2)%Q.
Proof.
  destruct (mle_is_count_ratio "a b a b c"%string) as (t & Hmain & Hbi & _).
  destruct (main_tables "a b a b c"%string)
    as (t' & Hmain' & Hu & Hb & _).
  rewrite Hmain in Hmain'. injection Hmain' as <-.
  assert (Hc : lookup ["a"; "b"]%string (biCountDict t) = Some 2)
    by (rewrite Hb; vm_compute; reflexivity).
  assert (Hd : lookup ["a"]%string (uniCountDict t) = Some 2)
    by (rewrite Hu; vm_compute; reflexivity).
  exists t. split; [ exact Hmain | ]. split; [ exact Hc | ].
  split; [ exact Hd | ].
  destruct (Hbi _ _ _ Hc ltac:(lia)) as (den & Hden & _ & Hmle).
  assert (E : Some den = Some 2)
    by (transitivity (lookup ["a"]%string (uniCountDict t));
        [ symmetry; exact Hden | exact Hd ]).
  injection E as ->. exact Hmle.
Defined.

End Main.

Section Corpus.

Import Ngrams.


(** [main] on a corpus with at least one kept line: the unigram table it
    builds is a count table, so each word gets the logarithm of its share
    and the shares add up to one. *)
Lemma main_unigram_probabilities (text : string) :
  exists t,
    main (Some text) = Ok t
    /\ (0 < sum_values (uniCountDict t) ->
        (forall w c,
            lookup w (uniCountDict t) = Some c ->
            lookup w (uniProbDict t)
            = Some (Finite (ln (IZR c / IZR (sum_values (uniCountDict t))))))
        /\ (Qsum (unigram_mle (uniCountDict t)) == 1)%Q).
Proof.
  destruct (main_tables text) as (t & Hmain & Hu & _ & _ & Hprobs & _).
  exists t. split; [ exact Hmain | ]. intros HN.
  destruct (uni_prob_dict_ok (uniCountDict t))
    as (probs & Hrun & _ & Hlook).
  { rewrite Hu. apply get_count_dict_NoDup. }
  { rewrite Hu. intros k c Hin. now apply count_table_entry in Hin. }
  rewrite Hprobs in Hrun. injection Hrun as <-.
  split; [ exact Hlook | ]. apply unigram_mle_sum. lia.
Qed.


(** C6 (as the code has it). The text is cut at every newline and each
    line at every single space: joining the pieces with the separator
    gives the text back and no piece holds the separator, so two spaces in
    a row leave an empty token between them and a tab cuts nothing.  The
    n-grams returned are those of the lines whose number of tokens is
    greater than the cutoff, line after line; a line with more tokens adds
    at least its unigrams, any other line adds nothing of any order.
    [main] passes the cutoff [4]. *)
Theorem get_ngram_tuples_filter (lines : string) (cutoff : Z) :
  String.concat (String newline EmptyString) (str_split newline lines)
  = lines
  /\ (forall line,
        In line (str_split newline lines) ->
        ~ In newline (list_ascii_of_string line))
  /\ (forall line,
        String.concat (String space EmptyString) (str_split space line)
        = line
        /\ forall tok,
             In tok (str_split space line) ->
             ~ In space (list_ascii_of_string tok))
  /\ kept_sentences lines cutoff
     = filter (fun toks => len toks >? cutoff)
              (map (str_split space) (str_split newline lines))
  /\ get_ngram_tuples lines cutoff
     = mkTuples
         (flat_map (fun t => get_ngrams_from_line t 1)
                   (kept_sentences lines cutoff))
         (flat_map (fun t => get_ngrams_from_line t 2)
                   (kept_sentences lines cutoff))
         (flat_map (fun t => get_ngrams_from_line t 3)
                   (kept_sentences lines cutoff))
  /\ (forall acc line,
        (len (str_split space line) > cutoff ->
         unigrams (scan_line cutoff acc line) <> unigrams acc)
        /\ (len (str_split space line) <= cutoff ->
            scan_line cutoff acc line = acc))
  /\ exists t,
       main (Some lines) = Ok t
       /\ uniCountDict t
          = get_count_dict (unigrams (get_ngram_tuples lines 4))
       /\ biCountDict t
          = get_count_dict (bigrams (get_ngram_tuples lines 4))
       /\ triCountDict t
          = get_count_dict (trigrams (get_ngram_tuples lines 4)).
Proof.
  split; [ apply str_split_join | ].
  split; [ intros line; apply str_split_pieces | ].
  split.
  { intros line. split; [ apply str_split_join | ].
    intros tok. apply str_split_pieces. }
  split; [ reflexivity | ].
  split; [ apply get_ngram_tuples_flat | ].
  split.
  - intros acc line. unfold scan_line. split.
    + intros Hlen.
      destruct (Z.gtb_spec (len (str_split space line)) cutoff); [ | lia ].
      cbn [unigrams]. rewrite get_ngrams_unigram. intros E.
      apply (f_equal (@List.length ngram)) in E.
      rewrite length_app, length_map in E.
      pose proof (str_split_len space line) as H1. unfold len in H1.
      destruct (str_split space line); cbn in E, H1; lia.
    + intros Hlen.
      destruct (Z.gtb_spec (len (str_split space line)) cutoff);
        [ lia | reflexivity ].
  - destruct (main_tables lines) as (t & Hmain & Hu & Hb & Ht & _).
    exists t. now repeat split.
Qed.

(** A line with two spaces in a row: three words for a whitespace
    tokeniser, which is not more than the cutoff [4], yet the line is kept,
    with five tokens, two of them empty. *)
Lemma space_split_keeps_empty_tokens :
  whitespace_tokens "a  b  c" = ["a"; "b"; "c"]%string
  /\ ~ (len (whitespace_tokens "a  b  c") > 4)
  /\ unigrams (get_ngram_tuples "a  b  c" 4)
     = [["a"]; [EmptyString]; ["b"]; [EmptyString]; ["c"]]%string.
Proof.
  split; [ reflexivity | ]. split; [ vm_compute; discriminate | ].
  reflexivity.
Qed.

End Corpus.

(* ================================================================== *)
(** * Backoff weights *)
(* ================================================================== *)

Section BackoffFacts.

Import Ngrams Backoff.

Lemma brants_weight_clamped (tol observed low : Q) :
  (Qabs (1 - low) <= tol)%Q -> brants_weight tol observed low = Ok 0%Q.
Proof.
  intros H. unfold brants_weight. cbn zeta.
  apply Qle_bool_iff in H. now rewrite H.
Qed.

Lemma brants_weight_no_zero_division (tol observed low : Q) :
  (0 <= tol)%Q ->
  exists w, brants_weight tol observed low = Ok w.
Proof.
  intros Htol. unfold brants_weight. cbn zeta.
  destruct (Qle_bool (Qabs (1 - low)) tol) eqn:Eclamp.
  - now exists 0%Q.
  - unfold float_div. destruct (Qeq_bool (1 - low) 0) eqn:Ez.
    + exfalso. apply Qeq_bool_iff in Ez.
      assert (H : (Qabs (1 - low) <= tol)%Q)
        by (rewrite Ez; exact Htol).
      apply Qle_bool_iff in H. congruence.
    + eexists. reflexivity.
Qed.

(** C3. With a tolerance that is not negative, for every context that has
    continuations and whose normalizer [1 - (sum of the lower-order
    probabilities of its continuations)] is within the tolerance of zero,
    the backoff weight is exactly zero; and on no input at all does the
    weight formula raise a division by zero. *)
Theorem degenerate_backoff_is_zero (tol : Q) (higher lower : dict Q)
        (ctx : ngram) (low : Q) :
  (0 <= tol)%Q ->
  continuations ctx higher <> [] ->
  lower_mass ctx higher lower = Ok low ->
  (Qabs (1 - low) <= tol)%Q ->
  backoff_weight tol higher lower ctx = Ok (Some 0%Q)
  /\ forall observed low',
       brants_weight tol observed low' <> Error ZeroDivisionError.
Proof.
  intros Htol Hcont Hlow Hdeg. split.
  - unfold backoff_weight.
    destruct (continuations ctx higher) as [|e r] eqn:E; [ contradiction | ].
    rewrite Hlow. cbn [bind].
    now rewrite brants_weight_clamped by assumption.
  - intros observed low'.
    destruct (brants_weight_no_zero_division tol observed low' Htol)
      as (w & ->).
    discriminate.
Qed.

(** The scenario of the spec: one continuation that takes all of the
    lower-order probability; exact comparison with zero. *)
Lemma degenerate_backoff_is_zero_witness :
  (0 <= 0)%Q
  /\ continuations ["a"]%string Scenario.aaaaa_bigram_probs <> []
  /\ lower_mass ["a"]%string Scenario.aaaaa_bigram_probs
                Scenario.aaaaa_unigram_probs
     = Ok (0 + 1)%Q
  /\ (Qabs (1 - (0 + 1)) <= 0)%Q
  /\ backoff_weight 0 Scenario.aaaaa_bigram_probs
                    Scenario.aaaaa_unigram_probs ["a"]%string
     = Ok (Some 0%Q).
Proof.
  assert (H1 : (0 <= 0)%Q) by apply Qle_refl.
  assert (H2 : continuations ["a"]%string Scenario.aaaaa_bigram_probs <> [])
    by discriminate.
  assert (H3 : lower_mass ["a"]%string Scenario.aaaaa_bigram_probs
                          Scenario.aaaaa_unigram_probs
               = Ok (0 + 1)%Q)
    by reflexivity.
  assert (H4 : (Qabs (1 - (0 + 1)) <= 0)%Q)
    by (apply Qle_bool_iff; reflexivity).
  split; [ exact H1 | ]. split; [ exact H2 | ].
  split; [ exact H3 | ]. split; [ exact H4 | ].
  exact (proj1 (degenerate_backoff_is_zero
                  0 Scenario.aaaaa_bigram_probs Scenario.aaaaa_unigram_probs
                  ["a"]%string (0 + 1)%Q H1 H2 H3 H4)).
Defined.

End BackoffFacts.

(* ================================================================== *)
(** * Sorting the entries of a section *)
(* ================================================================== *)

Section SortFacts.

Import Arpa.

Variables K V : Type.
Variable lt : V -> V -> bool.

Lemma insert_desc_perm (x : K * V) (l : list (K * V)) :
  Permutation (insert_desc lt x l) (x :: l).
Proof.
  induction l as [|y l IH]; cbn; [ reflexivity | ].
  destruct (lt (snd x) (snd y)); [ | reflexivity ].
  rewrite IH. apply perm_swap.
Qed.

Lemma sorted_desc_perm (l : list (K * V)) : Permutation (sorted_desc lt l) l.
Proof.
  induction l as [|x l IH]; cbn; [ reflexivity | ].
  rewrite insert_desc_perm. now constructor.
Qed.

Hypothesis lt_order : strict_weak_order lt.

Lemma insert_desc_sorted (x : K * V) (l : list (K * V)) :
  StronglySorted (fun x y => lt (snd x) (snd y) = false) l ->
  StronglySorted (fun x y => lt (snd x) (snd y) = false)
                 (insert_desc lt x l).
Proof.
  destruct lt_order as [Hasym Hneg].
  induction 1 as [|y l Hl IH Hy]; cbn.
  - repeat constructor.
  - destruct (lt (snd x) (snd y)) eqn:E.
    + constructor; [ exact IH | ].
      apply (Permutation_Forall (Permutation_sym (insert_desc_perm x l))).
      constructor; [ | exact Hy ]. now apply Hasym.
    + constructor; [ now constructor | ].
      constructor; [ exact E | ].
      rewrite Forall_forall in Hy |- *. intros z Hz.
      exact (Hneg _ _ _ E (Hy z Hz)).
Qed.

Lemma sorted_desc_sorted (l : list (K * V)) :
  StronglySorted (fun x y => lt (snd x) (snd y) = false) (sorted_desc lt l).
Proof.
  induction l as [|x l IH]; cbn; [ constructor | ].
  now apply insert_desc_sorted.
Qed.

Lemma insert_desc_tied (v : V) (x : K * V) (l : list (K * V)) :
  filter (fun e => tied lt v (snd e)) (insert_desc lt x l)
  = filter (fun e => tied lt v (snd e)) (x :: l).
Proof.
  destruct lt_order as [Hasym Hneg].
  induction l as [|y l IH]; [ reflexivity | ].
  cbn [insert_desc]. destruct (lt (snd x) (snd y)) eqn:E; [ | reflexivity ].
  cbn [filter] in IH |- *. rewrite IH.
  destruct (tied lt v (snd x)) eqn:Ex; [ | reflexivity ].
  destruct (tied lt v (snd y)) eqn:Ey; [ | reflexivity ].
  exfalso. unfold tied in Ex, Ey.
  apply andb_true_iff in Ex, Ey. destruct Ex as [_ Ex], Ey as [Ey _].
  apply negb_true_iff in Ex, Ey.
  rewrite (Hneg _ _ _ Ex Ey) in E. discriminate.
Qed.

Lemma sorted_desc_tied (v : V) (l : list (K * V)) :
  filter (fun e => tied lt v (snd e)) (sorted_desc lt l)
  = filter (fun e => tied lt v (snd e)) l.
Proof.
  induction l as [|x l IH]; [ reflexivity | ].
  cbn [sorted_desc]. rewrite insert_desc_tied. cbn [filter].
  now rewrite IH.
Qed.

(** The sort of [print_to_file] under a strict weak order. *)
Lemma sorted_desc_descending_stable (l : list (K * V)) :
  descending_stable lt l (sorted_desc lt l).
Proof.
  split; [ apply sorted_desc_perm | ].
  split; [ apply sorted_desc_sorted | ].
  intros v. apply sorted_desc_tied.
Qed.

End SortFacts.

Section PairOrder.

Import Arpa.

Variable F : Type.
Variables F_lt F_eq : F -> F -> bool.
Hypothesis F_order : strict_weak_order F_lt.
Hypothesis F_eq_spec : eq_agrees F_lt F_eq.

(** A descending pair puts the probabilities in descending order. *)
Lemma pair_lt_first (x y : F * F) :
  pair_lt F_lt F_eq x y = false -> F_lt (fst x) (fst y) = false.
Proof.
  unfold pair_lt. destruct (F_eq (fst x) (fst y)) eqn:E; [ | tauto ].
  intros _. now apply F_eq_spec in E.
Qed.

(** Python's order on pairs of floats is a strict weak order too. *)
Lemma pair_lt_order : strict_weak_order (pair_lt F_lt F_eq).
Proof.
  destruct F_order as [Hasym Hneg]. split.
  - intros [a1 b1] [a2 b2]. unfold pair_lt. cbn [fst snd].
    destruct (F_eq a1 a2) eqn:E12.
    + assert (E21 : F_eq a2 a1 = true)
        by (apply F_eq_spec; apply F_eq_spec in E12; tauto).
      rewrite E21. apply Hasym.
    + intros H. destruct (F_eq a2 a1) eqn:E21.
      * apply F_eq_spec in E21. destruct E21. congruence.
      * now apply Hasym.
  - intros [a1 b1] [a2 b2] [a3 b3]. unfold pair_lt. cbn [fst snd].
    intros H12 H23.
    assert (L12 : F_lt a1 a2 = false).
    { destruct (F_eq a1 a2) eqn:E; [ now apply F_eq_spec in E | exact H12 ]. }
    assert (L23 : F_lt a2 a3 = false).
    { destruct (F_eq a2 a3) eqn:E; [ now apply F_eq_spec in E | exact H23 ]. }
    pose proof (Hneg _ _ _ L12 L23) as L13.
    destruct (F_eq a1 a3) eqn:E13; [ | exact L13 ].
    apply F_eq_spec in E13. destruct E13 as [_ L31].
    assert (L21 : F_lt a2 a1 = false) by exact (Hneg _ _ _ L23 L31).
    assert (L32 : F_lt a3 a2 = false) by exact (Hneg _ _ _ L31 L12).
    assert (E12 : F_eq a1 a2 = true) by now apply F_eq_spec.
    assert (E23 : F_eq a2 a3 = true) by now apply F_eq_spec.
    rewrite E12 in H12. rewrite E23 in H23. exact (Hneg _ _ _ H12 H23).
Qed.

End PairOrder.

(* ================================================================== *)
(** * The ARPA file *)
(* ================================================================== *)

Section ArpaFacts.

Import Ngrams Arpa.
Local Open Scope string_scope.

Lemma mapM_ok (A B : Type) (f : A -> result B) (R : A -> B -> Prop)
      (l : list A) :
  Forall (fun x => exists y, f x = Ok y /\ R x y) l ->
  exists ys, mapM f l = Ok ys /\ Forall2 R l ys.
Proof.
  induction 1 as [|x l (y & Hy & HR) _ (ys & Hys & HRs)]; cbn.
  - exists []. split; [ reflexivity | constructor ].
  - rewrite Hy, Hys. cbn. exists (y :: ys).
    split; [ reflexivity | now constructor ].
Qed.

Lemma StronglySorted_weaken (A : Type) (R R' : A -> A -> Prop)
      (l : list A) :
  (forall x y, R x y -> R' x y) ->
  StronglySorted R l -> StronglySorted R' l.
Proof.
  intros HR. induction 1 as [|x l _ IH Hx]; constructor;
    [ exact IH | ].
  rewrite Forall_forall in Hx |- *. intros y Hy. apply HR. now apply Hx.
Qed.

Variable F : Type.
Variable str_F : F -> string.
Variables F_lt F_eq : F -> F -> bool.

Lemma uni_entry_ok (backoff : bool) (kv : ngram * (F * F)) :
  1 <= len (fst kv) ->
  exists row,
    uni_entry str_F backoff kv = Ok row /\ uni_row str_F backoff kv row.
Proof.
  destruct kv as [[|w rest] v]; cbn [fst]; unfold len; cbn [List.length];
    [ lia | intros _ ].
  unfold uni_entry, uni_row. cbn.
  destruct backoff; eexists; (split; [ reflexivity | ]);
    exists w, rest; now split.
Qed.

Lemma bi_entry_ok (backoff : bool) (kv : ngram * (F * F)) :
  2 <= len (fst kv) ->
  exists row,
    bi_entry str_F backoff kv = Ok row /\ bi_row str_F backoff kv row.
Proof.
  destruct kv as [[|w1 [|w2 rest]] v]; cbn [fst]; unfold len;
    cbn [List.length]; try lia; intros _.
  unfold bi_entry, bi_row. cbn.
  destruct backoff; eexists; (split; [ reflexivity | ]);
    exists w1, w2, rest; now split.
Qed.

Lemma tri_entry_ok (kv : ngram * F) :
  3 <= len (fst kv) ->
  exists row, tri_entry str_F kv = Ok row /\ tri_row str_F kv row.
Proof.
  destruct kv as [[|w1 [|w2 [|w3 rest]]] v]; cbn [fst]; unfold len;
    cbn [List.length]; try lia; intros _.
  unfold tri_entry, tri_row. cbn.
  eexists. split; [ reflexivity | ]. exists w1, w2, w3, rest. now split.
Qed.

(** With keys long enough for the words a row prints, [print_to_file]
    returns, and the file holds the rows of the sorted entries. *)
Lemma print_to_file_rows (uni bi : dict (F * F)) (tri : dict F)
      (backoff : bool) (smoothing : string) :
  Forall (fun kv => 1 <= len (fst kv)) uni ->
  Forall (fun kv => 2 <= len (fst kv)) bi ->
  Forall (fun kv => 3 <= len (fst kv)) tri ->
  exists rows1 rows2 rows3,
    print_to_file str_F F_lt F_eq uni bi tri backoff smoothing
    = Ok (file_name backoff smoothing,
          document (len uni) (len bi) (len tri) rows1 rows2 rows3)
    /\ Forall2 (uni_row str_F backoff)
               (sorted_desc (pair_lt F_lt F_eq) uni) rows1
    /\ Forall2 (bi_row str_F backoff)
               (sorted_desc (pair_lt F_lt F_eq) bi) rows2
    /\ Forall2 (tri_row str_F) (sorted_desc F_lt tri) rows3.
Proof.
  intros H1 H2 H3.
  destruct (mapM_ok _ _ (uni_entry str_F backoff) (uni_row str_F backoff)
                    (sorted_desc (pair_lt F_lt F_eq) uni))
    as (rows1 & E1 & R1).
  { apply (Permutation_Forall
             (Permutation_sym
                (sorted_desc_perm _ _ (pair_lt F_lt F_eq) uni))) in H1.
    revert H1. apply Forall_impl. intros kv. apply uni_entry_ok. }
  destruct (mapM_ok _ _ (bi_entry str_F backoff) (bi_row str_F backoff)
                    (sorted_desc (pair_lt F_lt F_eq) bi))
    as (rows2 & E2 & R2).
  { apply (Permutation_Forall
             (Permutation_sym
                (sorted_desc_perm _ _ (pair_lt F_lt F_eq) bi))) in H2.
    revert H2. apply Forall_impl. intros kv. apply bi_entry_ok. }
  destruct (mapM_ok _ _ (tri_entry str_F) (tri_row str_F)
                    (sorted_desc F_lt tri))
    as (rows3 & E3 & R3).
  { apply (Permutation_Forall
             (Permutation_sym (sorted_desc_perm _ _ F_lt tri))) in H3.
    revert H3. apply Forall_impl. intros kv. apply tri_entry_ok. }
  exists rows1, rows2, rows3. unfold print_to_file. cbn zeta.
  rewrite E1, E2, E3. cbn [bind]. now repeat split.
Qed.

End ArpaFacts.

Section ArpaLayout.

Import Ngrams Arpa.
Local Open Scope string_scope.

Variable F : Type.
Variable str_F : F -> string.
Variables F_lt F_eq : F -> F -> bool.

(** The file opens with an empty line; [\data\] is its second line. *)
Lemma document_first_lines (n1 n2 n3 : Z) (rows1 rows2 rows3 : list string) :
  exists ls,
    str_split newline (document n1 n2 n3 rows1 rows2 rows3)
    = EmptyString :: "\data\" :: ls.
Proof.
  unfold document, str_split, nl. cbn. eexists. reflexivity.
Qed.

(** C8 (as the code has it). With keys that hold the words a row prints,
    for every three tables and either value of the backoff flag the file
    written is: an empty first line, then [\data\], the three [ngram k=]
    lines, and the sections [\1-grams:], [\2-grams:], [\3-grams:] with their
    rows, each header after an empty line, and last, after an empty line,
    [\end\] with no newline behind it.  The number in [ngram k=] is the
    number of rows of section [k], which is the size of table [k].  A
    unigram or bigram row ends with the backoff weight exactly when the
    flag is set; a trigram row never has one. *)
Theorem print_to_file_layout (uni bi : dict (F * F)) (tri : dict F)
        (backoff : bool) (smoothing : string) :
  Forall (fun kv => 1 <= len (fst kv)) uni ->
  Forall (fun kv => 2 <= len (fst kv)) bi ->
  Forall (fun kv => 3 <= len (fst kv)) tri ->
  exists rows1 rows2 rows3,
    print_to_file str_F F_lt F_eq uni bi tri backoff smoothing
    = Ok (file_name backoff smoothing,
          document (len rows1) (len rows2) (len rows3) rows1 rows2 rows3)
    /\ document (len rows1) (len rows2) (len rows3) rows1 rows2 rows3
       = nl ++ "\data\" ++ nl ++
         "ngram 1=" ++ str_int (len rows1) ++ nl ++
         "ngram 2=" ++ str_int (len rows2) ++ nl ++
         "ngram 3=" ++ str_int (len rows3) ++ nl ++
         nl ++ "\1-grams:" ++ nl ++ write_rows rows1 ++
         nl ++ "\2-grams:" ++ nl ++ write_rows rows2 ++
         nl ++ "\3-grams:" ++ nl ++ write_rows rows3 ++
         nl ++ "\end\"
    /\ (exists ls,
          str_split newline
            (document (len rows1) (len rows2) (len rows3) rows1 rows2 rows3)
          = EmptyString :: "\data\" :: ls)
    /\ len rows1 = len uni /\ len rows2 = len bi /\ len rows3 = len tri
    /\ Forall2 (uni_row str_F backoff)
               (sorted_desc (pair_lt F_lt F_eq) uni) rows1
    /\ Forall2 (bi_row str_F backoff)
               (sorted_desc (pair_lt F_lt F_eq) bi) rows2
    /\ Forall2 (tri_row str_F) (sorted_desc F_lt tri) rows3.
Proof.
  intros H1 H2 H3.
  destruct (print_to_file_rows F str_F F_lt F_eq uni bi tri backoff smoothing
                               H1 H2 H3)
    as (rows1 & rows2 & rows3 & Hrun & R1 & R2 & R3).
  assert (L1 : len rows1 = len uni).
  { unfold len. rewrite <- (Forall2_length R1).
    apply (f_equal Z.of_nat), Permutation_length, sorted_desc_perm. }
  assert (L2 : len rows2 = len bi).
  { unfold len. rewrite <- (Forall2_length R2).
    apply (f_equal Z.of_nat), Permutation_length, sorted_desc_perm. }
  assert (L3 : len rows3 = len tri).
  { unfold len. rewrite <- (Forall2_length R3).
    apply (f_equal Z.of_nat), Permutation_length, sorted_desc_perm. }
  exists rows1, rows2, rows3. rewrite L1, L2, L3.
  split; [ exact Hrun | ]. split; [ reflexivity | ].
  split; [ apply document_first_lines | ].
  now repeat split.
Qed.

(** C7 (as the code has it). Where [<] on the floats is a strict weak
    order and [==] agrees with it, the rows of each section print the
    entries of its table sorted by descending value: no entry has a value
    less than one that comes after it, and entries whose values are tied
    keep the order they have in the table.  The value of a unigram or
    bigram entry is the pair (probability, backoff weight), so the
    probabilities of those sections descend too; the value of a trigram
    entry is its probability. *)
Theorem rows_sorted_descending (uni bi : dict (F * F)) (tri : dict F)
        (backoff : bool) (smoothing : string) :
  strict_weak_order F_lt ->
  eq_agrees F_lt F_eq ->
  Forall (fun kv => 1 <= len (fst kv)) uni ->
  Forall (fun kv => 2 <= len (fst kv)) bi ->
  Forall (fun kv => 3 <= len (fst kv)) tri ->
  exists sortedUni sortedBi sortedTri rows1 rows2 rows3,
    print_to_file str_F F_lt F_eq uni bi tri backoff smoothing
    = Ok (file_name backoff smoothing,
          document (len uni) (len bi) (len tri) rows1 rows2 rows3)
    /\ Forall2 (uni_row str_F backoff) sortedUni rows1
    /\ Forall2 (bi_row str_F backoff) sortedBi rows2
    /\ Forall2 (tri_row str_F) sortedTri rows3
    /\ descending_stable (pair_lt F_lt F_eq) uni sortedUni
    /\ descending_stable (pair_lt F_lt F_eq) bi sortedBi
    /\ descending_stable F_lt tri sortedTri
    /\ StronglySorted (fun x y => F_lt (fst (snd x)) (fst (snd y)) = false)
                      sortedUni
    /\ StronglySorted (fun x y => F_lt (fst (snd x)) (fst (snd y)) = false)
                      sortedBi.
Proof.
  intros Hord Heq H1 H2 H3.
  destruct (print_to_file_rows F str_F F_lt F_eq uni bi tri backoff smoothing
                               H1 H2 H3)
    as (rows1 & rows2 & rows3 & Hrun & R1 & R2 & R3).
  pose proof (pair_lt_order F F_lt F_eq Hord Heq) as Hpair.
  exists (sorted_desc (pair_lt F_lt F_eq) uni),
         (sorted_desc (pair_lt F_lt F_eq) bi),
         (sorted_desc F_lt tri), rows1, rows2, rows3.
  split; [ exact Hrun | ]. split; [ exact R1 | ]. split; [ exact R2 | ].
  split; [ exact R3 | ].
  split; [ now apply sorted_desc_descending_stable | ].
  split; [ now apply sorted_desc_descending_stable | ].
  split; [ now apply sorted_desc_descending_stable | ].
  split.
  - apply (StronglySorted_weaken _
             (fun x y => pair_lt F_lt F_eq (snd x) (snd y) = false)).
    + intros x y. now apply pair_lt_first.
    + now apply sorted_desc_sorted.
  - apply (StronglySorted_weaken _
             (fun x y => pair_lt F_lt F_eq (snd x) (snd y) = false)).
    + intros x y. now apply pair_lt_first.
    + now apply sorted_desc_sorted.
Qed.

End ArpaLayout.

Section ArpaExamples.

Import Ngrams Arpa Scenario.
Local Open Scope string_scope.

Lemma Z_ltb_order : strict_weak_order Z.ltb.
Proof.
  split.
  - intros x y H. apply Z.ltb_lt in H. apply Z.ltb_ge. lia.
  - intros x y z H1 H2. apply Z.ltb_ge in H1, H2. apply Z.ltb_ge. lia.
Qed.

Lemma Z_eqb_agrees : eq_agrees Z.ltb Z.eqb.
Proof.
  intros x y. rewrite Z.eqb_eq, !Z.ltb_ge. lia.
Qed.

(** The model of ["a a a a a"], with backoff weights. *)
Lemma print_to_file_layout_witness :
  Forall (fun kv => 1 <= len (fst kv)) aaaaa_uni
  /\ Forall (fun kv => 2 <= len (fst kv)) aaaaa_bi
  /\ Forall (fun kv => 3 <= len (fst kv)) aaaaa_tri
  /\ exists rows1 rows2 rows3,
       print_to_file str_int Z.ltb Z.eqb aaaaa_uni aaaaa_bi aaaaa_tri
                     true "none"
       = Ok (file_name true "none",
             document (len rows1) (len rows2) (len rows3)
                      rows1 rows2 rows3)
       /\ len rows1 = 1 /\ len rows2 = 1 /\ len rows3 = 1.
Proof.
  assert (H1 : Forall (fun kv => 1 <= len (fst kv)) aaaaa_uni)
    by (repeat constructor; vm_compute; discriminate).
  assert (H2 : Forall (fun kv => 2 <= len (fst kv)) aaaaa_bi)
    by (repeat constructor; vm_compute; discriminate).
  assert (H3 : Forall (fun kv => 3 <= len (fst kv)) aaaaa_tri)
    by (repeat constructor; vm_compute; discriminate).
  split; [ exact H1 | ]. split; [ exact H2 | ]. split; [ exact H3 | ].
  destruct (print_to_file_layout Z str_int Z.ltb Z.eqb
              aaaaa_uni aaaaa_bi aaaaa_tri true "none" H1 H2 H3)
    as (rows1 & rows2 & rows3 & Hrun & _ & _ & L1 & L2 & L3 & _).
  exists rows1, rows2, rows3.
  split; [ exact Hrun | ]. split; [ exact L1 | ]. split; [ exact L2 | ].
  exact L3.
Defined.

(** The first line of the file is empty, not [\data\]. *)
Lemma arpa_first_line_is_empty :
  exists doc,
    print_to_file str_int Z.ltb Z.eqb aaaaa_uni aaaaa_bi aaaaa_tri
                  true "none"
    = Ok ("lm_smoothing-none_backoff-yes.txt", doc)
    /\ hd_error (str_split newline doc) = Some EmptyString
    /\ hd_error (str_split newline doc) <> Some "\data\"
    /\ nth_error (str_split newline doc) 1 = Some "\data\".
Proof.
  eexists. split; [ vm_compute; reflexivity | ].
  split; [ reflexivity | ]. split; [ discriminate | reflexivity ].
Qed.

(** Unigrams that differ in probability or in weight only, without
    backoff weights in the rows. *)
Lemma rows_sorted_descending_witness :
  strict_weak_order Z.ltb
  /\ eq_agrees Z.ltb Z.eqb
  /\ Forall (fun kv => 1 <= len (fst kv)) mixed_unigrams
  /\ Forall (fun kv => 2 <= len (fst kv)) aaaaa_bi
  /\ Forall (fun kv => 3 <= len (fst kv)) tied_trigrams
  /\ exists sortedUni sortedTri rows1 rows2 rows3,
       print_to_file str_int Z.ltb Z.eqb mixed_unigrams aaaaa_bi
                     tied_trigrams false "none"
       = Ok (file_name false "none",
             document (len mixed_unigrams) (len aaaaa_bi)
                      (len tied_trigrams) rows1 rows2 rows3)
       /\ Forall2 (uni_row str_int false) sortedUni rows1
       /\ Forall2 (tri_row str_int) sortedTri rows3
       /\ descending_stable (pair_lt Z.ltb Z.eqb) mixed_unigrams sortedUni
       /\ descending_stable Z.ltb tied_trigrams sortedTri.
Proof.
  assert (H1 : Forall (fun kv => 1 <= len (fst kv)) mixed_unigrams)
    by (repeat constructor; vm_compute; discriminate).
  assert (H2 : Forall (fun kv => 2 <= len (fst kv)) aaaaa_bi)
    by (repeat constructor; vm_compute; discriminate).
  assert (H3 : Forall (fun kv => 3 <= len (fst kv)) tied_trigrams)
    by (repeat constructor; vm_compute; discriminate).
  split; [ exact Z_ltb_order | ]. split; [ exact Z_eqb_agrees | ].
  split; [ exact H1 | ]. split; [ exact H2 | ]. split; [ exact H3 | ].
  destruct (rows_sorted_descending Z str_int Z.ltb Z.eqb
              mixed_unigrams aaaaa_bi tied_trigrams false "none"
              Z_ltb_order Z_eqb_agrees H1 H2 H3)
    as (s1 & s2 & s3 & rows1 & rows2 & rows3
        & Hrun & R1 & _ & R3 & D1 & _ & D3 & _).
  exists s1, s3, rows1, rows2, rows3.
  split; [ exact Hrun | ]. split; [ exact R1 | ]. split; [ exact R3 | ].
  split; [ exact D1 | exact D3 ].
Defined.

(** Three trigrams of equal probability are written in the order of the
    table, [b], [a], [c], which is neither the ascending nor the
    descending order of the n-grams; and unigrams of equal probability are
    written by descending weight. *)
Lemma tied_rows_keep_table_order :
  print_to_file str_int Z.ltb Z.eqb mixed_unigrams aaaaa_bi tied_trigrams
                true "none"
  = Ok ("lm_smoothing-none_backoff-yes.txt",
        document 4 1 3
                 ["-1 w 2"; "-1 v 1"; "-3 u 0"; "-3 z 0"]
                 ["0 a a 0"]
                 ["0 b x y"; "0 a x y"; "0 c x y"])
  /\ ngram_lex_lt ["b"; "x"; "y"] ["a"; "x"; "y"] = false
  /\ ngram_lex_lt ["c"; "x"; "y"] ["a"; "x"; "y"] = false.
Proof.
  split; [ vm_compute; reflexivity | ]. split; reflexivity.
Qed.

End ArpaExamples.

(* ================================================================== *)
(** * The syllable splitter *)
(* ================================================================== *)

Section SliceFacts.

Variable A : Type.

Lemma slice_In (l : list A) (lo hi : option Z) (x : A) :
  In x (slice l lo hi) -> In x l.
Proof.
  unfold slice. cbn zeta. intros H.
  match type of H with
  | In _ (firstn ?n (skipn ?m _)) =>
      rewrite <- (firstn_skipn m l); apply in_or_app; right;
      rewrite <- (firstn_skipn n (skipn m l)); apply in_or_app; now left
  end.
Qed.

Lemma slice_Forall (P : A -> Prop) (l : list A) (lo hi : option Z) :
  Forall P l -> Forall P (slice l lo hi).
Proof.
  rewrite !Forall_forall. intros H x Hx. apply H. now apply slice_In in Hx.
Qed.

(** Putting [m] in at an inner position makes the list that much longer. *)
Lemma insert_len (l m : list A) (a : Z) :
  0 <= a -> a <= len l ->
  len (slice l None (Some a) ++ m ++ slice l (Some a) None)
  = len l + len m.
Proof.
  intros Ha Hb. rewrite !len_app.
  rewrite <- (slice_cut A l a Ha Hb) at 3. rewrite len_app. lia.
Qed.

(** What a window shows that opens [d] places into the piece put in. *)
Lemma window_after_insert (l m : list A) (a b n : Z) :
  0 <= a -> a <= len l -> a <= b -> b <= a + len m -> 0 <= n ->
  b + n <= len l + len m ->
  slice (slice l None (Some a) ++ m ++ slice l (Some a) None)
        (Some b) (Some (b + n))
  = firstn (Z.to_nat n)
           (skipn (Z.to_nat (b - a)) m ++ slice l (Some a) None).
Proof.
  intros Ha Hal Hab Hbm Hn Hend.
  rewrite slice_inside; [ | lia | lia | rewrite insert_len; lia ].
  replace (b + n - b) with n by lia. f_equal.
  rewrite slice_prefix by assumption.
  assert (Hlen : List.length (firstn (Z.to_nat a) l) = Z.to_nat a)
    by (rewrite length_firstn; unfold len in Hal; lia).
  rewrite skipn_app, Hlen.
  rewrite (skipn_all2 (firstn (Z.to_nat a) l)) by lia. cbn [app].
  replace (Z.to_nat b - Z.to_nat a)%nat with (Z.to_nat (b - a)) by lia.
  rewrite skipn_app.
  replace (Z.to_nat (b - a) - List.length m)%nat with 0%nat
    by (unfold len in Hbm; lia).
  reflexivity.
Qed.

End SliceFacts.

Section OnePass.

Import Syllable.

Lemma marker_starts_nothing :
  Forall (fun c => in_group (vowel ++ glide) c = false) marker.
Proof. repeat constructor. Qed.

Lemma re_match_head (g : list char) (p' : pattern) (s : word) :
  re_match (g :: p') s = true ->
  exists c s', s = c :: s' /\ in_group g c = true.
Proof.
  destruct s as [|c s']; cbn; [ discriminate | ].
  intros H. apply andb_true_iff in H. exists c, s'. now split.
Qed.

(** Every pattern of the script starts with the group of vowels and
    glides; [k] is one of 1, 2, 3 and less than the width. *)
Variable p' : pattern.
Variable k : Z.
Hypothesis k_range : 1 <= k <= 3.
Hypothesis k_width : k < len ((vowel ++ glide) :: p').

Lemma loop_hit (st : loop) :
  let p := (vowel ++ glide) :: p' in
  well_formed p st ->
  j st < lenWord st ->
  re_match p (slice (cur st) (Some (i st)) (Some (j st))) = true ->
  well_formed p (loop_body p k st)
  /\ re_match p (slice (cur (loop_body p k st))
                       (Some (i (loop_body p k st)))
                       (Some (j (loop_body p k st)))) = false
  /\ lenWord (loop_body p k st) - j (loop_body p k st)
     = lenWord st - j st
  /\ cur (loop_body p k st)
     = slice (cur st) None (Some (i st + k)) ++ marker ++
       slice (cur st) (Some (i st + k)) None
  /\ i (loop_body p k st) = i st + 3.
Proof.
  intros p (Hi & Hj & Hl) Hcond Hmatch.
  assert (Hkw : k < len p) by exact k_width.
  unfold loop_body. cbn zeta. rewrite Hmatch. cbn [cur i j lenWord].
  assert (Hlen : len (slice (cur st) None (Some (i st + k)) ++ marker ++
                      slice (cur st) (Some (i st + k)) None)
                 = len (cur st) + 3)
    by (rewrite insert_len by lia; reflexivity).
  split; [ | split; [ | split; [ lia | split; reflexivity ] ] ].
  - unfold well_formed. cbn [cur i j lenWord]. rewrite Hlen. lia.
  - replace (j st + 3) with (i st + 3 + len p) by lia.
    rewrite window_after_insert;
      try lia; [ | change (len marker) with 3; lia
                 | change (len marker) with 3; lia ].
    replace (i st + 3 - (i st + k)) with (3 - k) by lia.
    assert (Hw : exists n, Z.to_nat (len p) = S n).
    { exists (List.length p'). unfold p, len. cbn [List.length]. lia. }
    destruct Hw as (n & ->).
    assert (Hk : k = 1 \/ k = 2 \/ k = 3) by lia.
    destruct Hk as [-> | [-> | ->]]; reflexivity.
Qed.

Lemma loop_miss (st : loop) :
  let p := (vowel ++ glide) :: p' in
  well_formed p st ->
  re_match p (slice (cur st) (Some (i st)) (Some (j st))) = false ->
  well_formed p (loop_body p k st)
  /\ cur (loop_body p k st) = cur st
  /\ i (loop_body p k st) = i st + 1
  /\ lenWord (loop_body p k st) - j (loop_body p k st)
     = lenWord st - j st - 1.
Proof.
  intros p (Hi & Hj & Hl) Hmatch.
  unfold loop_body. cbn zeta. rewrite Hmatch. cbn [cur i j lenWord].
  unfold well_formed. cbn [cur i j lenWord]. repeat split; lia.
Qed.

(** The loop ends: with more tests than twice the distance from [j] to
    [lenWord] plus one, or one fewer when the window at hand does not
    match, it returns, and what it has done to the word is a scan from
    [i]. *)
Lemma while_terminates (fuel : nat) (st : loop) :
  let p := (vowel ++ glide) :: p' in
  well_formed p st ->
  (Z.to_nat (2 * (lenWord st - j st) + 1) < fuel)%nat
  \/ (re_match p (slice (cur st) (Some (i st)) (Some (j st))) = false
      /\ (Z.to_nat (2 * (lenWord st - j st)) < fuel)%nat) ->
  exists st',
    while fuel p k st = Some st'
    /\ well_formed p st'
    /\ scan p k (cur st) (i st) (cur st').
Proof.
  intros p. subst p. set (p := (vowel ++ glide) :: p') in *.
  assert (Hkw : k < len p) by exact k_width. revert st.
  induction fuel as [|fuel IH]; intros st Hwf Hfuel; [ lia | ].
  cbn [while]. destruct (Z.ltb_spec (j st) (lenWord st)) as [Hcond|Hcond].
  - destruct (re_match p (slice (cur st) (Some (i st)) (Some (j st))))
      eqn:Hmatch.
    + destruct (loop_hit st Hwf Hcond Hmatch)
        as (Hwf' & Hrest & Hdist & Hcur & Hi').
      fold p in Hwf', Hrest, Hdist, Hcur, Hi'.
      destruct (IH (loop_body p k st) Hwf') as (st' & Hrun & Hwf'' & Hscan).
      { right. split; [ exact Hrest | ]. rewrite Hdist.
        destruct Hfuel as [Hfuel | [Hno _]]; [ lia | congruence ]. }
      exists st'. split; [ exact Hrun | ]. split; [ exact Hwf'' | ].
      destruct Hwf as (H0 & Hj & Hl).
      apply scan_hit.
      * lia.
      * now rewrite <- Hj.
      * now rewrite <- Hcur, <- Hi'.
    + destruct (loop_miss st Hwf Hmatch) as (Hwf' & Hcur & Hi' & Hdist).
      fold p in Hwf', Hcur, Hi', Hdist.
      destruct (IH (loop_body p k st) Hwf') as (st' & Hrun & Hwf'' & Hscan).
      { left. rewrite Hdist. destruct Hfuel as [Hfuel | [_ Hfuel]]; lia. }
      exists st'. split; [ exact Hrun | ]. split; [ exact Hwf'' | ].
      destruct Hwf as (H0 & Hj & Hl).
      apply scan_miss.
      * lia.
      * now rewrite <- Hj.
      * now rewrite <- Hcur, <- Hi'.
  - exists st. split; [ reflexivity | ]. split; [ exact Hwf | ].
    destruct Hwf as (H0 & Hj & Hl). apply scan_end. lia.
Qed.

(** A pass returns: the word scanned from its first character, and
    [lenWord] still one more than its length. *)
Lemma pass_ok (w : word) (lenWord0 : Z) :
  let p := (vowel ++ glide) :: p' in
  lenWord0 = len w + 1 ->
  exists w',
    pass p k (len p) w lenWord0 = Some (w', len w' + 1)
    /\ scan p k w 0 w'.
Proof.
  intros p Hl. unfold pass. cbn zeta.
  assert (Hkw : k < len p) by exact k_width.
  destruct (while_terminates (enough (mkLoop w 0 (len p) lenWord0))
                             (mkLoop w 0 (len p) lenWord0))
    as (st' & Hrun & (_ & _ & Hl') & Hscan).
  - unfold well_formed. cbn [cur i j lenWord]. fold p. lia.
  - left. unfold enough. lia.
  - fold p in Hrun. rewrite Hrun. exists (cur st').
    split; [ now rewrite Hl' | exact Hscan ].
Qed.

End OnePass.

Section Scanning.

Import Syllable.

(** A scan has one outcome. *)
Lemma scan_deterministic (p : pattern) (k : Z) (w : word) (pos : Z)
      (w1 w2 : word) :
  scan p k w pos w1 -> scan p k w pos w2 -> w1 = w2.
Proof.
  intros H1. revert w2.
  induction H1 as [w pos Hend | w pos w1 Hin Hm _ IH | w pos w1 Hin Hm _ IH];
    intros w2 H2; inversion H2; subst; try lia; try congruence.
  - now apply IH.
  - now apply IH.
Qed.

(** A scan only ever adds characters of the marker. *)
Lemma scan_Forall (P : char -> Prop) (p : pattern) (k : Z) (w : word)
      (pos : Z) (w' : word) :
  Forall P marker -> Forall P w -> scan p k w pos w' -> Forall P w'.
Proof.
  intros Hmark Hw Hscan. induction Hscan as [| w pos w' _ _ _ IH | ];
    [ assumption | | auto ].
  apply IH. apply Forall_app. split; [ now apply slice_Forall | ].
  apply Forall_app. split; [ assumption | now apply slice_Forall ].
Qed.

(** A pattern that starts with the vowels and glides matches nowhere in a
    word that has none, and the scan leaves the word as it is. *)
Lemma scan_without_vowels (p' : pattern) (k : Z) (w : word) (pos : Z)
      (w' : word) :
  Forall (fun c => in_group (vowel ++ glide) c = false) w ->
  scan ((vowel ++ glide) :: p') k w pos w' -> w' = w.
Proof.
  intros Hw Hscan.
  induction Hscan as [| w pos w' _ Hm _ _ | w pos w' _ _ _ IH];
    [ reflexivity | | now apply IH ].
  exfalso. apply re_match_head in Hm. destruct Hm as (c & s' & Hs & Hc).
  assert (Hin : In c w)
    by (apply (slice_In _ w (Some pos)
                        (Some (pos + len ((vowel ++ glide) :: p'))));
        rewrite Hs; now left).
  rewrite Forall_forall in Hw. rewrite (Hw c Hin) in Hc. discriminate.
Qed.

(** The four passes, one after the other on the word the one before
    returned. *)
Lemma split_word_ok (w : word) :
  exists w1 w2 w3 w4,
    split_word w = Some w4
    /\ scan vcv 1 w 0 w1
    /\ scan vccv 2 w1 0 w2
    /\ scan vccc 3 w2 0 w3
    /\ scan vgv 1 w3 0 w4.
Proof.
  destruct (pass_ok [consonant; vowel] 1 ltac:(lia) eq_refl
                    w (len w + 1) eq_refl)
    as (w1 & P1 & S1).
  destruct (pass_ok [consonant; consonant; vowel] 2 ltac:(lia) eq_refl
                    w1 (len w1 + 1) eq_refl)
    as (w2 & P2 & S2).
  destruct (pass_ok [consonant; consonant; consonant] 3 ltac:(lia) eq_refl
                    w2 (len w2 + 1) eq_refl)
    as (w3 & P3 & S3).
  destruct (pass_ok [glide] 1 ltac:(lia) eq_refl
                    w3 (len w3 + 1) eq_refl)
    as (w4 & P4 & S4).
  exists w1, w2, w3, w4. split; [ | now repeat split ].
  unfold split_word. cbn zeta.
  assert (E1 : pass vcv 1 3 w (len w + 1) = Some (w1, len w1 + 1))
    by exact P1.
  assert (E2 : pass vccv 2 4 w1 (len w1 + 1) = Some (w2, len w2 + 1))
    by exact P2.
  assert (E3 : pass vccc 3 4 w2 (len w2 + 1) = Some (w3, len w3 + 1))
    by exact P3.
  assert (E4 : pass vgv 1 2 w3 (len w3 + 1) = Some (w4, len w4 + 1))
    by exact P4.
  now rewrite E1, E2, E3, E4.
Qed.

Lemma split_words_ok (ws : list word) :
  exists outs,
    split_words ws = Some outs
    /\ Forall2 (fun w out => split_word w = Some out) ws outs.
Proof.
  induction ws as [|w ws (outs & Hrun & Hall)]; cbn [split_words].
  - exists []. split; [ reflexivity | constructor ].
  - destruct (split_word_ok w) as (w1 & w2 & w3 & w4 & Hw & _).
    rewrite Hw, Hrun. exists (w4 :: outs).
    split; [ reflexivity | now constructor ].
Qed.

(** The lines of what is printed are the words printed. *)
Lemma split_on_printed (outs : list word) :
  Forall (Forall (fun c => N.eqb 10 c = false)) outs ->
  split_on (N.eqb 10) (stdout_of outs) = outs ++ [[]].
Proof.
  induction 1 as [|w outs Hw _ IH]; [ reflexivity | ].
  unfold stdout_of in *. cbn [flat_map app]. unfold print at 1.
  rewrite <- app_assoc. cbn [app].
  induction Hw as [|c w Hc _ IHw]; cbn [app split_on].
  - rewrite N.eqb_refl. now rewrite IH.
  - rewrite Hc, IHw. reflexivity.
Qed.

End Scanning.

Section Splitter.

Import Syllable.

Lemma split_ws_aux_concat (is_space : char -> bool) (s cur : list char) :
  List.concat (split_ws_aux is_space cur s)
  = rev cur ++ filter (fun c => negb (is_space c)) s.
Proof.
  revert cur. induction s as [|c s IH]; intros cur; cbn.
  - destruct cur; cbn; now rewrite ?app_nil_r.
  - destruct (is_space c); cbn.
    + destruct cur; cbn [List.concat]; rewrite IH; reflexivity.
    + rewrite IH. cbn. now rewrite <- app_assoc.
Qed.

Lemma printed_without_newline (w out : word) :
  Forall (fun c => isspace c = false) w ->
  split_word w = Some out ->
  Forall (fun c => N.eqb 10 c = false) out.
Proof.
  intros Hw Hout.
  destruct (split_word_ok w) as (w1 & w2 & w3 & w4 & Hrun & S1 & S2 & S3 & S4).
  rewrite Hrun in Hout. injection Hout as <-.
  assert (Hmark : Forall (fun c => N.eqb 10 c = false) marker)
    by (repeat constructor).
  assert (H0 : Forall (fun c => N.eqb 10 c = false) w).
  { revert Hw. apply Forall_impl. intros c Hc.
    destruct (N.eqb_spec 10 c) as [<-|]; [ discriminate Hc | reflexivity ]. }
  pose proof (scan_Forall _ _ _ _ _ _ Hmark H0 S1) as H1.
  pose proof (scan_Forall _ _ _ _ _ _ Hmark H1 S2) as H2.
  pose proof (scan_Forall _ _ _ _ _ _ Hmark H2 S3) as H3.
  exact (scan_Forall _ _ _ _ _ _ Hmark H3 S4).
Qed.

Section Tokens.

Variable A : Type.
Variable is_space : A -> bool.

(** Whitespace in front of a line adds no word. *)
Lemma whitespace_words_space (c : A) (s : list A) (ws : list (list A)) :
  is_space c = true ->
  whitespace_words is_space s ws -> whitespace_words is_space (c :: s) ws.
Proof.
  intros Hc H. destruct H as [gap Hgap | gap w rest ws Hgap Hne Hw Hrest H].
  - constructor. now constructor.
  - change (c :: gap ++ w ++ rest) with ((c :: gap) ++ w ++ rest).
    constructor; try assumption. now constructor.
Qed.

Lemma split_ws_aux_words (s cur : list A) :
  Forall (fun c => is_space c = false) cur ->
  whitespace_words is_space (rev cur ++ s) (split_ws_aux is_space cur s).
Proof.
  revert cur. induction s as [|c s IH]; intros cur Hcur.
  - cbn [split_ws_aux]. destruct cur as [|x cur].
    + constructor. constructor.
    + change (rev (x :: cur) ++ []) with ([] ++ rev (x :: cur) ++ []).
      constructor.
      * constructor.
      * intros E. apply (f_equal (@List.length A)) in E.
        rewrite length_rev in E. discriminate E.
      * now apply Forall_rev.
      * now left.
      * constructor. constructor.
  - cbn [split_ws_aux]. destruct (is_space c) eqn:Ec.
    + destruct cur as [|x cur].
      * cbn [rev app]. apply whitespace_words_space; [ exact Ec | ].
        exact (IH [] (Forall_nil _)).
      * change (rev (x :: cur) ++ c :: s)
          with ([] ++ rev (x :: cur) ++ c :: s).
        constructor.
        -- constructor.
        -- intros E. apply (f_equal (@List.length A)) in E.
           rewrite length_rev in E. discriminate E.
        -- now apply Forall_rev.
        -- right. now exists c, s.
        -- apply whitespace_words_space; [ exact Ec | ].
           exact (IH [] (Forall_nil _)).
    + replace (rev cur ++ c :: s) with (rev (c :: cur) ++ s)
        by (cbn [rev]; now rewrite <- app_assoc).
      apply IH. now constructor.
Qed.

(** The words [split()] returns are the words of the line. *)
Lemma split_ws_words (s : list A) :
  whitespace_words is_space s (split_ws is_space s).
Proof. exact (split_ws_aux_words s [] (Forall_nil _)). Qed.

Lemma split_ws_aux_gap (gap s : list A) :
  Forall (fun c => is_space c = true) gap ->
  split_ws_aux is_space [] (gap ++ s) = split_ws_aux is_space [] s.
Proof.
  induction 1 as [|c gap Hc _ IH]; [ reflexivity | ].
  cbn [app split_ws_aux]. now rewrite Hc.
Qed.

Lemma split_ws_aux_word (w cur s : list A) :
  Forall (fun c => is_space c = false) w ->
  split_ws_aux is_space cur (w ++ s)
  = split_ws_aux is_space (rev w ++ cur) s.
Proof.
  intros H. revert cur. induction H as [|c w Hc _ IH]; intros cur;
    [ reflexivity | ].
  cbn [app split_ws_aux]. rewrite Hc, IH. cbn [rev].
  now rewrite <- app_assoc.
Qed.

(** A line has no other words than those [split()] returns. *)
Lemma whitespace_words_unique (s : list A) (ws : list (list A)) :
  whitespace_words is_space s ws -> ws = split_ws is_space s.
Proof.
  unfold split_ws.
  induction 1 as [gap Hgap | gap w rest ws Hgap Hne Hw Hrest _ IH].
  - rewrite <- (app_nil_r gap). now rewrite split_ws_aux_gap.
  - rewrite split_ws_aux_gap by assumption.
    rewrite split_ws_aux_word by assumption. rewrite app_nil_r.
    assert (Hr : rev w <> []).
    { intros E. apply Hne. apply (f_equal (@rev A)) in E.
      now rewrite rev_involutive in E. }
    destruct Hrest as [->|(c & rest' & -> & Hc)].
    + cbn [split_ws_aux] in *. subst ws.
      destruct (rev w) eqn:E; [ contradiction | ].
      rewrite <- E, rev_involutive. reflexivity.
    + cbn [split_ws_aux] in *. rewrite Hc in *. subst ws.
      destruct (rev w) eqn:E; [ contradiction | ].
      rewrite <- E, rev_involutive. reflexivity.
Qed.

End Tokens.

(** C9. For every line the splitter returns: it takes the words of the
    line, which are its runs of characters that are not whitespace, each
    as long as it can be, and which a line has in one way only (none is
    empty, none has whitespace in it, together they are the characters of
    the line that are not whitespace), and on each word runs four passes
    in the order VCV, VCCV, VCCC, VGV, each on the word the pass before it
    returned; a pass scans from left to right and, where its pattern
    matches at a position, puts the marker in one (VCV, VGV), two (VCCV)
    or three (VCCC) characters further and goes on in the longer word.
    What is printed has one line for each word, in order. *)
Theorem process_line_spec (line : list char) :
  exists outs,
    process_line line = Some outs
    /\ whitespace_words isspace line (split_ws isspace line)
    /\ (forall words,
          whitespace_words isspace line words ->
          words = split_ws isspace line)
    /\ Forall (fun w => w <> [] /\ Forall (fun c => isspace c = false) w)
              (split_ws isspace line)
    /\ List.concat (split_ws isspace line)
       = filter (fun c => negb (isspace c)) line
    /\ Forall2
         (fun w out =>
            exists w1 w2 w3,
              scan vcv 1 w 0 w1
              /\ scan vccv 2 w1 0 w2
              /\ scan vccc 3 w2 0 w3
              /\ scan vgv 1 w3 0 out)
         (split_ws isspace line) outs
    /\ len outs = len (split_ws isspace line)
    /\ split_on (N.eqb 10) (stdout_of outs) = outs ++ [[]].
Proof.
  unfold process_line.
  pose proof (split_ws_pieces _ isspace line) as Hwords.
  destruct (split_words_ok (split_ws isspace line)) as (outs & Hrun & Hall).
  exists outs. split; [ exact Hrun | ].
  split; [ apply split_ws_words | ].
  split; [ intros words; apply whitespace_words_unique | ].
  split; [ exact Hwords | ].
  split; [ apply (split_ws_aux_concat isspace line []) | ].
  split; [ | split ].
  - clear Hrun Hwords. induction Hall as [|w out ws outs Hw _ IH];
      constructor; [ | exact IH ].
    destruct (split_word_ok w) as (w1 & w2 & w3 & w4 & Hrun & S1 & S2 & S3 & S4).
    rewrite Hrun in Hw. injection Hw as <-. now exists w1, w2, w3.
  - unfold len. f_equal. symmetry. exact (Forall2_length Hall).
  - apply split_on_printed. clear Hrun.
    induction Hall as [|w out ws outs Hw _ IH]; constructor.
    + inversion Hwords; subst.
      apply (printed_without_newline w); [ tauto | exact Hw ].
    + apply IH. now inversion Hwords.
Qed.

Lemma pass_without_vowels (p' : pattern) (k : Z) (w : word) :
  1 <= k <= 3 ->
  k < len ((vowel ++ glide) :: p') ->
  Forall (fun c => in_group (vowel ++ glide) c = false) w ->
  pass ((vowel ++ glide) :: p') k (len ((vowel ++ glide) :: p')) w
       (len w + 1)
  = Some (w, len w + 1).
Proof.
  intros Hk Hkw Hw.
  destruct (pass_ok p' k Hk Hkw w (len w + 1) eq_refl) as (w' & Hrun & Hscan).
  apply scan_without_vowels in Hscan; [ | exact Hw ].
  now subst w'.
Qed.

(** C10. On a word with no character of the vowels and none of the
    glides, each of the four passes returns the word as it is, so does
    the splitter, and what is printed for the word is the word. *)
Theorem split_word_without_vowels (w : word) :
  Forall (fun c => in_group vowel c = false /\ in_group glide c = false) w ->
  pass vcv 1 3 w (len w + 1) = Some (w, len w + 1)
  /\ pass vccv 2 4 w (len w + 1) = Some (w, len w + 1)
  /\ pass vccc 3 4 w (len w + 1) = Some (w, len w + 1)
  /\ pass vgv 1 2 w (len w + 1) = Some (w, len w + 1)
  /\ split_word w = Some w
  /\ stdout_of [w] = w ++ [10%N].
Proof.
  intros Hw.
  assert (Hw' : Forall (fun c => in_group (vowel ++ glide) c = false) w).
  { revert Hw. apply Forall_impl. intros c [Hv Hg].
    unfold in_group in *. rewrite existsb_app.
    apply orb_false_iff. now split. }
  assert (E1 : pass vcv 1 3 w (len w + 1) = Some (w, len w + 1))
    by exact (pass_without_vowels [consonant; vowel] 1 w
                ltac:(lia) eq_refl Hw').
  assert (E2 : pass vccv 2 4 w (len w + 1) = Some (w, len w + 1))
    by exact (pass_without_vowels [consonant; consonant; vowel] 2 w
                ltac:(lia) eq_refl Hw').
  assert (E3 : pass vccc 3 4 w (len w + 1) = Some (w, len w + 1))
    by exact (pass_without_vowels [consonant; consonant; consonant] 3 w
                ltac:(lia) eq_refl Hw').
  assert (E4 : pass vgv 1 2 w (len w + 1) = Some (w, len w + 1))
    by exact (pass_without_vowels [glide] 1 w ltac:(lia) eq_refl Hw').
  repeat (split; [ assumption | ]).
  split.
  - unfold split_word. cbn zeta. now rewrite E1, E2, E3, E4.
  - unfold stdout_of, print. cbn. now rewrite app_nil_r.
Qed.

(** The consonants [0x43a 0x442]. *)
Lemma split_word_without_vowels_witness :
  Forall (fun c => in_group vowel c = false /\ in_group glide c = false)
         [0x43a%N; 0x442%N]
  /\ split_word [0x43a%N; 0x442%N] = Some [0x43a%N; 0x442%N].
Proof.
  assert (H : Forall (fun c => in_group vowel c = false
                               /\ in_group glide c = false)
                     [0x43a%N; 0x442%N])
    by (repeat constructor).
  split; [ exact H | ].
  exact (proj1 (proj2 (proj2 (proj2 (proj2
           (split_word_without_vowels [0x43a%N; 0x442%N] H)))))).
Defined.

End Splitter.

(* ================================================================== *)
(** * Worked examples *)
(* ================================================================== *)

Section Examples.

Import Ngrams Syllable.

(** The corpus of the spec, with the cutoff [0]: counts of each order. *)
Example abab_unigram_counts :
  get_count_dict (unigrams (get_ngram_tuples "a b a b c" 0))
  = [(["a"], 2); (["b"], 2); (["c"], 1)]%string.
Proof. reflexivity. Qed.

Example abab_bigram_counts :
  get_count_dict (bigrams (get_ngram_tuples "a b a b c" 0))
  = [(["a"; "b"], 2); (["b"; "a"], 1); (["b"; "c"], 1)]%string.
Proof. reflexivity. Qed.

Example abab_trigram_counts :
  get_count_dict (trigrams (get_ngram_tuples "a b a b c" 0))
  = [(["a"; "b"; "a"], 1); (["b"; "a"; "b"], 1); (["a"; "b"; "c"], 1)]%string.
Proof. reflexivity. Qed.

(** A line of four words is dropped by [main], whose cutoff is [4]. *)
Example four_words_dropped :
  unigrams (get_ngram_tuples "a b a b" 4) = [].
Proof. reflexivity. Qed.

(** A tab does not separate tokens. *)
Example tab_is_no_separator :
  str_split space (String "a" (String "009" (String "b" EmptyString)))
  = [String "a" (String "009" (String "b" EmptyString))].
Proof. reflexivity. Qed.

(** An order below one goes through the general branch, as in Python. *)
Example order_zero :
  get_ngrams_from_line ["a"; "b"]%string 0 = [[]; []; []].
Proof. reflexivity. Qed.

(** [0x431 0x430 0x43b 0x430]: the rule VCV puts the marker after the
    first vowel. *)
Example split_vcv :
  split_word [0x431; 0x430; 0x43b; 0x430]%N
  = Some [0x431; 0x430; 0x40; 0x20; 0x40; 0x43b; 0x430]%N.
Proof. reflexivity. Qed.

(** [0x430 0x43b 0x43c 0x430]: the rule VCCV puts it between the two
    consonants. *)
Example split_vccv :
  split_word [0x430; 0x43b; 0x43c; 0x430]%N
  = Some [0x430; 0x43b; 0x40; 0x20; 0x40; 0x43c; 0x430]%N.
Proof. reflexivity. Qed.

(** A word on which VCV and later VCCC both match: the passes work on
    the word as the earlier ones left it. *)
Example split_two_passes :
  split_word [0x430; 0x43b; 0x43c; 0x442; 0x430; 0x43b; 0x430]%N
  = Some [0x430; 0x43b; 0x43c; 0x40; 0x20; 0x40; 0x442; 0x430;
          0x40; 0x20; 0x40; 0x43b; 0x430]%N.
Proof. reflexivity. Qed.

(** [0x430 0x44f]: a vowel and a glide. *)
Example split_vgv :
  split_word [0x430; 0x44f]%N = Some [0x430; 0x40; 0x20; 0x40; 0x44f]%N.
Proof. reflexivity. Qed.

(** Two words between spaces, a tab and the newline of the line. *)
Example two_words_two_lines :
  option_map stdout_of
             (process_line [0x431; 0x430; 0x20; 0x9; 0x43a; 0x442; 0xa]%N)
  = Some [0x431; 0x430; 0xa; 0x43a; 0x442; 0xa]%N.
Proof. reflexivity. Qed.

End Examples.

(* ================================================================== *)
(** * More on the n-gram extractor *)
(* ================================================================== *)

Section ExtractorMore.

Import Ngrams Notions.

Lemma get_ngrams_nat (tokens : list token) (n : nat) :
  (2 <= n)%nat ->
  get_ngrams_from_line tokens (Z.of_nat n)
  = map (fun m => firstn n (skipn m tokens))
        (seq 0 (List.length tokens + 1 - n)).
Proof.
  intros Hn. rewrite get_ngrams_general by lia. unfold range.
  rewrite map_map.
  replace (Z.to_nat (len tokens - Z.of_nat n + 1))
    with (List.length tokens + 1 - n)%nat by (unfold len; lia).
  apply map_ext_in. intros m Hm. apply in_seq in Hm.
  rewrite slice_inside by (unfold len; lia).
  replace (Z.of_nat m + Z.of_nat n - Z.of_nat m) with (Z.of_nat n) by lia.
  now rewrite !Nat2Z.id.
Qed.

Lemma skipn_last (A : Type) (d : A) (n : nat) (l : list A) :
  (S n <= List.length l)%nat ->
  skipn n l = last (firstn (S n) l) d :: skipn (S n) l.
Proof.
  revert l. induction n as [|n IH]; intros [|a l] Hl; cbn in Hl; try lia.
  - reflexivity.
  - destruct l as [|b l]; [ cbn in Hl; lia | ].
    change (skipn (S n) (a :: b :: l)) with (skipn n (b :: l)).
    change (skipn (S (S n)) (a :: b :: l)) with (skipn (S n) (b :: l)).
    rewrite (IH (b :: l)) by (cbn; cbn in Hl; lia).
    reflexivity.
Qed.

Lemma lasts_of_windows (A : Type) (d : A) (n k : nat) (t : list A) :
  List.length t = (S n + k)%nat ->
  map (fun m => last (firstn (S n) (skipn m t)) d) (seq 1 k)
  = skipn (S n) t.
Proof.
  revert t. induction k as [|k IH]; intros t Ht.
  - cbn [seq map]. symmetry. apply skipn_all2. lia.
  - destruct t as [|a t]; [ cbn in Ht; lia | ].
    cbn [seq map]. rewrite <- seq_shift, map_map.
    change (skipn 1 (a :: t)) with t.
    rewrite (map_ext _ (fun m => last (firstn (S n) (skipn m t)) d))
      by reflexivity.
    rewrite IH by (cbn in Ht; lia).
    change (skipn (S n) (a :: t)) with (skipn n t).
    symmetry. apply skipn_last. cbn in Ht. lia.
Qed.

(** X1. A sentence with at least [n >= 1] tokens can be read back from
    its n-grams of order [n]: the first n-gram followed by the last token
    of each of the others is the sentence. *)
Theorem tokens_of_ngrams_inverse (tokens : list token) (n : Z) :
  1 <= n <= len tokens ->
  tokens_of_ngrams (get_ngrams_from_line tokens n) = tokens.
Proof.
  intros [Hn HL]. destruct (Z.eq_dec n 1) as [->|Hn1].
  - rewrite get_ngrams_unigram.
    destruct tokens as [|a r]; [ reflexivity | ].
    cbn [map tokens_of_ngrams app]. f_equal.
    rewrite map_map. cbn [last]. apply map_id.
  - assert (Hnat : n = Z.of_nat (Z.to_nat n)) by lia.
    rewrite Hnat, get_ngrams_nat by lia.
    unfold len in HL.
    destruct (Z.to_nat n) as [|n'] eqn:En; [ lia | ].
    replace (List.length tokens + 1 - S n')%nat
      with (S (List.length tokens - S n')) by lia.
    cbn [seq map tokens_of_ngrams]. rewrite map_map.
    change (skipn 0 tokens) with tokens.
    rewrite lasts_of_windows by lia.
    apply firstn_skipn.
Qed.

Lemma tokens_of_ngrams_inverse_witness :
  1 <= 2 <= len ["a"; "b"; "a"; "b"; "c"]%string
  /\ tokens_of_ngrams
       (get_ngrams_from_line ["a"; "b"; "a"; "b"; "c"]%string 2)
     = ["a"; "b"; "a"; "b"; "c"]%string.
Proof.
  assert (H : 1 <= 2 <= len ["a"; "b"; "a"; "b"; "c"]%string)
    by (unfold len; cbn; lia).
  split; [ exact H | ].
  exact (tokens_of_ngrams_inverse ["a"; "b"; "a"; "b"; "c"]%string 2 H).
Defined.

(** X2. For [n >= 2], two n-grams that follow one another overlap in
    [n - 1] tokens: the first without its first token is the second
    without its last token. *)
Theorem consecutive_ngrams_overlap (tokens : list token) (n : Z) (m : nat) :
  2 <= n ->
  Z.of_nat m + 1 <= len tokens - n ->
  exists g g',
    nth_error (get_ngrams_from_line tokens n) m = Some g
    /\ nth_error (get_ngrams_from_line tokens n) (S m) = Some g'
    /\ tl g = removelast g'.
Proof.
  intros Hn Hm.
  exists (firstn (Z.to_nat n) (skipn m tokens)),
         (firstn (Z.to_nat n) (skipn (S m) tokens)).
  split; [ apply get_ngrams_nth; lia | ].
  split; [ apply get_ngrams_nth; lia | ].
  assert (Hlen : (Z.to_nat n <= List.length (skipn (S m) tokens))%nat)
    by (rewrite length_skipn; unfold len in Hm; lia).
  destruct (Z.to_nat n) as [|n'] eqn:En; [ lia | ].
  rewrite removelast_firstn by lia.
  assert (Hcut : skipn m tokens
                 = nth m tokens EmptyString :: skipn (S m) tokens).
  { clear - Hm Hn. unfold len in Hm.
    assert (Hlt : (m < List.length tokens)%nat) by lia. clear Hm Hn.
    revert m Hlt. induction tokens as [|a t IH]; intros m Hlt;
      [ cbn in Hlt; lia | ].
    destruct m as [|m]; [ reflexivity | ].
    cbn [skipn nth]. apply IH. cbn in Hlt. lia. }
  rewrite Hcut. reflexivity.
Qed.

Lemma consecutive_ngrams_overlap_witness :
  2 <= 2
  /\ Z.of_nat 1 + 1 <= len ["a"; "b"; "a"; "b"; "c"]%string - 2
  /\ exists g g',
       nth_error (get_ngrams_from_line ["a"; "b"; "a"; "b"; "c"]%string 2) 1
       = Some g
       /\ nth_error
            (get_ngrams_from_line ["a"; "b"; "a"; "b"; "c"]%string 2) 2
          = Some g'
       /\ tl g = removelast g'.
Proof.
  assert (H1 : 2 <= 2) by lia.
  assert (H2 : Z.of_nat 1 + 1 <= len ["a"; "b"; "a"; "b"; "c"]%string - 2)
    by (unfold len; cbn; lia).
  split; [ exact H1 | ]. split; [ exact H2 | ].
  exact (consecutive_ngrams_overlap
           ["a"; "b"; "a"; "b"; "c"]%string 2 1 H1 H2).
Defined.

(** X3. The order [0] is not turned down: it goes through the general
    branch and gives one empty tuple more than the sentence has tokens. *)
Theorem order_zero_gives_empty_tuples (tokens : list token) :
  get_ngrams_from_line tokens 0 = repeat [] (S (List.length tokens)).
Proof.
  rewrite get_ngrams_general by lia. unfold range.
  replace (Z.to_nat (len tokens - 0 + 1)) with (S (List.length tokens))
    by (unfold len; lia).
  rewrite map_map.
  transitivity (repeat (@nil token)
                       (List.length (seq 0 (S (List.length tokens)))));
    [ | now rewrite length_seq ].
  induction (seq 0 (S (List.length tokens))) as [|x l IH];
    [ reflexivity | ].
  cbn [map List.length repeat]. rewrite IH. f_equal.
  unfold slice. cbn zeta. rewrite Z.add_0_r, Z.sub_diag. reflexivity.
Qed.

End ExtractorMore.

(* ================================================================== *)
(** * More on the sentence filter *)
(* ================================================================== *)

Section TuplesMore.

Import Ngrams Notions.

Lemma list_ascii_of_string_app (a b : string) :
  list_ascii_of_string (a ++ b)
  = list_ascii_of_string a ++ list_ascii_of_string b.
Proof. induction a as [|c a IH]; cbn; [ reflexivity | now rewrite IH ]. Qed.

Lemma split_on_app (A : Type) (is_sep : A -> bool) (sep : A)
      (a b : list A) :
  is_sep sep = true ->
  split_on is_sep (a ++ sep :: b) = split_on is_sep a ++ split_on is_sep b.
Proof.
  intros Hsep. induction a as [|c a IH]; cbn [app split_on].
  - now rewrite Hsep.
  - rewrite IH. destruct (is_sep c); [ reflexivity | ].
    pose proof (split_on_nonempty A is_sep a) as Hne.
    destruct (split_on is_sep a); [ contradiction | reflexivity ].
Qed.

Lemma split_on_chars (A : Type) (is_sep : A -> bool) (s piece : list A)
      (x : A) :
  In piece (split_on is_sep s) -> In x piece -> In x s.
Proof.
  revert piece. induction s as [|c s IH]; intros piece; cbn [split_on].
  - intros [<-|[]] [].
  - destruct (is_sep c).
    + intros [<-|Hp] Hx; [ destruct Hx | right; now apply (IH piece) ].
    + pose proof (split_on_nonempty A is_sep s) as Hne.
      destruct (split_on is_sep s) as [|w ws]; [ contradiction | ].
      intros [<-|Hp] Hx.
      * destruct Hx as [<-|Hx]; [ now left | ].
        right. apply (IH w); [ now left | exact Hx ].
      * right. apply (IH piece); [ now right | exact Hx ].
Qed.

Lemma str_split_app (c : ascii) (a b : string) :
  str_split c (a ++ String c b) = str_split c a ++ str_split c b.
Proof.
  unfold str_split. rewrite list_ascii_of_string_app. cbn [list_ascii_of_string].
  rewrite (split_on_app _ _ c) by apply Ascii.eqb_refl.
  apply map_app.
Qed.

Lemma str_split_chars (c : ascii) (s piece : string) (x : ascii) :
  In piece (str_split c s) ->
  In x (list_ascii_of_string piece) -> In x (list_ascii_of_string s).
Proof.
  unfold str_split. rewrite in_map_iff. intros (w & <- & Hw).
  rewrite list_ascii_of_string_of_list_ascii. intros Hx.
  exact (split_on_chars _ (Ascii.eqb c) _ w x Hw Hx).
Qed.

Lemma kept_sentences_Forall (lines : string) (cutoff : Z) :
  Forall (fun toks => cutoff < len toks /\ 1 <= len toks)
         (kept_sentences lines cutoff).
Proof.
  apply Forall_forall. intros toks Hin. unfold kept_sentences in Hin.
  apply filter_In in Hin. destruct Hin as [Hin Hlen].
  apply Z.gtb_lt in Hlen. split; [ exact Hlen | ].
  apply in_map_iff in Hin. destruct Hin as (line & <- & _).
  apply str_split_len.
Qed.

Lemma kept_tokens_clean (lines : string) (cutoff : Z) (toks : list token)
      (tok : token) :
  In toks (kept_sentences lines cutoff) ->
  In tok toks ->
  free_of space tok /\ free_of newline tok.
Proof.
  intros Hin Htok. unfold kept_sentences in Hin.
  apply filter_In in Hin. destruct Hin as [Hin _].
  apply in_map_iff in Hin. destruct Hin as (line & <- & Hline).
  split.
  - now apply (str_split_pieces space line).
  - intros Hnl. apply (str_split_pieces newline lines line Hline).
    now apply (str_split_chars space line tok).
Qed.

Lemma extracted_tokens (toks : list token) (n : Z) (g : ngram)
      (tok : token) :
  In g (get_ngrams_from_line toks n) -> In tok g -> In tok toks.
Proof.
  unfold get_ngrams_from_line. destruct (n =? 1).
  - rewrite in_map_iff. intros (t & <- & Ht) [<-|[]]. exact Ht.
  - rewrite in_map_iff. intros (i & <- & _). apply slice_In.
Qed.

Lemma extracted_arity (toks : list token) (n : Z) (g : ngram) :
  1 <= n -> In g (get_ngrams_from_line toks n) -> len g = n.
Proof.
  intros Hn Hg. destruct (Z.eq_dec n 1) as [->|Hn1].
  - rewrite get_ngrams_unigram in Hg. apply in_map_iff in Hg.
    destruct Hg as (t & <- & _). reflexivity.
  - apply In_get_ngrams in Hg; [ | lia ]. destruct Hg as (m & Hm & ->).
    unfold len in *. rewrite length_firstn, length_skipn. lia.
Qed.

Lemma extracted_shape (lines : string) (cutoff n : Z) (g : ngram) :
  1 <= n ->
  In g (flat_map (fun t => get_ngrams_from_line t n)
                 (kept_sentences lines cutoff)) ->
  len g = n
  /\ Forall (fun tok => free_of space tok /\ free_of newline tok) g.
Proof.
  intros Hn Hg. apply in_flat_map in Hg. destruct Hg as (toks & Htoks & Hg).
  split; [ now apply (extracted_arity toks) | ].
  apply Forall_forall. intros tok Htok.
  apply (kept_tokens_clean lines cutoff toks); [ exact Htoks | ].
  now apply (extracted_tokens toks n g).
Qed.

Lemma flat_map_len (A B : Type) (f : A -> list B) (l : list A) :
  len (flat_map f l) = fold_right (fun x acc => len (f x) + acc) 0 l.
Proof.
  induction l as [|x l IH]; [ reflexivity | ].
  cbn [flat_map fold_right]. now rewrite len_app, IH.
Qed.

(** X4. The three numbers [get_ngram_tuples] reports: the unigrams are as
    many as the tokens of the lines kept, the bigrams one fewer for each
    line kept, and with a cutoff of at least one the trigrams two fewer
    for each line kept. *)
Theorem ngram_totals (lines : string) (cutoff : Z) :
  let t := get_ngram_tuples lines cutoff in
  let kept := kept_sentences lines cutoff in
  len (unigrams t) = total_tokens kept
  /\ len (bigrams t) = total_tokens kept - len kept
  /\ (1 <= cutoff ->
      len (trigrams t) = total_tokens kept - 2 * len kept).
Proof.
  cbn zeta. rewrite get_ngram_tuples_flat. cbn [unigrams bigrams trigrams].
  rewrite !flat_map_len.
  pose proof (kept_sentences_Forall lines cutoff) as Hkept.
  induction Hkept as [|toks kept [Hcut Hone] _ (IH1 & IH2 & IH3)].
  - repeat split; reflexivity.
  - cbn [fold_right total_tokens].
    change (fold_right (fun toks acc => len toks + acc) 0 kept)
      with (total_tokens kept).
    rewrite get_ngrams_unigram, len_map, get_ngrams_len by lia.
    replace (len (toks :: kept)) with (1 + len kept)
      by (unfold len; cbn [List.length]; lia).
    split; [ lia | ]. split; [ lia | ].
    intros Hc. rewrite get_ngrams_len by lia. specialize (IH3 Hc). lia.
Qed.

(** X5. Lines are handled one by one: the n-grams of two texts put
    together with a newline between them are those of the first followed
    by those of the second. *)
Theorem get_ngram_tuples_app (a b : string) (cutoff : Z) :
  get_ngram_tuples (a ++ String newline b) cutoff
  = append_tuples (get_ngram_tuples a cutoff) (get_ngram_tuples b cutoff).
Proof.
  rewrite !get_ngram_tuples_flat. unfold append_tuples.
  cbn [unigrams bigrams trigrams].
  assert (Hk : kept_sentences (a ++ String newline b) cutoff
               = kept_sentences a cutoff ++ kept_sentences b cutoff).
  { unfold kept_sentences.
    now rewrite str_split_app, map_app, filter_app. }
  now rewrite Hk, !flat_map_app.
Qed.

(** X6. What is extracted has the shape the serialiser reads: every
    unigram is one token, every bigram two and every trigram three, and no
    token holds a space or a newline. *)
Theorem extracted_ngrams_shape (lines : string) (cutoff : Z) :
  let t := get_ngram_tuples lines cutoff in
  Forall (fun g => len g = 1
                   /\ Forall (fun tok => free_of space tok
                                         /\ free_of newline tok) g)
         (unigrams t)
  /\ Forall (fun g => len g = 2
                      /\ Forall (fun tok => free_of space tok
                                            /\ free_of newline tok) g)
            (bigrams t)
  /\ Forall (fun g => len g = 3
                      /\ Forall (fun tok => free_of space tok
                                            /\ free_of newline tok) g)
            (trigrams t).
Proof.
  cbn zeta. rewrite get_ngram_tuples_flat. cbn [unigrams bigrams trigrams].
  repeat split; apply Forall_forall; intros g Hg;
    apply (extracted_shape lines cutoff); (lia || exact Hg).
Qed.

End TuplesMore.

(* ================================================================== *)
(** * More on the ARPA file *)
(* ================================================================== *)

Section ArpaMore.

Import Ngrams Arpa Notions.
Local Open Scope string_scope.

Lemma mapM_Ok_inv (A B : Type) (f : A -> result B) (P : A -> Prop)
      (l : list A) (ys : list B) :
  (forall x y, f x = Ok y -> P x) ->
  mapM f l = Ok ys -> Forall P l.
Proof.
  intros HP. revert ys. induction l as [|x l IH]; intros ys; cbn.
  - constructor.
  - destruct (f x) as [y|e] eqn:Ex; cbn; [ | discriminate ].
    destruct (mapM f l) as [ys'|e] eqn:El; cbn; [ | discriminate ].
    intros _. constructor; [ now apply (HP x y) | now apply (IH ys') ].
Qed.

Lemma mapM_Error_inv (A B : Type) (f : A -> result B) (l : list A)
      (e : exn) :
  mapM f l = Error e -> exists x, In x l /\ f x = Error e.
Proof.
  induction l as [|x l IH]; cbn; [ discriminate | ].
  destruct (f x) as [y|e'] eqn:Ex; cbn.
  - destruct (mapM f l) as [ys'|e'] eqn:El; cbn; [ discriminate | ].
    intros [= <-]. destruct (IH eq_refl) as (x' & Hin & Hx').
    exists x'. split; [ now right | exact Hx' ].
  - intros [= <-]. exists x. split; [ now left | exact Ex ].
Qed.

Variable F : Type.
Variable str_F : F -> string.
Variables F_lt F_eq : F -> F -> bool.

Lemma uni_entry_result (backoff : bool) (kv : ngram * (F * F)) :
  (1 <= len (fst kv) /\ exists row, uni_entry str_F backoff kv = Ok row)
  \/ (len (fst kv) < 1 /\ uni_entry str_F backoff kv = Error IndexError).
Proof.
  destruct (Z_le_gt_dec 1 (len (fst kv))) as [H|H].
  - left. split; [ exact H | ].
    destruct (uni_entry_ok F str_F backoff kv H) as (row & Hrow & _).
    now exists row.
  - right. split; [ lia | ].
    destruct kv as [[|w rest] v]; [ reflexivity | ].
    unfold len in H. cbn in H. lia.
Qed.

Lemma bi_entry_result (backoff : bool) (kv : ngram * (F * F)) :
  (2 <= len (fst kv) /\ exists row, bi_entry str_F backoff kv = Ok row)
  \/ (len (fst kv) < 2 /\ bi_entry str_F backoff kv = Error IndexError).
Proof.
  destruct (Z_le_gt_dec 2 (len (fst kv))) as [H|H].
  - left. split; [ exact H | ].
    destruct (bi_entry_ok F str_F backoff kv H) as (row & Hrow & _).
    now exists row.
  - right. split; [ lia | ].
    destruct kv as [[|w1 [|w2 rest]] v]; try reflexivity.
    unfold len in H. cbn in H. lia.
Qed.

Lemma tri_entry_result (kv : ngram * F) :
  (3 <= len (fst kv) /\ exists row, tri_entry str_F kv = Ok row)
  \/ (len (fst kv) < 3 /\ tri_entry str_F kv = Error IndexError).
Proof.
  destruct (Z_le_gt_dec 3 (len (fst kv))) as [H|H].
  - left. split; [ exact H | ].
    destruct (tri_entry_ok F str_F kv H) as (row & Hrow & _).
    now exists row.
  - right. split; [ lia | ].
    destruct kv as [[|w1 [|w2 [|w3 rest]]] v]; try reflexivity.
    unfold len in H. cbn in H. lia.
Qed.


(** The rows are all written exactly when every key is long enough for
    its section. *)
Lemma rows_written_iff (uni bi : dict (F * F)) (tri : dict F)
      (backoff : bool) (smoothing : string) :
  (exists out,
      print_to_file str_F F_lt F_eq uni bi tri backoff smoothing = Ok out)
  <-> Forall (fun kv => 1 <= len (fst kv)) uni
      /\ Forall (fun kv => 2 <= len (fst kv)) bi
      /\ Forall (fun kv => 3 <= len (fst kv)) tri.
Proof.
  assert (U : forall x (y : string),
             uni_entry str_F backoff x = Ok y -> 1 <= len (fst x)).
  { intros x y Hy. destruct (uni_entry_result backoff x) as [[H _]|[_ H]];
      [ exact H | congruence ]. }
  assert (B : forall x (y : string),
             bi_entry str_F backoff x = Ok y -> 2 <= len (fst x)).
  { intros x y Hy. destruct (bi_entry_result backoff x) as [[H _]|[_ H]];
      [ exact H | congruence ]. }
  assert (T : forall x (y : string),
             tri_entry str_F x = Ok y -> 3 <= len (fst x)).
  { intros x y Hy. destruct (tri_entry_result x) as [[H _]|[_ H]];
      [ exact H | congruence ]. }
  split.
  - intros (out & Hout). unfold print_to_file in Hout. cbn zeta in Hout.
    destruct (mapM (uni_entry str_F backoff)
                   (sorted_desc (pair_lt F_lt F_eq) uni))
      as [rows1|e] eqn:E1; cbn [bind] in Hout; [ | discriminate ].
    destruct (mapM (bi_entry str_F backoff)
                   (sorted_desc (pair_lt F_lt F_eq) bi))
      as [rows2|e] eqn:E2; cbn [bind] in Hout; [ | discriminate ].
    destruct (mapM (tri_entry str_F) (sorted_desc F_lt tri))
      as [rows3|e] eqn:E3; cbn [bind] in Hout; [ | discriminate ].
    apply (mapM_Ok_inv _ _ _ _ _ _ U) in E1.
    apply (mapM_Ok_inv _ _ _ _ _ _ B) in E2.
    apply (mapM_Ok_inv _ _ _ _ _ _ T) in E3.
    split; [ | split ].
    + exact (Permutation_Forall
               (sorted_desc_perm _ _ (pair_lt F_lt F_eq) uni) E1).
    + exact (Permutation_Forall
               (sorted_desc_perm _ _ (pair_lt F_lt F_eq) bi) E2).
    + exact (Permutation_Forall (sorted_desc_perm _ _ F_lt tri) E3).
  - intros (A1 & A2 & A3).
    destruct (print_to_file_rows F str_F F_lt F_eq uni bi tri backoff
                                 smoothing A1 A2 A3)
      as (rows1 & rows2 & rows3 & Hrun & _).
    eexists. exact Hrun.
Qed.

(** What the loops over the rows raise is [IndexError]. *)
Lemma rows_raise_IndexError (uni bi : dict (F * F)) (tri : dict F)
      (backoff : bool) (smoothing : string) (e : exn) :
  print_to_file str_F F_lt F_eq uni bi tri backoff smoothing = Error e ->
  e = IndexError.
Proof.
  intros He. unfold print_to_file in He. cbn zeta in He.
  destruct (mapM (uni_entry str_F backoff)
                 (sorted_desc (pair_lt F_lt F_eq) uni))
    as [rows1|e1] eqn:E1; cbn [bind] in He.
  - destruct (mapM (bi_entry str_F backoff)
                   (sorted_desc (pair_lt F_lt F_eq) bi))
      as [rows2|e2] eqn:E2; cbn [bind] in He.
    + destruct (mapM (tri_entry str_F) (sorted_desc F_lt tri))
        as [rows3|e3] eqn:E3; cbn [bind] in He; [ discriminate | ].
      injection He as <-. apply mapM_Error_inv in E3.
      destruct E3 as (x & _ & Hx).
      destruct (tri_entry_result x) as [[_ (r & H)]|[_ H]]; congruence.
    + injection He as <-. apply mapM_Error_inv in E2.
      destruct E2 as (x & _ & Hx).
      destruct (bi_entry_result backoff x) as [[_ (r & H)]|[_ H]];
        congruence.
  - injection He as <-. apply mapM_Error_inv in E1.
    destruct E1 as (x & _ & Hx).
    destruct (uni_entry_result backoff x) as [[_ (r & H)]|[_ H]];
      congruence.
Qed.

Variable opens : string -> option exn.

Lemma print_to_file_on_opened (uni bi : dict (F * F)) (tri : dict F)
      (backoff : bool) (smoothing : string) :
  opens (file_name backoff smoothing) = None ->
  print_to_file_on str_F F_lt F_eq opens uni bi tri backoff smoothing
  = print_to_file str_F F_lt F_eq uni bi tri backoff smoothing.
Proof. intros H. unfold print_to_file_on, open_w. now rewrite H. Qed.

Lemma print_to_file_on_refused (uni bi : dict (F * F)) (tri : dict F)
      (backoff : bool) (smoothing : string) (e : exn) :
  opens (file_name backoff smoothing) = Some e ->
  print_to_file_on str_F F_lt F_eq opens uni bi tri backoff smoothing
  = Error e.
Proof. intros H. unfold print_to_file_on, open_w. now rewrite H. Qed.


(** X8. [print_to_file] returns exactly when the file can be opened and
    every unigram key has at least one word, every bigram key at least two
    and every trigram key at least three.  When it does not return, what
    it raises is what [open] raises, and if the file could be opened,
    [IndexError]. *)
Theorem print_to_file_returns_iff (uni bi : dict (F * F)) (tri : dict F)
        (backoff : bool) (smoothing : string) :
  ((exists out,
       print_to_file_on str_F F_lt F_eq opens uni bi tri backoff smoothing
       = Ok out)
   <-> opens (file_name backoff smoothing) = None
       /\ Forall (fun kv => 1 <= len (fst kv)) uni
       /\ Forall (fun kv => 2 <= len (fst kv)) bi
       /\ Forall (fun kv => 3 <= len (fst kv)) tri)
  /\ (forall e,
        opens (file_name backoff smoothing) = Some e ->
        print_to_file_on str_F F_lt F_eq opens uni bi tri backoff smoothing
        = Error e)
  /\ (forall e,
        opens (file_name backoff smoothing) = None ->
        print_to_file_on str_F F_lt F_eq opens uni bi tri backoff smoothing
        = Error e ->
        e = IndexError).
Proof.
  split; [ split | split ].
  - intros (out & Hout).
    destruct (opens (file_name backoff smoothing)) as [e'|] eqn:Eo.
    + rewrite (print_to_file_on_refused _ _ _ _ _ e' Eo) in Hout.
      discriminate Hout.
    + split; [ reflexivity | ].
      rewrite print_to_file_on_opened in Hout by exact Eo.
      apply (rows_written_iff uni bi tri backoff smoothing).
      now exists out.
  - intros (Eo & HA). rewrite print_to_file_on_opened by exact Eo.
    now apply rows_written_iff.
  - intros e. apply print_to_file_on_refused.
  - intros e Eo He. rewrite print_to_file_on_opened in He by exact Eo.
    exact (rows_raise_IndexError _ _ _ _ _ _ He).
Qed.

End ArpaMore.

Section FileName.

Import Ngrams Arpa Notions.
Local Open Scope string_scope.

Lemma list_ascii_of_string_inj (a b : string) :
  list_ascii_of_string a = list_ascii_of_string b -> a = b.
Proof.
  intros H. rewrite <- (string_of_list_ascii_of_string a).
  rewrite <- (string_of_list_ascii_of_string b). now rewrite H.
Qed.

(** X9. The name of the file tells the configuration apart: two runs
    write to the same file only if they have the same smoothing and the
    same backoff flag. *)
Theorem file_name_injective (backoff backoff' : bool)
        (smoothing smoothing' : string) :
  file_name backoff smoothing = file_name backoff' smoothing' ->
  backoff = backoff' /\ smoothing = smoothing'.
Proof.
  unfold file_name. cbn zeta. intros H.
  apply (f_equal list_ascii_of_string) in H.
  rewrite !list_ascii_of_string_app in H.
  apply app_inv_head in H.
  apply (f_equal (@rev ascii)) in H.
  rewrite !rev_app_distr in H.
  destruct backoff, backoff'; cbn in H.
  - split; [ reflexivity | ].
    injection H as H. apply (f_equal (@rev ascii)) in H.
    rewrite !rev_involutive in H. now apply list_ascii_of_string_inj.
  - discriminate H.
  - discriminate H.
  - split; [ reflexivity | ].
    injection H as H. apply (f_equal (@rev ascii)) in H.
    rewrite !rev_involutive in H. now apply list_ascii_of_string_inj.
Qed.

Lemma file_name_injective_witness :
  file_name true "none" = file_name true "none"
  /\ true = true /\ "none" = "none".
Proof.
  split; [ reflexivity | ].
  exact (file_name_injective true true "none" "none" eq_refl).
Defined.

End FileName.

Section SortedOnce.

Import Ngrams Arpa Notions.
Local Open Scope string_scope.

Lemma no_ties_perm (K V : Type) (lt : V -> V -> bool) (l l' : list (K * V)) :
  Permutation l l' -> no_ties lt l -> no_ties lt l'.
Proof.
  intros Hp Hl x y Hx Hy. apply Hl.
  - exact (Permutation_in _ (Permutation_sym Hp) Hx).
  - exact (Permutation_in _ (Permutation_sym Hp) Hy).
Qed.

(** Without ties there is one way only to put the entries in descending
    order. *)
Lemma descending_unique (K V : Type) (lt : V -> V -> bool)
      (l l' : list (K * V)) :
  Permutation l l' ->
  no_ties lt l ->
  StronglySorted (fun x y => lt (snd x) (snd y) = false) l ->
  StronglySorted (fun x y => lt (snd x) (snd y) = false) l' ->
  l = l'.
Proof.
  revert l'. induction l as [|x l IH]; intros l' Hp Hnt Hs Hs'.
  - apply Permutation_nil in Hp. now subst.
  - destruct l' as [|y l'];
      [ apply Permutation_sym, Permutation_nil in Hp; discriminate | ].
    apply StronglySorted_inv in Hs, Hs'.
    destruct Hs as [Hs Hx], Hs' as [Hs' Hy].
    rewrite Forall_forall in Hx, Hy.
    assert (Exy : x = y).
    { assert (Hxin : In x (y :: l'))
        by (apply (Permutation_in _ Hp); now left).
      destruct Hxin as [E|Hxin]; [ now symmetry | ].
      assert (Hyin : In y (x :: l))
        by (apply (Permutation_in _ (Permutation_sym Hp)); now left).
      destruct Hyin as [E|Hyin]; [ exact E | ].
      apply Hnt; [ now left | now right | ].
      unfold tied. rewrite (Hx y Hyin), (Hy x Hxin). reflexivity. }
    subst y. f_equal. apply IH.
    + exact (Permutation_cons_inv Hp).
    + intros a b Ha Hb. apply Hnt; now right.
    + exact Hs.
    + exact Hs'.
Qed.

Variable F : Type.
Variable str_F : F -> string.
Variables F_lt F_eq : F -> F -> bool.

Lemma sorted_desc_perm_eq (V : Type) (lt : V -> V -> bool)
      (l l' : dict V) :
  strict_weak_order lt ->
  Permutation l l' -> no_ties lt l ->
  sorted_desc lt l = sorted_desc lt l'.
Proof.
  intros Hord Hp Hnt. apply (descending_unique _ _ lt).
  - rewrite (sorted_desc_perm _ _ lt l), Hp.
    symmetry. apply sorted_desc_perm.
  - apply (no_ties_perm _ _ lt l); [ | exact Hnt ].
    symmetry. apply sorted_desc_perm.
  - now apply sorted_desc_sorted.
  - now apply sorted_desc_sorted.
Qed.

(** X10. Where no two entries of a table have equal values, the file does
    not depend on the order of the entries in the tables: the same entries
    in another order give the same file. *)
Theorem print_to_file_order_free (uni uni' bi bi' : dict (F * F))
        (tri tri' : dict F) (backoff : bool) (smoothing : string) :
  strict_weak_order F_lt ->
  eq_agrees F_lt F_eq ->
  Permutation uni uni' -> Permutation bi bi' -> Permutation tri tri' ->
  no_ties (pair_lt F_lt F_eq) uni ->
  no_ties (pair_lt F_lt F_eq) bi ->
  no_ties F_lt tri ->
  print_to_file str_F F_lt F_eq uni bi tri backoff smoothing
  = print_to_file str_F F_lt F_eq uni' bi' tri' backoff smoothing.
Proof.
  intros Hord Heq P1 P2 P3 N1 N2 N3.
  pose proof (pair_lt_order F F_lt F_eq Hord Heq) as Hpair.
  unfold print_to_file. cbn zeta.
  rewrite (sorted_desc_perm_eq _ _ uni uni' Hpair P1 N1).
  rewrite (sorted_desc_perm_eq _ _ bi bi' Hpair P2 N2).
  rewrite (sorted_desc_perm_eq _ _ tri tri' Hord P3 N3).
  unfold len.
  now rewrite (Permutation_length P1), (Permutation_length P2),
    (Permutation_length P3).
Qed.

End SortedOnce.

Section FileLines.

Import Ngrams Arpa Notions.
Local Open Scope string_scope.

Lemma string_app_assoc (a b c : string) : (a ++ b) ++ c = a ++ b ++ c.
Proof. induction a as [|x a IH]; cbn; [ reflexivity | now rewrite IH ]. Qed.

Lemma free_of_app (c : ascii) (a b : string) :
  free_of c a -> free_of c b -> free_of c (a ++ b).
Proof.
  unfold free_of. rewrite list_ascii_of_string_app. intros Ha Hb Hin.
  apply in_app_or in Hin. tauto.
Qed.

Lemma split_on_free (A : Type) (is_sep : A -> bool) (l : list A) :
  Forall (fun x => is_sep x = false) l -> split_on is_sep l = [l].
Proof.
  induction 1 as [|x l Hx _ IH]; cbn [split_on]; [ reflexivity | ].
  now rewrite Hx, IH.
Qed.

Lemma str_split_free (c : ascii) (s : string) :
  free_of c s -> str_split c s = [s].
Proof.
  intros Hs. unfold str_split. rewrite split_on_free.
  - cbn. now rewrite string_of_list_ascii_of_string.
  - apply Forall_forall. intros x Hx.
    destruct (Ascii.eqb_spec c x) as [->|]; [ contradiction | reflexivity ].
Qed.

(** A line and what follows it. *)
Lemma str_split_line (s rest : string) :
  free_of newline s ->
  str_split newline (s ++ nl ++ rest) = s :: str_split newline rest.
Proof.
  intros Hs. change (nl ++ rest) with (String newline rest).
  now rewrite str_split_app, str_split_free.
Qed.

Lemma str_split_nl (rest : string) :
  str_split newline (nl ++ rest) = EmptyString :: str_split newline rest.
Proof.
  apply (str_split_line EmptyString). intros [].
Qed.

Lemma str_split_rows (rows : list string) (rest : string) :
  Forall (free_of newline) rows ->
  str_split newline (write_rows rows ++ rest)
  = (rows ++ str_split newline rest)%list.
Proof.
  induction 1 as [|r rows Hr _ IH]; [ reflexivity | ].
  cbn [write_rows]. rewrite !string_app_assoc.
  now rewrite str_split_line, IH.
Qed.

Lemma uint_free (d : Decimal.uint) :
  free_of newline (DecimalString.NilEmpty.string_of_uint d).
Proof.
  unfold free_of.
  induction d; cbn; intros H;
    try (destruct H as [H|H]; [ discriminate H | now apply IHd ]).
  exact H.
Qed.

(** A number is printed on one line. *)
Lemma str_int_free (z : Z) : free_of newline (str_int z).
Proof.
  unfold str_int, DecimalString.NilZero.string_of_int.
  destruct (Z.to_int z) as [d|d].
  - unfold DecimalString.NilZero.string_of_uint.
    destruct d; try apply uint_free.
    unfold free_of. cbn. intros [H|[]]. discriminate H.
  - unfold DecimalString.NilZero.string_of_uint.
    assert (Hd : free_of newline
                   (match d with
                    | Decimal.Nil => "0"
                    | _ => DecimalString.NilEmpty.string_of_uint d
                    end)).
    { destruct d; try apply uint_free.
      unfold free_of. cbn. intros [H|[]]. discriminate H. }
    unfold free_of in *. cbn. intros [H|H]; [ discriminate H | tauto ].
Qed.

(** Read line by line, the file is the preamble, then each header and its
    rows, then the end marker, provided no row holds a newline. *)
Lemma document_by_lines (n1 n2 n3 : Z) (rows1 rows2 rows3 : list string) :
  Forall (free_of newline) rows1 ->
  Forall (free_of newline) rows2 ->
  Forall (free_of newline) rows3 ->
  str_split newline (document n1 n2 n3 rows1 rows2 rows3)
  = document_lines n1 n2 n3 rows1 rows2 rows3.
Proof.
  intros R1 R2 R3.
  assert (Hlit : forall s, free_of newline s ->
                           forall z, free_of newline (s ++ str_int z))
    by (intros s Hs z; apply free_of_app; [ exact Hs | apply str_int_free ]).
  assert (Hfree : forall s : string,
             existsb (Ascii.eqb newline) (list_ascii_of_string s) = false ->
             free_of newline s).
  { intros s Hs Hin. apply not_true_iff_false in Hs. apply Hs.
    apply existsb_exists. exists newline.
    split; [ exact Hin | apply Ascii.eqb_refl ]. }
  unfold document, document_lines.
  rewrite str_split_nl.
  rewrite (str_split_line "\data\") by (apply Hfree; reflexivity).
  rewrite <- (string_app_assoc "ngram 1=").
  rewrite str_split_line by (apply Hlit, Hfree; reflexivity).
  rewrite <- (string_app_assoc "ngram 2=").
  rewrite str_split_line by (apply Hlit, Hfree; reflexivity).
  rewrite <- (string_app_assoc "ngram 3=").
  rewrite str_split_line by (apply Hlit, Hfree; reflexivity).
  rewrite str_split_nl.
  rewrite (str_split_line "\1-grams:") by (apply Hfree; reflexivity).
  rewrite str_split_rows by exact R1.
  rewrite str_split_nl.
  rewrite (str_split_line "\2-grams:") by (apply Hfree; reflexivity).
  rewrite str_split_rows by exact R2.
  rewrite str_split_nl.
  rewrite (str_split_line "\3-grams:") by (apply Hfree; reflexivity).
  rewrite str_split_rows by exact R3.
  rewrite str_split_nl.
  rewrite (str_split_free newline "\end\") by (apply Hfree; reflexivity).
  reflexivity.
Qed.

End FileLines.

Section FileByLines.

Import Ngrams Arpa Notions.
Local Open Scope string_scope.

Lemma Forall2_rows (A : Type) (P : A -> Prop) (R : A -> string -> Prop)
      (l : list A) (rows : list string) :
  (forall x row, P x -> R x row -> free_of newline row) ->
  Forall P l -> Forall2 R l rows -> Forall (free_of newline) rows.
Proof.
  intros H HP HR. induction HR as [|x row l rows Hx _ IH]; constructor.
  - apply (H x); [ now inversion HP | exact Hx ].
  - apply IH. now inversion HP.
Qed.

Lemma space_free : free_of newline " ".
Proof. intros [H|[]]. discriminate H. Qed.

Variable F : Type.
Variable str_F : F -> string.
Variables F_lt F_eq : F -> F -> bool.
Hypothesis str_F_free : forall x, free_of newline (str_F x).

Lemma uni_row_free (backoff : bool) (kv : ngram * (F * F)) (row : string) :
  Forall (free_of newline) (fst kv) ->
  uni_row str_F backoff kv row -> free_of newline row.
Proof.
  intros Hk (w & rest & Hkey & ->). rewrite Hkey in Hk.
  inversion Hk; subst.
  destruct backoff;
    repeat (apply free_of_app;
            [ first [ apply str_F_free | apply space_free | assumption ] | ]);
    first [ apply str_F_free | assumption ].
Qed.

Lemma bi_row_free (backoff : bool) (kv : ngram * (F * F)) (row : string) :
  Forall (free_of newline) (fst kv) ->
  bi_row str_F backoff kv row -> free_of newline row.
Proof.
  intros Hk (w1 & w2 & rest & Hkey & ->). rewrite Hkey in Hk.
  inversion Hk as [|? ? H1 Hk']; subst. inversion Hk'; subst.
  destruct backoff;
    repeat (apply free_of_app;
            [ first [ apply str_F_free | apply space_free | assumption ] | ]);
    first [ apply str_F_free | assumption ].
Qed.

Lemma tri_row_free (kv : ngram * F) (row : string) :
  Forall (free_of newline) (fst kv) ->
  tri_row str_F kv row -> free_of newline row.
Proof.
  intros Hk (w1 & w2 & w3 & rest & Hkey & ->). rewrite Hkey in Hk.
  inversion Hk as [|? ? H1 Hk']; subst.
  inversion Hk' as [|? ? H2 Hk'']; subst. inversion Hk''; subst.
  repeat (apply free_of_app;
          [ first [ apply str_F_free | apply space_free | assumption ] | ]);
    assumption.
Qed.

(** X11. Where neither the words of the keys nor the printed floats hold
    a newline, the file read back line by line is: an empty line,
    [\data\], the three counts, and for each section an empty line, its
    header and one line for each row, then an empty line and [\end\];
    thirteen lines and one more for each entry of the three tables. *)
Theorem file_read_by_lines (uni bi : dict (F * F)) (tri : dict F)
        (backoff : bool) (smoothing : string) :
  Forall (fun kv => 1 <= len (fst kv)
                    /\ Forall (free_of newline) (fst kv)) uni ->
  Forall (fun kv => 2 <= len (fst kv)
                    /\ Forall (free_of newline) (fst kv)) bi ->
  Forall (fun kv => 3 <= len (fst kv)
                    /\ Forall (free_of newline) (fst kv)) tri ->
  exists rows1 rows2 rows3,
    print_to_file str_F F_lt F_eq uni bi tri backoff smoothing
    = Ok (file_name backoff smoothing,
          document (len uni) (len bi) (len tri) rows1 rows2 rows3)
    /\ str_split newline
         (document (len uni) (len bi) (len tri) rows1 rows2 rows3)
       = document_lines (len uni) (len bi) (len tri) rows1 rows2 rows3
    /\ len (str_split newline
              (document (len uni) (len bi) (len tri) rows1 rows2 rows3))
       = 13 + len uni + len bi + len tri.
Proof.
  intros H1 H2 H3.
  assert (A1 : Forall (fun kv => 1 <= len (fst kv)) uni)
    by (revert H1; apply Forall_impl; tauto).
  assert (A2 : Forall (fun kv => 2 <= len (fst kv)) bi)
    by (revert H2; apply Forall_impl; tauto).
  assert (A3 : Forall (fun kv => 3 <= len (fst kv)) tri)
    by (revert H3; apply Forall_impl; tauto).
  destruct (print_to_file_rows F str_F F_lt F_eq uni bi tri backoff smoothing
                               A1 A2 A3)
    as (rows1 & rows2 & rows3 & Hrun & R1 & R2 & R3).
  assert (K1 : Forall (fun kv => Forall (free_of newline) (fst kv))
                      (sorted_desc (pair_lt F_lt F_eq) uni)).
  { apply (Permutation_Forall
             (Permutation_sym
                (sorted_desc_perm _ _ (pair_lt F_lt F_eq) uni))).
    revert H1. apply Forall_impl. tauto. }
  assert (K2 : Forall (fun kv => Forall (free_of newline) (fst kv))
                      (sorted_desc (pair_lt F_lt F_eq) bi)).
  { apply (Permutation_Forall
             (Permutation_sym
                (sorted_desc_perm _ _ (pair_lt F_lt F_eq) bi))).
    revert H2. apply Forall_impl. tauto. }
  assert (K3 : Forall (fun kv => Forall (free_of newline) (fst kv))
                      (sorted_desc F_lt tri)).
  { apply (Permutation_Forall
             (Permutation_sym (sorted_desc_perm _ _ F_lt tri))).
    revert H3. apply Forall_impl. tauto. }
  pose proof (Forall2_rows _ _ _ _ _ (uni_row_free backoff) K1 R1) as F1.
  pose proof (Forall2_rows _ _ _ _ _ (bi_row_free backoff) K2 R2) as F2.
  pose proof (Forall2_rows _ _ _ _ _ tri_row_free K3 R3) as F3.
  exists rows1, rows2, rows3. split; [ exact Hrun | ].
  rewrite (document_by_lines _ _ _ _ _ _ F1 F2 F3).
  split; [ reflexivity | ].
  assert (L1 : len rows1 = len uni).
  { unfold len. rewrite <- (Forall2_length R1).
    apply (f_equal Z.of_nat), Permutation_length, sorted_desc_perm. }
  assert (L2 : len rows2 = len bi).
  { unfold len. rewrite <- (Forall2_length R2).
    apply (f_equal Z.of_nat), Permutation_length, sorted_desc_perm. }
  assert (L3 : len rows3 = len tri).
  { unfold len. rewrite <- (Forall2_length R3).
    apply (f_equal Z.of_nat), Permutation_length, sorted_desc_perm. }
  unfold document_lines. rewrite !len_app, L1, L2, L3.
  unfold len. cbn [List.length]. lia.
Qed.

End FileByLines.

Section ArpaMoreExamples.

Import Ngrams Arpa Notions Scenario.
Local Open Scope string_scope.


(** A smoothing string with a slash in it: the file is not opened, and
    nothing is written, whatever the tables. *)
Example slash_in_smoothing :
  print_to_file_on str_int Z.ltb Z.eqb plain_directory [] [] [] false "a/b"
  = Error FileNotFoundError
  /\ print_to_file str_int Z.ltb Z.eqb [] [] [] false "a/b"
     = Ok (file_name false "a/b", document 0 0 0 [] [] []).
Proof. split; reflexivity. Qed.

(** Two unigrams in either order. *)
Lemma print_to_file_order_free_witness :
  strict_weak_order Z.ltb
  /\ eq_agrees Z.ltb Z.eqb
  /\ Permutation [(["u"], (-3, 0)); (["v"], (-1, 1))]
                 [(["v"], (-1, 1)); (["u"], (-3, 0))]
  /\ Permutation aaaaa_bi aaaaa_bi
  /\ Permutation aaaaa_tri aaaaa_tri
  /\ no_ties (pair_lt Z.ltb Z.eqb) [(["u"], (-3, 0)); (["v"], (-1, 1))]
  /\ no_ties (pair_lt Z.ltb Z.eqb) aaaaa_bi
  /\ no_ties Z.ltb aaaaa_tri
  /\ print_to_file str_int Z.ltb Z.eqb
                   [(["u"], (-3, 0)); (["v"], (-1, 1))]
                   aaaaa_bi aaaaa_tri false "none"
     = print_to_file str_int Z.ltb Z.eqb
                     [(["v"], (-1, 1)); (["u"], (-3, 0))]
                     aaaaa_bi aaaaa_tri false "none".
Proof.
  assert (P1 : Permutation [(["u"], (-3, 0)); (["v"], (-1, 1))]
                           [(["v"], (-1, 1)); (["u"], (-3, 0))])
    by apply perm_swap.
  assert (P2 : Permutation aaaaa_bi aaaaa_bi) by reflexivity.
  assert (P3 : Permutation aaaaa_tri aaaaa_tri) by reflexivity.
  assert (N1 : no_ties (pair_lt Z.ltb Z.eqb)
                       [(["u"], (-3, 0)); (["v"], (-1, 1))]).
  { intros x y [<-|[<-|[]]] [<-|[<-|[]]] H;
      first [ reflexivity | discriminate H ]. }
  assert (N2 : no_ties (pair_lt Z.ltb Z.eqb) aaaaa_bi)
    by (intros x y [<-|[]] [<-|[]] _; reflexivity).
  assert (N3 : no_ties Z.ltb aaaaa_tri)
    by (intros x y [<-|[]] [<-|[]] _; reflexivity).
  split; [ exact Z_ltb_order | ]. split; [ exact Z_eqb_agrees | ].
  split; [ exact P1 | ]. split; [ exact P2 | ]. split; [ exact P3 | ].
  split; [ exact N1 | ]. split; [ exact N2 | ]. split; [ exact N3 | ].
  exact (print_to_file_order_free Z str_int Z.ltb Z.eqb _ _ _ _ _ _
           false "none" Z_ltb_order Z_eqb_agrees P1 P2 P3 N1 N2 N3).
Defined.

(** The model of ["a a a a a"] read back. *)
Lemma file_read_by_lines_witness :
  (forall x, free_of newline (str_int x))
  /\ Forall (fun kv => 1 <= len (fst kv)
                       /\ Forall (free_of newline) (fst kv)) aaaaa_uni
  /\ Forall (fun kv => 2 <= len (fst kv)
                       /\ Forall (free_of newline) (fst kv)) aaaaa_bi
  /\ Forall (fun kv => 3 <= len (fst kv)
                       /\ Forall (free_of newline) (fst kv)) aaaaa_tri
  /\ exists rows1 rows2 rows3,
       print_to_file str_int Z.ltb Z.eqb aaaaa_uni aaaaa_bi aaaaa_tri
                     true "none"
       = Ok (file_name true "none",
             document 1 1 1 rows1 rows2 rows3)
       /\ len (str_split newline (document 1 1 1 rows1 rows2 rows3)) = 16.
Proof.
  assert (Ha : free_of newline "a") by (intros [H|[]]; discriminate H).
  assert (H1 : Forall (fun kv => 1 <= len (fst kv)
                                 /\ Forall (free_of newline) (fst kv))
                      aaaaa_uni).
  { repeat constructor; [ vm_compute; discriminate | exact Ha ]. }
  assert (H2 : Forall (fun kv => 2 <= len (fst kv)
                                 /\ Forall (free_of newline) (fst kv))
                      aaaaa_bi).
  { repeat constructor; (exact Ha || (vm_compute; discriminate)). }
  assert (H3 : Forall (fun kv => 3 <= len (fst kv)
                                 /\ Forall (free_of newline) (fst kv))
                      aaaaa_tri).
  { repeat constructor; (exact Ha || (vm_compute; discriminate)). }
  split; [ exact str_int_free | ]. split; [ exact H1 | ].
  split; [ exact H2 | ]. split; [ exact H3 | ].
  destruct (file_read_by_lines Z str_int Z.ltb Z.eqb str_int_free
              aaaaa_uni aaaaa_bi aaaaa_tri true "none" H1 H2 H3)
    as (rows1 & rows2 & rows3 & Hrun & _ & Hlen).
  exists rows1, rows2, rows3. split; [ exact Hrun | exact Hlen ].
Defined.

End ArpaMoreExamples.

(* ================================================================== *)
(** * More on the unigram probabilities *)
(* ================================================================== *)

Section UnigramMore.

Import Ngrams Notions.

Lemma fold_left_Error (A B : Type) (step : result A -> B -> result A)
      (l : list B) (e : exn) :
  (forall x, step (Error e) x = Error e) ->
  fold_left step l (Error e) = Error e.
Proof.
  intros Hstep. induction l as [|x l IH]; cbn; [ reflexivity | ].
  now rewrite Hstep.
Qed.

Lemma dict_for_total (V W : Type) (f : ngram -> V -> result W)
      (d : dict V) (out0 : dict W) :
  (forall k v, In (k, v) d -> exists w, f k v = Ok w) ->
  exists out,
    fold_left
      (fun acc kv =>
         bind acc (fun out =>
         bind (f (fst kv) (snd kv)) (fun w =>
         Ok (dict_set (fst kv) w out))))
      d (Ok out0) = Ok out.
Proof.
  revert out0. induction d as [|[k v] d IH]; intros out0 Hf.
  - now exists out0.
  - destruct (Hf k v (or_introl eq_refl)) as (w & Hw).
    cbn [fold_left bind fst snd]. rewrite Hw. cbn [bind].
    apply IH. intros k' v' Hin. apply Hf. now right.
Qed.

Lemma count_le_total (d : dict Z) (k : ngram) (c : Z) :
  (forall k c, In (k, c) d -> 0 < c) ->
  In (k, c) d -> c <= sum_values d.
Proof.
  induction d as [|[k' c'] d IH]; intros Hpos Hin; [ destruct Hin | ].
  rewrite sum_values_cons.
  assert (Hc' : 0 < c') by (apply (Hpos k'); now left).
  assert (Hd : forall k c, In (k, c) d -> 0 < c)
    by (intros k0 c0 H0; apply (Hpos k0); now right).
  destruct Hin as [E|Hin].
  - injection E as -> ->.
    destruct d as [|kv d]; [ cbn; lia | ].
    assert (0 < sum_values (kv :: d))
      by (apply sum_values_positive; [ exact Hd | discriminate ]).
    lia.
  - specialize (IH Hd Hin). lia.
Qed.

End UnigramMore.

(* ================================================================== *)
(** * Floats: the division of two integers *)
(* ================================================================== *)

Section Rounding.

Import Binary64.

Lemma round_half_even_error (n d : Z) :
  0 < d -> 2 * Z.abs (round_half_even n d * d - n) <= d.
Proof.
  intros Hd. unfold round_half_even.
  pose proof (Z.div_mod n d ltac:(lia)) as E.
  pose proof (Z.mod_pos_bound n d Hd) as B.
  destruct (Z.compare_spec (2 * (n mod d)) d) as [H|H|H];
    [ destruct (Z.even (n / d)) | | ]; nia.
Qed.

Lemma round_half_even_mono (n1 n2 d : Z) :
  0 < d -> n1 <= n2 -> round_half_even n1 d <= round_half_even n2 d.
Proof.
  intros Hd Hn.
  pose proof (Z.div_le_mono n1 n2 d Hd Hn) as Hq.
  pose proof (Z.div_mod n1 d ltac:(lia)) as E1.
  pose proof (Z.div_mod n2 d ltac:(lia)) as E2.
  pose proof (Z.mod_pos_bound n1 d Hd) as B1.
  pose proof (Z.mod_pos_bound n2 d Hd) as B2.
  assert (L1 : n1 / d <= round_half_even n1 d <= n1 / d + 1).
  { unfold round_half_even.
    destruct (2 * (n1 mod d) ?= d); [ destruct (Z.even _) | | ]; lia. }
  assert (L2 : n2 / d <= round_half_even n2 d <= n2 / d + 1).
  { unfold round_half_even.
    destruct (2 * (n2 mod d) ?= d); [ destruct (Z.even _) | | ]; lia. }
  destruct (Z.eq_dec (n1 / d) (n2 / d)) as [Eq|Ne]; [ | lia ].
  assert (Hr : n1 mod d <= n2 mod d) by nia.
  unfold round_half_even. rewrite <- Eq.
  destruct (Z.compare_spec (2 * (n1 mod d)) d) as [H1|H1|H1];
    destruct (Z.compare_spec (2 * (n2 mod d)) d) as [H2|H2|H2];
    destruct (Z.even (n1 / d)); lia.
Qed.

Lemma round_half_even_exact (k d : Z) :
  0 < d -> round_half_even (k * d) d = k.
Proof.
  intros Hd. unfold round_half_even.
  rewrite Z.div_mul, Z.mod_mul by lia.
  destruct (Z.compare_spec (2 * 0) d); lia.
Qed.

Lemma round_half_even_ge (k n d : Z) :
  0 < d -> k * d <= n -> k <= round_half_even n d.
Proof.
  intros Hd H. rewrite <- (round_half_even_exact k d Hd).
  now apply round_half_even_mono.
Qed.

Lemma round_half_even_le (k n d : Z) :
  0 < d -> n <= k * d -> round_half_even n d <= k.
Proof.
  intros Hd H. rewrite <- (round_half_even_exact k d Hd).
  now apply round_half_even_mono.
Qed.

End Rounding.

Section Scaling.

Import Binary64.

Local Open Scope Q_scope.

Lemma two_power_pos (e : Z) : 0 < 2 ^ e.
Proof. apply Qpower_0_lt. reflexivity. Qed.

Lemma two_power_Z (e : Z) : (0 <= e)%Z -> 2 ^ e == inject_Z (2 ^ e).
Proof. intros He. now rewrite Zpower_Qpower. Qed.

Lemma two_power_add (e1 e2 : Z) : 2 ^ (e1 + e2) == 2 ^ e1 * 2 ^ e2.
Proof. apply Qpower_plus. discriminate. Qed.

Lemma two_power_le (e1 e2 : Z) : (e1 <= e2)%Z -> 2 ^ e1 <= 2 ^ e2.
Proof. intros H. apply Qpower_le_compat_l; [ exact H | discriminate ]. Qed.

Lemma two_power_lt_inv (e1 e2 : Z) : 2 ^ e1 < 2 ^ e2 -> (e1 < e2)%Z.
Proof. intros H. apply (Qpower_lt_compat_l_inv 2); [ exact H | reflexivity ]. Qed.

(** [a / (b * 2^e)] as the fraction it is computed from. *)
Lemma scaled_quotient (a b e : Z) :
  (0 < b)%Z ->
  inject_Z a / inject_Z b
  == inject_Z (scaled_num a e) / inject_Z (scaled_den b e) * 2 ^ e.
Proof.
  intros Hb. unfold scaled_num, scaled_den.
  assert (HbQ : ~ inject_Z b == 0).
  { intros H. unfold Qeq in H. cbn in H. lia. }
  pose proof (two_power_pos e) as Hp.
  pose proof (two_power_pos (- e)) as Hn.
  assert (Hinv : 2 ^ e * 2 ^ (- e) == 1).
  { rewrite <- two_power_add. now replace (e + - e)%Z with 0%Z by lia. }
  destruct (Z_le_gt_dec 0 e) as [He|He].
  - rewrite Z.max_l, Z.max_r by lia. rewrite Z.mul_1_r.
    rewrite inject_Z_mult, <- two_power_Z by lia.
    field. split; [ lra | exact HbQ ].
  - rewrite Z.max_r, Z.max_l by lia. rewrite Z.mul_1_r.
    rewrite inject_Z_mult, <- two_power_Z by lia.
    field_simplify_eq; [ | exact HbQ ].
    rewrite <- Qmult_assoc, (Qmult_comm (2 ^ (- e))), Hinv. ring.
Qed.

Lemma scaled_den_pos (b e : Z) : (0 < b)%Z -> (0 < scaled_den b e)%Z.
Proof.
  intros Hb. unfold scaled_den.
  assert (0 < 2 ^ Z.max 0 e)%Z by (apply Z.pow_pos_nonneg; lia). nia.
Qed.

Lemma scaled_num_nonneg (a e : Z) : (0 <= a)%Z -> (0 <= scaled_num a e)%Z.
Proof.
  intros Ha. unfold scaled_num.
  assert (0 < 2 ^ Z.max 0 (- e))%Z by (apply Z.pow_pos_nonneg; lia). nia.
Qed.

Lemma Qdiv_lt_mult (n d k : Z) :
  (0 < d)%Z -> (inject_Z n / inject_Z d < inject_Z k <-> (n < k * d)%Z).
Proof.
  intros Hd.
  assert (HdQ : 0 < inject_Z d) by (unfold Qlt; cbn; lia).
  split; intros H.
  - apply (Qmult_lt_r _ _ _ HdQ) in H.
    rewrite <- inject_Z_mult in H.
    assert (E : inject_Z n / inject_Z d * inject_Z d == inject_Z n)
      by (field; lra).
    rewrite E in H. now rewrite <- Zlt_Qlt in H.
  - apply (Qmult_lt_r _ _ _ HdQ).
    rewrite <- inject_Z_mult.
    assert (E : inject_Z n / inject_Z d * inject_Z d == inject_Z n)
      by (field; lra).
    rewrite E. now rewrite <- Zlt_Qlt.
Qed.

Lemma Qdiv_le_mult (n d k : Z) :
  (0 < d)%Z -> (inject_Z k <= inject_Z n / inject_Z d <-> (k * d <= n)%Z).
Proof.
  intros Hd. pose proof (Qdiv_lt_mult n d k Hd) as H.
  split; intros H1.
  - destruct (Z_le_gt_dec (k * d) n) as [L|G]; [ exact L | ].
    exfalso. assert (n < k * d)%Z by lia. apply H in H0. lra.
  - destruct (Qlt_le_dec (inject_Z n / inject_Z d) (inject_Z k)) as [L|G];
      [ | exact G ].
    apply H in L. lia.
Qed.

(** Comparing the scaled fraction with an integer is comparing the quotient
    with that integer times the power of two. *)
Lemma scaled_lt (a b e k : Z) :
  (0 < b)%Z ->
  ((scaled_num a e < k * scaled_den b e)%Z
   <-> inject_Z a / inject_Z b < inject_Z k * 2 ^ e).
Proof.
  intros Hb. rewrite (scaled_quotient a b e Hb).
  rewrite <- (Qdiv_lt_mult _ _ k (scaled_den_pos b e Hb)).
  pose proof (two_power_pos e) as Hp.
  split; intros H.
  - now apply Qmult_lt_r.
  - now apply Qmult_lt_r in H.
Qed.

Lemma scaled_le (a b e k : Z) :
  (0 < b)%Z ->
  ((k * scaled_den b e <= scaled_num a e)%Z
   <-> inject_Z k * 2 ^ e <= inject_Z a / inject_Z b).
Proof.
  intros Hb. rewrite (scaled_quotient a b e Hb).
  rewrite <- (Qdiv_le_mult _ _ k (scaled_den_pos b e Hb)).
  pose proof (two_power_pos e) as Hp.
  split; intros H.
  - now apply Qmult_le_r.
  - now apply Qmult_le_r in H.
Qed.

End Scaling.

Section Magnitude.

Import Binary64.

Local Open Scope Q_scope.

Lemma inject_Z_pos (z : Z) : (0 < z)%Z -> 0 < inject_Z z.
Proof. intros H. unfold Qlt. cbn. lia. Qed.

(** What [Z.log2] says of a positive integer, in the rationals. *)
Lemma log2_bounds (a : Z) :
  (0 < a)%Z -> 2 ^ Z.log2 a <= inject_Z a /\ inject_Z a < 2 ^ (Z.log2 a + 1).
Proof.
  intros Ha. pose proof (Z.log2_spec a Ha) as [L U].
  pose proof (Z.log2_nonneg a) as Hl.
  rewrite !two_power_Z by lia. split.
  - now rewrite <- Zle_Qle.
  - rewrite <- Zlt_Qlt. exact U.
Qed.

(** [ilog2 a b] is the integer part of the binary logarithm of [a / b]. *)
Lemma ilog2_spec (a b : Z) :
  (0 < a)%Z -> (0 < b)%Z ->
  2 ^ ilog2 a b <= inject_Z a / inject_Z b
  /\ inject_Z a / inject_Z b < 2 ^ (ilog2 a b + 1).
Proof.
  intros Ha Hb.
  destruct (log2_bounds a Ha) as [La Ua].
  destruct (log2_bounds b Hb) as [Lb Ub].
  pose proof (inject_Z_pos b Hb) as HbQ.
  set (d := (Z.log2 a - Z.log2 b)%Z).
  assert (Ea : 2 ^ Z.log2 a == 2 ^ d * 2 ^ Z.log2 b).
  { rewrite <- two_power_add. now replace (d + Z.log2 b)%Z with (Z.log2 a)
      by (unfold d; lia). }
  assert (Ea1 : 2 ^ (Z.log2 a + 1) == 2 ^ (d + 1) * 2 ^ Z.log2 b).
  { rewrite <- two_power_add.
    now replace (d + 1 + Z.log2 b)%Z with (Z.log2 a + 1)%Z
      by (unfold d; lia). }
  assert (Eb1 : 2 ^ (Z.log2 b + 1) == 2 * 2 ^ Z.log2 b).
  { rewrite two_power_add. ring. }
  assert (Ed : 2 ^ d == 2 * 2 ^ (d - 1)).
  { replace d with (d - 1 + 1)%Z at 1 by lia. rewrite two_power_add. ring. }
  assert (Ed1 : 2 ^ (d + 1) == 2 * 2 ^ d).
  { rewrite two_power_add. ring. }
  pose proof (two_power_pos d) as Pd.
  pose proof (two_power_pos (d - 1)) as Pd1.
  pose proof (two_power_pos (Z.log2 b)) as Pb.
  (* the quotient lies between 2^(d-1) and 2^(d+1) *)
  assert (Lo : 2 ^ (d - 1) <= inject_Z a / inject_Z b).
  { apply Qle_shift_div_l; [ exact HbQ | ].
    rewrite Ea, Ed in La. rewrite Eb1 in Ub. nra. }
  assert (Hi : inject_Z a / inject_Z b < 2 ^ (d + 1)).
  { apply Qlt_shift_div_r; [ exact HbQ | ].
    rewrite Ea1 in Ua. nra. }
  unfold ilog2. fold d.
  destruct (Z.ltb_spec (scaled_num a d) (scaled_den b d)) as [T|T].
  - replace (d - 1 + 1)%Z with d by lia. split; [ exact Lo | ].
    assert (T' : (scaled_num a d < 1 * scaled_den b d)%Z) by lia.
    apply (scaled_lt a b d 1 Hb) in T'.
    change (inject_Z 1) with 1 in T'. now rewrite Qmult_1_l in T'.
  - split; [ | exact Hi ].
    assert (T' : (1 * scaled_den b d <= scaled_num a d)%Z) by lia.
    apply (scaled_le a b d 1 Hb) in T'.
    change (inject_Z 1) with 1 in T'. now rewrite Qmult_1_l in T'.
Qed.

Lemma exponent_ge (a b : Z) :
  (emin <= exponent a b)%Z /\ (ilog2 a b - 52 <= exponent a b)%Z.
Proof. unfold exponent, prec. lia. Qed.

Lemma mantissa_nonneg (a b : Z) :
  (0 < a)%Z -> (0 < b)%Z -> (0 <= mantissa a b)%Z.
Proof.
  intros Ha Hb. unfold mantissa. cbn zeta.
  apply (round_half_even_ge 0); [ now apply scaled_den_pos | ].
  rewrite Z.mul_0_l. apply scaled_num_nonneg. lia.
Qed.

(** The mantissa has at most 53 bits, the power [2^53] included. *)
Lemma mantissa_le (a b : Z) :
  (0 < a)%Z -> (0 < b)%Z -> (mantissa a b <= 2 ^ 53)%Z.
Proof.
  intros Ha Hb. unfold mantissa. cbn zeta.
  apply round_half_even_le; [ now apply scaled_den_pos | ].
  apply Z.lt_le_incl. apply (scaled_lt a b _ _ Hb).
  destruct (ilog2_spec a b Ha Hb) as [_ U].
  destruct (exponent_ge a b) as [_ He].
  eapply Qlt_le_trans; [ exact U | ].
  rewrite <- two_power_Z by lia. rewrite <- two_power_add.
  apply two_power_le. lia.
Qed.

(** Above the subnormal range it has exactly 53 bits. *)
Lemma mantissa_ge (a b : Z) :
  (0 < a)%Z -> (0 < b)%Z ->
  (emin <= ilog2 a b - 52)%Z ->
  (2 ^ 52 <= mantissa a b)%Z /\ exponent a b = (ilog2 a b - 52)%Z.
Proof.
  intros Ha Hb Hn.
  assert (He : exponent a b = (ilog2 a b - 52)%Z)
    by (unfold exponent, prec; lia).
  split; [ | exact He ].
  unfold mantissa. cbn zeta. rewrite He.
  apply round_half_even_ge; [ now apply scaled_den_pos | ].
  apply (scaled_le a b _ _ Hb).
  destruct (ilog2_spec a b Ha Hb) as [L _].
  eapply Qle_trans; [ | exact L ].
  rewrite <- two_power_Z by lia. rewrite <- two_power_add.
  apply two_power_le. lia.
Qed.

End Magnitude.

Section Division.

Import Binary64.

Local Open Scope Q_scope.

Lemma two_power_le_inv (e1 e2 : Z) : 2 ^ e1 <= 2 ^ e2 -> (e1 <= e2)%Z.
Proof. intros H. apply (Qpower_le_compat_l_inv 2); [ exact H | reflexivity ]. Qed.

(** A quotient that is at most one has no positive exponent. *)
Lemma exponent_small (a b : Z) :
  (0 < a)%Z -> (0 < b)%Z -> (a <= b)%Z -> (exponent a b <= -52)%Z.
Proof.
  intros Ha Hb Hab.
  destruct (ilog2_spec a b Ha Hb) as [L _].
  assert (H1 : inject_Z a / inject_Z b <= 1).
  { apply Qle_shift_div_r; [ now apply inject_Z_pos | ].
    rewrite Qmult_1_l. now rewrite <- Zle_Qle. }
  assert (Hl : (ilog2 a b <= 0)%Z).
  { apply two_power_le_inv. change (2 ^ 0) with 1. lra. }
  unfold exponent, emin, prec. lia.
Qed.

(** What [true_div] returns on two positive integers. *)
Lemma true_div_positive (a b : Z) :
  (0 < a)%Z -> (0 < b)%Z ->
  true_div a b
  = if (mantissa a b =? 0)%Z then Ok (S754_zero false)
    else if (mantissa a b =? 2 ^ 53)%Z then
           if (exponent a b + 54 <=? emax)%Z
           then Ok (S754_finite false (2 ^ 52) (exponent a b + 1))
           else Error OverflowError
         else if (exponent a b + 53 <=? emax)%Z
              then Ok (S754_finite false (Z.to_pos (mantissa a b))
                                   (exponent a b))
              else Error OverflowError.
Proof.
  intros Ha Hb. unfold true_div.
  destruct (Z.eqb_spec b 0) as [|_]; [ lia | ].
  destruct (Z.eqb_spec a 0) as [|_]; [ lia | ].
  destruct (Z.ltb_spec a 0) as [|_]; [ lia | ].
  destruct (Z.ltb_spec b 0) as [|_]; [ lia | ].
  rewrite !Z.abs_eq by lia. cbn [xorb orb].
  destruct (mantissa a b =? 0)%Z; [ reflexivity | ].
  unfold prec.
  destruct (mantissa a b =? 2 ^ 53)%Z.
  - replace (exponent a b + 1 + 53)%Z with (exponent a b + 54)%Z by lia.
    reflexivity.
  - reflexivity.
Qed.

(** The number returned is the mantissa times two to the exponent. *)
Lemma true_div_value (a b : Z) (q : float) :
  (0 < a)%Z -> (0 < b)%Z ->
  true_div a b = Ok q ->
  value q == inject_Z (mantissa a b) * 2 ^ exponent a b.
Proof.
  intros Ha Hb. rewrite (true_div_positive a b Ha Hb).
  pose proof (mantissa_nonneg a b Ha Hb) as Hm.
  destruct (Z.eqb_spec (mantissa a b) 0) as [E0|N0].
  - intros [= <-]. rewrite E0. cbn [value]. change (inject_Z 0) with 0. ring.
  - destruct (Z.eqb_spec (mantissa a b) (2 ^ 53)) as [E|N].
    + destruct (_ <=? _)%Z; [ | discriminate ]. intros [= <-].
      cbn [value]. rewrite E, two_power_add.
      change (2 ^ 1) with 2.
      change (inject_Z (Z.pos (2 ^ 52))) with (inject_Z (2 ^ 52)).
      assert (H : inject_Z (2 ^ 53) == 2 * inject_Z (2 ^ 52)) by reflexivity.
      rewrite H. ring.
    + destruct (_ <=? _)%Z; [ | discriminate ]. intros [= <-].
      cbn [value]. rewrite Z2Pos.id by lia. reflexivity.
Qed.

(** A quotient of at most one is never too large for a float. *)
Lemma true_div_returns (a b : Z) :
  (0 < a)%Z -> (0 < b)%Z -> (a <= b)%Z -> exists q, true_div a b = Ok q.
Proof.
  intros Ha Hb Hab. rewrite (true_div_positive a b Ha Hb).
  pose proof (exponent_small a b Ha Hb Hab) as He.
  destruct (_ =? 0)%Z; [ eexists; reflexivity | ].
  destruct (_ =? 2 ^ 53)%Z.
  - destruct (Z.leb_spec (exponent a b + 54) emax) as [_|H];
      [ eexists; reflexivity | unfold emax in H; lia ].
  - destruct (Z.leb_spec (exponent a b + 53) emax) as [_|H];
      [ eexists; reflexivity | unfold emax in H; lia ].
Qed.

(** The sign does not decide whether [a / b] raises. *)
Lemma true_div_abs (a b : Z) :
  b <> 0%Z -> a <> 0%Z ->
  (exists q, true_div a b = Ok q)
  <-> (exists q, true_div (Z.abs a) (Z.abs b) = Ok q).
Proof.
  intros Hb Ha. unfold true_div.
  destruct (Z.eqb_spec b 0) as [|_]; [ contradiction | ].
  destruct (Z.eqb_spec (Z.abs b) 0) as [|_]; [ lia | ].
  destruct (Z.eqb_spec a 0) as [|_]; [ contradiction | ].
  destruct (Z.eqb_spec (Z.abs a) 0) as [|_]; [ lia | ].
  rewrite !Z.abs_idemp. cbn [orb].
  destruct (_ =? 0)%Z; [ split; intros _; eexists; reflexivity | ].
  destruct (_ =? 2 ^ prec)%Z;
    destruct (_ <=? emax)%Z;
    split; intros (q & H); try discriminate; eexists; reflexivity.
Qed.

(** What [a / b] can raise, and when. *)
Lemma true_div_raises (a b : Z) (e : exn) :
  true_div a b = Error e ->
  (b = 0%Z /\ e = ZeroDivisionError)
  \/ (b <> 0%Z /\ e = OverflowError /\ (Z.abs b < Z.abs a)%Z).
Proof.
  intros H. destruct (Z.eq_dec b 0) as [->|Hb].
  - left. split; [ reflexivity | ]. cbn in H. congruence.
  - right. split; [ exact Hb | ].
    assert (He : e = OverflowError).
    { unfold true_div in H. destruct (Z.eqb_spec b 0); [ contradiction | ].
      destruct (_ || _); [ discriminate | ].
      destruct (_ =? 2 ^ prec)%Z; destruct (_ <=? emax)%Z; congruence. }
    split; [ exact He | ].
    destruct (Z_lt_le_dec (Z.abs b) (Z.abs a)) as [L|G]; [ exact L | ].
    exfalso. destruct (Z.eq_dec a 0) as [->|Ha].
    + unfold true_div in H. destruct (Z.eqb_spec b 0); [ contradiction | ].
      discriminate H.
    + destruct (true_div_returns (Z.abs a) (Z.abs b)) as (q & Hq);
        [ lia | lia | exact G | ].
      assert (Hex : exists q, true_div a b = Ok q)
        by (apply (true_div_abs a b Hb Ha); now exists q).
      destruct Hex as (q' & Hq'). congruence.
Qed.

End Division.

Section Accuracy.

Import Binary64.

Local Open Scope Q_scope.

Lemma unit_roundoff_half : unit_roundoff * inject_Z (2 ^ 52) == 1 # 2.
Proof. reflexivity. Qed.

(** The mantissa is within one half of the scaled quotient. *)
Lemma mantissa_error (a b : Z) :
  (0 < a)%Z -> (0 < b)%Z ->
  Qabs (inject_Z (mantissa a b)
        - inject_Z (scaled_num a (exponent a b))
          / inject_Z (scaled_den b (exponent a b)))
  <= 1 # 2.
Proof.
  intros Ha Hb. unfold mantissa. cbn zeta.
  set (n := scaled_num a (exponent a b)).
  set (d := scaled_den b (exponent a b)).
  assert (Hd : (0 < d)%Z) by now apply scaled_den_pos.
  pose proof (round_half_even_error n d Hd) as H.
  set (m := round_half_even n d) in *.
  pose proof (inject_Z_pos d Hd) as HdQ.
  assert (E : inject_Z m - inject_Z n / inject_Z d
              == inject_Z (m * d - n) / inject_Z d).
  { unfold Zminus. rewrite inject_Z_plus, inject_Z_opp, inject_Z_mult. field. lra. }
  rewrite E. apply Qabs_Qle_condition. split.
  - apply Qle_shift_div_l; [ exact HdQ | ].
    assert (H' : (- d <= 2 * (m * d - n))%Z) by lia.
    rewrite Zle_Qle in H'.
    rewrite inject_Z_opp, inject_Z_mult in H'.
    change (inject_Z 2) with 2 in H'. lra.
  - apply Qle_shift_div_r; [ exact HdQ | ].
    assert (H' : (2 * (m * d - n) <= d)%Z) by lia.
    rewrite Zle_Qle in H'. rewrite inject_Z_mult in H'.
    change (inject_Z 2) with 2 in H'. lra.
Qed.

(** [a / b] is within half a unit in the last place of the quotient. *)
Lemma true_div_half_ulp (a b : Z) (q : float) :
  (0 < a)%Z -> (0 < b)%Z ->
  true_div a b = Ok q ->
  Qabs (value q - inject_Z a / inject_Z b) <= (1 # 2) * 2 ^ exponent a b.
Proof.
  intros Ha Hb Hq.
  rewrite (true_div_value a b q Ha Hb Hq).
  rewrite (scaled_quotient a b (exponent a b) Hb).
  pose proof (mantissa_error a b Ha Hb) as H.
  pose proof (two_power_pos (exponent a b)) as Hp.
  apply Qabs_Qle_condition in H. apply Qabs_Qle_condition.
  destruct H as [H1 H2]. split; nra.
Qed.

(** Above the subnormal range the error is at most the quotient times
    [2^-53]. *)
Lemma true_div_relative (a b : Z) (q : float) :
  (0 < a)%Z -> (0 < b)%Z ->
  (emin <= ilog2 a b - 52)%Z ->
  true_div a b = Ok q ->
  Qabs (value q - inject_Z a / inject_Z b)
  <= unit_roundoff * (inject_Z a / inject_Z b).
Proof.
  intros Ha Hb Hn Hq.
  pose proof (true_div_half_ulp a b q Ha Hb Hq) as H.
  eapply Qle_trans; [ exact H | ].
  destruct (mantissa_ge a b Ha Hb Hn) as [_ He]. rewrite He.
  destruct (ilog2_spec a b Ha Hb) as [L _].
  assert (E : 2 ^ ilog2 a b == 2 ^ (ilog2 a b - 52) * inject_Z (2 ^ 52)).
  { rewrite <- two_power_Z by lia. rewrite <- two_power_add.
    now replace (ilog2 a b - 52 + 52)%Z with (ilog2 a b) by lia. }
  pose proof unit_roundoff_half as U.
  pose proof (two_power_pos (ilog2 a b - 52)) as Hp.
  assert (Hu : 0 < unit_roundoff) by reflexivity.
  rewrite E in L.
  apply (Qmult_le_l _ _ _ Hu) in L.
  rewrite (Qmult_comm (2 ^ _)), Qmult_assoc, U in L. exact L.
Qed.

(** A quotient of at most one gives a float of at most one. *)
Lemma true_div_range (a b : Z) (q : float) :
  (0 < a)%Z -> (0 < b)%Z -> (a <= b)%Z ->
  true_div a b = Ok q ->
  0 <= value q <= 1.
Proof.
  intros Ha Hb Hab Hq.
  rewrite (true_div_value a b q Ha Hb Hq).
  pose proof (mantissa_nonneg a b Ha Hb) as Hm.
  pose proof (two_power_pos (exponent a b)) as Hp.
  pose proof (exponent_small a b Ha Hb Hab) as He.
  split.
  - rewrite Zle_Qle in Hm. change (inject_Z 0) with 0 in Hm. nra.
  - set (e := exponent a b) in *.
    assert (Hk : (mantissa a b <= 2 ^ (- e))%Z).
    { unfold mantissa. cbn zeta. fold e.
      apply round_half_even_le; [ now apply scaled_den_pos | ].
      unfold scaled_num, scaled_den.
      rewrite Z.max_r, Z.max_l by lia. rewrite Z.mul_1_r.
      assert (0 < 2 ^ (- e))%Z by (apply Z.pow_pos_nonneg; lia). nia. }
    rewrite Zle_Qle in Hk. rewrite <- two_power_Z in Hk by lia.
    assert (E : 2 ^ (- e) * 2 ^ e == 1).
    { rewrite <- two_power_add. now replace (- e + e)%Z with 0%Z by lia. }
    nra.
Qed.

(** Equal counts aside, a larger numerator never gives a smaller float. *)
Lemma true_div_mono (a1 a2 b : Z) (q1 q2 : float) :
  (0 < a1)%Z -> (a1 <= a2)%Z -> (0 < b)%Z ->
  true_div a1 b = Ok q1 -> true_div a2 b = Ok q2 ->
  value q1 <= value q2.
Proof.
  intros Ha1 Ha Hb H1 H2.
  assert (Ha2 : (0 < a2)%Z) by lia.
  rewrite (true_div_value a1 b q1 Ha1 Hb H1).
  rewrite (true_div_value a2 b q2 Ha2 Hb H2).
  destruct (ilog2_spec a1 b Ha1 Hb) as [L1 _].
  destruct (ilog2_spec a2 b Ha2 Hb) as [_ U2].
  pose proof (inject_Z_pos b Hb) as HbQ.
  assert (Hx : inject_Z a1 / inject_Z b <= inject_Z a2 / inject_Z b).
  { apply Qmult_le_compat_r; [ now rewrite <- Zle_Qle | ].
    apply Qinv_le_0_compat. lra. }
  assert (Hl : (ilog2 a1 b <= ilog2 a2 b)%Z).
  { assert (ilog2 a1 b < ilog2 a2 b + 1)%Z; [ | lia ].
    apply two_power_lt_inv. lra. }
  assert (He : (exponent a1 b <= exponent a2 b)%Z)
    by (unfold exponent; lia).
  destruct (Z.eq_dec (exponent a1 b) (exponent a2 b)) as [E|N].
  - assert (Hm : (mantissa a1 b <= mantissa a2 b)%Z).
    { unfold mantissa. cbn zeta. rewrite E.
      apply round_half_even_mono; [ now apply scaled_den_pos | ].
      unfold scaled_num.
      assert (0 < 2 ^ Z.max 0 (- exponent a2 b))%Z
        by (apply Z.pow_pos_nonneg; lia).
      nia. }
    rewrite E. rewrite Zle_Qle in Hm.
    pose proof (two_power_pos (exponent a2 b)). nra.
  - assert (Hn : (emin <= ilog2 a2 b - 52)%Z).
    { destruct (exponent_ge a1 b) as [G _].
      unfold exponent, prec in *. lia. }
    destruct (mantissa_ge a2 b Ha2 Hb Hn) as [G2 E2].
    pose proof (mantissa_le a1 b Ha1 Hb) as G1.
    rewrite Zle_Qle in G1, G2.
    assert (P : 2 ^ exponent a2 b
                == 2 ^ (exponent a2 b - exponent a1 b - 1) * 2
                   * 2 ^ exponent a1 b).
    { change 2 with (2 ^ 1) at 3. rewrite <- !two_power_add.
      now replace (exponent a2 b - exponent a1 b - 1 + 1 + exponent a1 b)%Z
        with (exponent a2 b) by lia. }
    assert (P1 : 1 <= 2 ^ (exponent a2 b - exponent a1 b - 1)).
    { change 1 with (2 ^ 0). apply two_power_le. lia. }
    pose proof (two_power_pos (exponent a1 b)) as Hp.
    assert (T : inject_Z (2 ^ 53) == 2 * inject_Z (2 ^ 52)) by reflexivity.
    rewrite P. rewrite T in G1.
    set (m1 := inject_Z (mantissa a1 b)) in *.
    set (m2 := inject_Z (mantissa a2 b)) in *.
    set (c := inject_Z (2 ^ 52)) in *.
    assert (Hc : 0 < c) by reflexivity.
    set (p := 2 ^ exponent a1 b) in *.
    set (k := 2 ^ (exponent a2 b - exponent a1 b - 1)) in *.
    assert (S1 : m1 * p <= 2 * c * p) by nra.
    assert (S2 : 2 * c * p <= k * 2 * c * p).
    { assert (0 <= c * p) by nra. nra. }
    assert (S3 : k * 2 * c * p <= m2 * (k * 2 * p)).
    { assert (0 <= k * 2 * p) by nra. nra. }
    lra.
Qed.

End Accuracy.

(* ================================================================== *)
(** * Floats: the division is correctly rounded *)
(* ================================================================== *)

Section Format.

Import Binary64.

Lemma digits2_pos_spec (m : positive) :
  2 ^ (Z.pos (digits2_pos m) - 1) <= Z.pos m < 2 ^ Z.pos (digits2_pos m).
Proof.
  induction m as [m IH|m IH|]; cbn [digits2_pos].
  - rewrite Pos2Z.inj_succ.
    replace (Z.succ (Z.pos (digits2_pos m)) - 1)
      with (Z.succ (Z.pos (digits2_pos m) - 1)) by lia.
    rewrite !Z.pow_succ_r by lia. lia.
  - rewrite Pos2Z.inj_succ.
    replace (Z.succ (Z.pos (digits2_pos m)) - 1)
      with (Z.succ (Z.pos (digits2_pos m) - 1)) by lia.
    rewrite !Z.pow_succ_r by lia. lia.
  - cbn. lia.
Qed.

(** What the Standard Library's [valid_binary] asks of a finite number of
    binary64. *)
Lemma valid_finite (s : bool) (m : positive) (e : Z) :
  valid_binary prec emax (S754_finite s m e) = true
  <-> emin <= e <= emax - prec
      /\ Z.pos m < 2 ^ 53
      /\ (emin < e -> 2 ^ 52 <= Z.pos m).
Proof.
  pose proof (digits2_pos_spec m) as [L U].
  set (d := Z.pos (digits2_pos m)) in *.
  assert (Hd : 0 < d) by (unfold d; lia).
  unfold valid_binary, bounded, canonical_mantissa, fexp.
  fold d. unfold SpecFloat.emin, emin, emax, prec.
  rewrite andb_true_iff, Z.eqb_eq, Z.leb_le.
  split.
  - intros [Hc He].
    assert (Hd53 : d <= 53) by lia.
    split; [ lia | ]. split.
    + assert (2 ^ d <= 2 ^ 53) by (apply Z.pow_le_mono_r; lia). lia.
    + intros Hn. assert (d = 53) by lia. subst d.
      replace (53 - 1) with 52 in L by lia. rewrite H in L. exact L.
  - intros (He & Hm & Hn).
    assert (Hd53 : d <= 53).
    { destruct (Z_le_gt_dec d 53) as [|G]; [ assumption | exfalso ].
      assert (2 ^ 53 <= 2 ^ (d - 1)) by (apply Z.pow_le_mono_r; lia). lia. }
    split; [ | lia ].
    destruct (Z.eq_dec e (-1074)) as [->|Ne]; [ lia | ].
    assert (H52 : 2 ^ 52 <= Z.pos m) by (apply Hn; lia).
    assert (d = 53); [ | lia ].
    destruct (Z_le_gt_dec 53 d) as [|G]; [ lia | exfalso ].
    assert (2 ^ d <= 2 ^ 52) by (apply Z.pow_le_mono_r; lia). lia.
Qed.

End Format.

Section Nearest.

Import Binary64.

Lemma round_half_even_nearest (n d j : Z) :
  0 < d ->
  Z.abs (round_half_even n d * d - n) <= Z.abs (j * d - n).
Proof.
  intros Hd. pose proof (round_half_even_error n d Hd) as H.
  set (m := round_half_even n d) in *.
  destruct (Z.eq_dec j m) as [->|Hj]; [ lia | ].
  assert (Hjm : 1 <= Z.abs (j - m)) by lia.
  assert (Hp : d <= Z.abs (j - m) * d) by nia.
  replace (j * d - n) with ((j - m) * d + (m * d - n)) by ring.
  assert (Ht : Z.abs ((j - m) * d) - Z.abs (m * d - n)
               <= Z.abs ((j - m) * d + (m * d - n))) by lia.
  rewrite Z.abs_mul, (Z.abs_eq d) in Ht by lia. lia.
Qed.

Lemma round_half_even_tie (n d j : Z) :
  0 < d ->
  j <> round_half_even n d ->
  Z.abs (j * d - n) = Z.abs (round_half_even n d * d - n) ->
  Z.even (round_half_even n d) = true.
Proof.
  intros Hd. unfold round_half_even.
  pose proof (Z.div_mod n d ltac:(lia)) as E.
  pose proof (Z.mod_pos_bound n d Hd) as B.
  set (q := n / d) in *. set (r := n mod d) in *.
  destruct (Z.compare_spec (2 * r) d) as [H|H|H].
  - destruct (Z.even q) eqn:Eq; intros _ _; [ exact Eq | ].
    rewrite Z.even_add, Eq. reflexivity.
  - intros Hj Ht. exfalso.
    assert (1 <= Z.abs (j - q)) by lia.
    assert (d <= Z.abs (j - q) * d) by nia.
    assert (Z.abs ((j - q) * d) - Z.abs (q * d - n)
            <= Z.abs ((j - q) * d + (q * d - n))) by lia.
    rewrite Z.abs_mul, (Z.abs_eq d) in H2 by lia.
    replace ((j - q) * d + (q * d - n)) with (j * d - n) in H2 by ring.
    lia.
  - intros Hj Ht. exfalso.
    assert (1 <= Z.abs (j - (q + 1))) by lia.
    assert (d <= Z.abs (j - (q + 1)) * d) by nia.
    assert (Z.abs ((j - (q + 1)) * d) - Z.abs ((q + 1) * d - n)
            <= Z.abs ((j - (q + 1)) * d + ((q + 1) * d - n))) by lia.
    rewrite Z.abs_mul, (Z.abs_eq d) in H2 by lia.
    replace ((j - (q + 1)) * d + ((q + 1) * d - n)) with (j * d - n) in H2
      by ring.
    lia.
Qed.

Local Open Scope Q_scope.

(** How far a multiple of [2^e] is from the quotient. *)
Lemma grid_distance (a b e j : Z) :
  (0 < b)%Z ->
  Qabs (inject_Z j * 2 ^ e - inject_Z a / inject_Z b)
  == inject_Z (Z.abs (j * scaled_den b e - scaled_num a e))
     * (2 ^ e / inject_Z (scaled_den b e)).
Proof.
  intros Hb. rewrite (scaled_quotient a b e Hb).
  set (n := scaled_num a e). set (d := scaled_den b e).
  assert (Hd : (0 < d)%Z) by now apply scaled_den_pos.
  pose proof (inject_Z_pos d Hd) as HdQ.
  pose proof (two_power_pos e) as Hp.
  assert (E : inject_Z j * 2 ^ e - inject_Z n / inject_Z d * 2 ^ e
              == inject_Z (j * d - n) * (2 ^ e / inject_Z d)).
  { unfold Zminus. rewrite inject_Z_plus, inject_Z_opp, inject_Z_mult.
    field. lra. }
  rewrite E, Qabs_Qmult.
  rewrite (Qabs_pos (2 ^ e / inject_Z d)).
  - reflexivity.
  - apply Qlt_le_weak. apply Qlt_shift_div_l; [ exact HdQ | lra ].
Qed.

End Nearest.

Section Correct.

Import Binary64.

Local Open Scope Q_scope.

Lemma Qabs_below (y g x : Q) :
  y < g -> g <= x -> Qabs (g - x) < Qabs (y - x).
Proof.
  intros H1 H2.
  rewrite (Qabs_neg (g - x)) by lra.
  rewrite (Qabs_neg (y - x)) by lra. lra.
Qed.

(** What [true_div] returns on two positive integers, case by case. *)
Lemma true_div_shape (a b : Z) (q : float) :
  (0 < a)%Z -> (0 < b)%Z ->
  Binary64.true_div a b = Ok q ->
  (q = S754_zero false /\ mantissa a b = 0%Z)
  \/ (q = S754_finite false (2 ^ 52) (exponent a b + 1)
      /\ mantissa a b = (2 ^ 53)%Z
      /\ (exponent a b + 54 <= emax)%Z)
  \/ (q = S754_finite false (Z.to_pos (mantissa a b)) (exponent a b)
      /\ (0 < mantissa a b < 2 ^ 53)%Z
      /\ (exponent a b + 53 <= emax)%Z).
Proof.
  intros Ha Hb. rewrite (true_div_positive a b Ha Hb).
  pose proof (mantissa_nonneg a b Ha Hb) as H0.
  pose proof (mantissa_le a b Ha Hb) as H1.
  destruct (Z.eqb_spec (mantissa a b) 0) as [E0|N0].
  - intros [= <-]. now left.
  - destruct (Z.eqb_spec (mantissa a b) (2 ^ 53)) as [E|N].
    + destruct (Z.leb_spec (exponent a b + 54) emax) as [L|_];
        [ | discriminate ].
      intros [= <-]. right. left. now repeat split.
    + destruct (Z.leb_spec (exponent a b + 53) emax) as [L|_];
        [ | discriminate ].
      intros [= <-]. right. right. repeat split; try assumption; lia.
Qed.

(** [a / b] is correctly rounded: what it returns is a number of binary64,
    no number of binary64 is nearer to the exact quotient, and where
    another one is as near, the one returned has the even mantissa. *)
Lemma true_div_nearest (a b : Z) (q : float) :
  (0 < a)%Z -> (0 < b)%Z ->
  Binary64.true_div a b = Ok q ->
  nearest_float (inject_Z a / inject_Z b) q.
Proof.
  intros Ha Hb Hq.
  pose proof (true_div_value a b q Ha Hb Hq) as Hval.
  pose proof (true_div_shape a b q Ha Hb Hq) as Hshape.
  pose proof (exponent_ge a b) as [Hemin Hel].
  pose proof (quotient_positive a b Ha Hb) as Hx.
  set (e := exponent a b) in *. set (m := mantissa a b) in *.
  set (x := inject_Z a / inject_Z b) in *.
  set (n := scaled_num a e). set (d := scaled_den b e).
  assert (Hd : (0 < d)%Z) by now apply scaled_den_pos.
  pose proof (inject_Z_pos d Hd) as HdQ.
  pose proof (two_power_pos e) as Hp.
  set (K := 2 ^ e / inject_Z d).
  assert (HK : 0 < K) by (apply Qlt_shift_div_l; [ exact HdQ | lra ]).
  assert (Hdist : forall j,
             Qabs (inject_Z j * 2 ^ e - x)
             == inject_Z (Z.abs (j * d - n)) * K)
    by (intros j; apply grid_distance; exact Hb).
  assert (Hm : m = round_half_even n d) by reflexivity.
  (* multiples of 2^e *)
  assert (Hgrid : forall j y,
             value y == inject_Z j * 2 ^ e ->
             Qabs (value q - x) <= Qabs (value y - x)
             /\ (Qabs (value y - x) == Qabs (value q - x) ->
                 ~ value y == value q -> Z.even m = true)).
  { intros j y Hy. rewrite Hval, Hy, !Hdist. split.
    - apply Qmult_le_compat_r; [ | lra ].
      rewrite <- Zle_Qle. rewrite Hm.
      now apply round_half_even_nearest.
    - intros Ht Hne. rewrite Hm.
      apply (round_half_even_tie n d j Hd).
      + intros ->. apply Hne. reflexivity.
      + apply Qmult_inj_r in Ht; [ | lra ].
        rewrite <- Hm. unfold Qeq in Ht. cbn [inject_Z Qnum Qden] in Ht. lia. }
  (* numbers below a multiple of 2^e that is not above the quotient *)
  assert (Hfar : forall j y,
             value y < inject_Z j * 2 ^ e -> inject_Z j * 2 ^ e <= x ->
             Qabs (value q - x) < Qabs (value y - x)).
  { intros j y H1 H2.
    eapply Qle_lt_trans; [ | exact (Qabs_below _ _ _ H1 H2) ].
    rewrite Hval, !Hdist.
    apply Qmult_le_compat_r; [ | lra ].
    rewrite <- Zle_Qle. rewrite Hm. now apply round_half_even_nearest. }
  assert (Hzero : 0 == inject_Z 0 * 2 ^ e) by (change (inject_Z 0) with 0; ring).
  assert (Heven : Z.even m = true -> even_mantissa q = true).
  { intros Hev.
    destruct Hshape as [[-> _]|[(-> & _)|(-> & Hm' & _)]];
      [ reflexivity | reflexivity | ].
    cbn [even_mantissa]. rewrite Z2Pos.id by lia. exact Hev. }
  split; [ | split ].
  - destruct Hshape as [[-> _]|[(-> & _)|(-> & _)]]; reflexivity.
  - destruct Hshape as [[-> _]|[(-> & Hm' & He)|(-> & Hm' & He)]].
    + reflexivity.
    + apply valid_finite. unfold emax, prec, emin in *.
      change (Z.pos (2 ^ 52)) with (2 ^ 52)%Z.
      repeat split; lia.
    + apply valid_finite. rewrite Z2Pos.id by lia.
      unfold emax, prec in *. repeat split; try lia.
      intros Hn.
      assert (Hnorm : (emin <= ilog2 a b - 52)%Z)
        by (unfold e, exponent, prec in *; lia).
      now destruct (mantissa_ge a b Ha Hb Hnorm) as [G _].
  - intros y Hfin Hvalid.
    assert (Hstrict : Qabs (value q - x) < Qabs (value y - x) ->
              Qabs (value q - x) <= Qabs (value y - x)
              /\ (Qabs (value y - x) == Qabs (value q - x) ->
                  ~ value y == value q -> even_mantissa q = true)).
    { intros H. split; [ lra | ]. intros Ht. lra. }
    assert (Hon : forall j, value y == inject_Z j * 2 ^ e ->
              Qabs (value q - x) <= Qabs (value y - x)
              /\ (Qabs (value y - x) == Qabs (value q - x) ->
                  ~ value y == value q -> even_mantissa q = true)).
    { intros j Hj. destruct (Hgrid j y Hj) as [G1 G2].
      split; [ exact G1 | ]. intros Ht Hne. apply Heven. now apply G2. }
    destruct y as [s|s| |s my ey]; try discriminate Hfin.
    + apply (Hon 0%Z). cbn [value]. exact Hzero.
    + apply valid_finite in Hvalid. destruct Hvalid as (Hey & Hmy & Hny).
      pose proof (two_power_pos ey) as Hpy.
      assert (Hmypos : 0 < inject_Z (Z.pos my))
        by (apply inject_Z_pos; lia).
      destruct s.
      * (* a negative number is farther than zero *)
        apply Hstrict. apply (Hfar 0%Z).
        -- cbn [value]. change (inject_Z 0) with 0. nra.
        -- change (inject_Z 0) with 0. lra.
      * destruct (Z_le_gt_dec e ey) as [Hle|Hgt].
        -- apply (Hon (Z.pos my * 2 ^ (ey - e))%Z). cbn [value].
           rewrite inject_Z_mult, <- two_power_Z by lia.
           rewrite <- Qmult_assoc, <- two_power_add.
           now replace (ey - e + e)%Z with ey by lia.
        -- (* a number of a finer exponent is below [2^52 * 2^e] *)
           assert (Hnorm : (emin <= ilog2 a b - 52)%Z)
             by (unfold e, exponent, prec in *; lia).
           destruct (mantissa_ge a b Ha Hb Hnorm) as [_ He].
           fold e in He.
           destruct (ilog2_spec a b Ha Hb) as [Lx _]. fold x in Lx.
           assert (Eg : inject_Z (2 ^ 52) * 2 ^ e == 2 ^ ilog2 a b).
           { rewrite <- two_power_Z by lia. rewrite <- two_power_add.
             now replace (52 + e)%Z with (ilog2 a b) by lia. }
           apply Hstrict. apply (Hfar (2 ^ 52)%Z).
           ++ cbn [value].
              assert (Hs : 2 ^ e == 2 ^ (e - ey - 1) * 2 * 2 ^ ey).
              { change 2 with (2 ^ 1) at 3. rewrite <- !two_power_add.
                now replace (e - ey - 1 + 1 + ey)%Z with e by lia. }
              assert (H1 : 1 <= 2 ^ (e - ey - 1))
                by (change 1 with (2 ^ 0); apply two_power_le; lia).
              assert (H53 : inject_Z (Z.pos my) < 2 * inject_Z (2 ^ 52)).
              { change (2 * inject_Z (2 ^ 52)) with (inject_Z (2 ^ 53)).
                now rewrite <- Zlt_Qlt. }
              rewrite Hs.
              set (c := inject_Z (2 ^ 52)) in *.
              assert (Hc : 0 < c) by reflexivity.
              set (k := 2 ^ (e - ey - 1)) in *.
              set (p := 2 ^ ey) in *.
              set (v := inject_Z (Z.pos my)) in *.
              assert (S1 : v * p < 2 * c * p) by nra.
              assert (S2 : 2 * c * p <= c * (k * 2 * p)).
              { assert (0 <= c * p) by nra. nra. }
              lra.
           ++ rewrite Eg. exact Lx.
Qed.

End Correct.

(* ================================================================== *)
(** * Floats: the unigram probabilities *)
(* ================================================================== *)

Section UnigramFloats.

Import Ngrams Binary64.

Local Open Scope Q_scope.

(** A count out of a total of at most [2^1022] is above the subnormal
    range. *)
Lemma normal_range (a b : Z) :
  (0 < a)%Z -> (0 < b)%Z -> (b <= 2 ^ 1022 * a)%Z ->
  (emin <= ilog2 a b - 52)%Z.
Proof.
  intros Ha Hb Hab.
  destruct (ilog2_spec a b Ha Hb) as [_ U].
  assert (L : 2 ^ (-1022) <= inject_Z a / inject_Z b).
  { pose proof (scaled_le a b (-1022) 1 Hb) as S.
    change (inject_Z 1) with 1 in S. rewrite Qmult_1_l in S. apply S.
    unfold scaled_den, scaled_num.
    change (Z.max 0 (-1022)) with 0%Z.
    change (Z.max 0 (- -1022)) with 1022%Z. lia. }
  assert (H : (-1022 < ilog2 a b + 1)%Z).
  { apply two_power_lt_inv. eapply Qle_lt_trans; [ exact L | exact U ]. }
  unfold emin. lia.
Qed.

(** A number within a relative error [u] of another has its logarithm
    within [2 * u] of the logarithm of the other. *)
Lemma ln_relative (r x u : R) :
  (0 < x)%R -> (0 <= u <= / 2)%R ->
  (Rabs (r - x) <= u * x)%R ->
  (Rabs (ln r - ln x) <= 2 * u)%R.
Proof.
  intros Hx [Hu0 Hu1] Hr.
  assert (Hb : (- (u * x) <= r - x <= u * x)%R)
    by (unfold Rabs in Hr; destruct (Rcase_abs (r - x)); split; lra).
  destruct Hb as [Hlo Hhi].
  assert (Hrpos : (0 < r)%R) by nra.
  assert (Ht : (r = x * (r / x))%R) by (field; lra).
  assert (Htpos : (0 < r / x)%R) by (apply Rdiv_lt_0_compat; assumption).
  assert (Htlo : (1 - u <= r / x)%R).
  { apply (Rmult_le_reg_r x); [ exact Hx | ].
    replace (r / x * x)%R with r by (field; lra). lra. }
  assert (Hthi : (r / x <= 1 + u)%R).
  { apply (Rmult_le_reg_r x); [ exact Hx | ].
    replace (r / x * x)%R with r by (field; lra). lra. }
  rewrite Ht at 1. rewrite ln_mult by assumption.
  replace (ln x + ln (r / x) - ln x)%R with (ln (r / x)) by ring.
  assert (Hmono : forall a b, (0 < a)%R -> (a <= b)%R -> (ln a <= ln b)%R).
  { intros a b Ha [Hab| ->]; [ | lra ]. left. now apply ln_increasing. }
  apply Rabs_le. split.
  - rewrite <- (ln_exp (- (2 * u))).
    apply Hmono; [ apply exp_pos | ].
    eapply Rle_trans; [ | exact Htlo ].
    rewrite exp_Ropp.
    pose proof (exp_ineq1_le (2 * u)) as He.
    assert (Hd : (0 < 1 + 2 * u)%R) by lra.
    assert (Hinv : (/ exp (2 * u) <= / (1 + 2 * u))%R)
      by (apply Rinv_le_contravar; assumption).
    eapply Rle_trans; [ exact Hinv | ].
    apply (Rmult_le_reg_r (1 + 2 * u)); [ exact Hd | ].
    rewrite Rinv_l by lra. nra.
  - apply (Rle_trans _ u); [ | lra ].
    rewrite <- (ln_exp u).
    apply Hmono; [ exact Htpos | ].
    pose proof (exp_ineq1_le u). lra.
Qed.

Lemma Q2R_unit_roundoff : Q2R unit_roundoff = (/ 2 ^ 53)%R.
Proof.
  change unit_roundoff with (1 # 2 ^ 53). unfold Q2R.
  cbn [Qnum Qden]. rewrite Rmult_1_l. f_equal.
  rewrite (pow_IZR 2 53). reflexivity.
Qed.

(** The float for one count of a table: the count over the total up to a
    relative error of [2^-53], and so with a logarithm within [2^-52] of
    the logarithm of the count over the total. *)
Lemma count_quotient (c N : Z) :
  (0 < c)%Z -> (c <= N)%Z -> (N <= 2 ^ 1022)%Z ->
  exists q,
    Binary64.true_div c N = Ok q
    /\ nearest_float (inject_Z c / inject_Z N) q
    /\ 0 < value q <= 1
    /\ Qabs (value q - inject_Z c / inject_Z N)
       <= unit_roundoff * (inject_Z c / inject_Z N)
    /\ (Rabs (ln (Q2R (value q)) - ln (IZR c / IZR N))
        <= 2 * Q2R unit_roundoff)%R.
Proof.
  intros Hc HcN HN.
  assert (HNpos : (0 < N)%Z) by lia.
  destruct (true_div_returns c N Hc HNpos HcN) as (q & Hq).
  exists q. split; [ exact Hq | ].
  split; [ exact (true_div_nearest c N q Hc HNpos Hq) | ].
  assert (Hn : (emin <= ilog2 c N - 52)%Z).
  { apply normal_range; try assumption. nia. }
  pose proof (true_div_relative c N q Hc HNpos Hn Hq) as Hrel.
  pose proof (true_div_range c N q Hc HNpos HcN Hq) as [_ Hle].
  pose proof (quotient_positive c N Hc HNpos) as Hx.
  split; [ | split; [ exact Hrel | ] ].
  - split; [ | exact Hle ].
    apply Qabs_Qle_condition in Hrel. destruct Hrel as [Hlo _].
    assert (Hu : unit_roundoff < 1) by reflexivity.
    set (x := inject_Z c / inject_Z N) in *.
    set (u := unit_roundoff) in *. nra.
  - rewrite <- (Q2R_quotient c N) by lia.
    apply ln_relative.
    + replace 0%R with (Q2R 0) by apply RMicromega.Q2R_0.
      now apply Qlt_Rlt.
    + rewrite Q2R_unit_roundoff. split.
      * left. apply Rinv_0_lt_compat. apply pow_lt. lra.
      * apply Rinv_le_contravar; [ lra | ].
        replace 2%R with (2 ^ 1)%R at 1 by ring.
        apply Rle_pow; [ lra | lia ].
    + apply Qabs_Qle_condition in Hrel. destruct Hrel as [Hlo Hhi].
      apply Qle_Rle in Hlo, Hhi.
      rewrite Q2R_opp, Q2R_mult in Hlo.
      rewrite Q2R_minus in Hlo, Hhi. rewrite Q2R_mult in Hhi.
      apply Rabs_le. split; lra.
Qed.

(** The errors of the floats add up to at most the relative error of
    one. *)
Lemma Qsum_error (N : Z) (cs : list Z) (qs : list float) :
  Forall2
    (fun c q =>
       Qabs (value q - inject_Z c / inject_Z N)
       <= unit_roundoff * (inject_Z c / inject_Z N))
    cs qs ->
  Qabs (Qsum (map value qs)
        - Qsum (map (fun c => inject_Z c / inject_Z N) cs))
  <= unit_roundoff
     * Qsum (map (fun c => inject_Z c / inject_Z N) cs).
Proof.
  induction 1 as [|c q cs qs H _ IH]; cbn [map Qsum fold_right].
  - apply Qabs_Qle_condition. split; lra.
  - apply Qabs_Qle_condition in H, IH. apply Qabs_Qle_condition.
    fold (Qsum (map value qs)) in *.
    fold (Qsum (map (fun c => inject_Z c / inject_Z N) cs)) in *.
    destruct H as [H1 H2], IH as [I1 I2]. split; lra.
Qed.

Variable np_log : float -> float.

Lemma values_of_logs (N : Z) (d : dict Z) (probs : dict float)
      (qs : list float) (R : Z -> float -> Prop) :
  Forall2
    (built_from
       (fun (_ : ngram) value =>
          bind (Binary64.true_div value N) (fun p => Ok (np_log p))))
    d probs ->
  Forall2 (fun c q => Binary64.true_div c N = Ok q /\ R c q) (values d) qs ->
  values probs = map np_log qs.
Proof.
  intros H. revert qs.
  induction H as [|[k c] [k' w] d probs [_ Hw] _ IH]; intros qs Hq;
    inversion Hq as [|c0 q l qs' [Hc _] Hrest]; subst; [ reflexivity | ].
  cbn [values map snd]. cbn [fst snd] in Hw. rewrite Hc in Hw.
  cbn [bind] in Hw. injection Hw as <-. f_equal. now apply IH.
Qed.

(** C2 (as the code has it). For every count table (distinct keys,
    positive counts) with a positive total [N] of at most [2^1022], the
    loop of [main] returns, and stores for each word what [np.log]
    returns on the float [count / N].  That float is the number of
    binary64 nearest to the count over [N], and equal to it up to a
    relative error of [2^-53]: it lies above zero and not above one, and
    its logarithm is within [2^-52] of the logarithm of the count over
    [N].  The floats [count / N] of the whole vocabulary add up to one up
    to [2^-53]. *)
Theorem unigram_log_probability (d : dict Z) :
  NoDup (keys d) ->
  (forall k c, In (k, c) d -> (0 < c)%Z) ->
  (0 < sum_values d <= 2 ^ 1022)%Z ->
  exists probs quotients,
    Binary64.uni_prob_dict np_log d = Ok probs
    /\ keys probs = keys d
    /\ (forall w c,
          lookup w d = Some c ->
          exists q,
            Binary64.true_div c (sum_values d) = Ok q
            /\ lookup w probs = Some (np_log q)
            /\ nearest_float (inject_Z c / inject_Z (sum_values d)) q
            /\ 0 < value q <= 1
            /\ Qabs (value q - inject_Z c / inject_Z (sum_values d))
               <= unit_roundoff * (inject_Z c / inject_Z (sum_values d))
            /\ (Rabs (ln (Q2R (value q))
                      - ln (IZR c / IZR (sum_values d)))
                <= 2 * Q2R unit_roundoff)%R)
    /\ Binary64.unigram_mle d = Ok quotients
    /\ values probs = map np_log quotients
    /\ Qabs (Qsum (map value quotients) - 1) <= unit_roundoff.
Proof.
  intros Hnd Hpos [HN HNmax].
  set (N := sum_values d) in *.
  assert (Hq : forall k c, In (k, c) d ->
                 exists q,
                   Binary64.true_div c N = Ok q
                   /\ nearest_float (inject_Z c / inject_Z N) q
                   /\ 0 < value q <= 1
                   /\ Qabs (value q - inject_Z c / inject_Z N)
                      <= unit_roundoff * (inject_Z c / inject_Z N)
                   /\ (Rabs (ln (Q2R (value q)) - ln (IZR c / IZR N))
                       <= 2 * Q2R unit_roundoff)%R).
  { intros k c Hin. apply count_quotient; [ now apply (Hpos k) | | exact HNmax ].
    now apply (count_le_total d k). }
  set (f := fun (_ : ngram) value =>
              bind (Binary64.true_div value N) (fun p => Ok (np_log p))).
  destruct (dict_for_ok _ _ f d Hnd) as (probs & Hrun & Hall).
  { intros k c Hin. destruct (Hq k c Hin) as (q & E & _).
    unfold f. rewrite E. eexists. reflexivity. }
  destruct (mapM_ok _ _ (fun value => Binary64.true_div value N)
              (fun c q =>
                 Binary64.true_div c N = Ok q
                 /\ Qabs (value q - inject_Z c / inject_Z N)
                    <= unit_roundoff * (inject_Z c / inject_Z N))
              (values d))
    as (quotients & Hmle & Hquot).
  { apply Forall_forall. intros c Hin. unfold values in Hin.
    apply in_map_iff in Hin. destruct Hin as ([k c'] & <- & Hin).
    destruct (Hq k c' Hin) as (q & E & _ & _ & Hrel & _).
    exists q. cbn [snd]. split; [ exact E | ]. split; [ exact E | exact Hrel ]. }
  exists probs, quotients.
  split; [ exact Hrun | ].
  split; [ now apply (built_from_keys _ _ f) | ].
  split.
  { intros w c Hw.
    destruct (built_from_lookup _ _ f d probs w c Hall Hw) as (v & Hv & Hl).
    destruct (Hq w c (lookup_In _ _ _ _ Hw)) as (q & E & Hrest).
    exists q. split; [ exact E | ]. split; [ | exact Hrest ].
    unfold f in Hv. rewrite E in Hv. cbn [bind] in Hv.
    injection Hv as <-. exact Hl. }
  split; [ exact Hmle | ].
  split; [ exact (values_of_logs N d probs quotients _ Hall Hquot) | ].
  assert (Herr : Forall2
                   (fun c q =>
                      Qabs (value q - inject_Z c / inject_Z N)
                      <= unit_roundoff * (inject_Z c / inject_Z N))
                   (values d) quotients).
  { revert Hquot. apply Forall2_impl. intros c q (_ & H). exact H. }
  apply Qsum_error in Herr.
  assert (Hone : Qsum (map (fun c => inject_Z c / inject_Z N) (values d))
                 == 1).
  { apply (unigram_mle_sum d). unfold N in HN. lia. }
  rewrite Hone in Herr. rewrite Qmult_1_r in Herr. exact Herr.
Qed.

Lemma dict_for_Error_inv (V W : Type) (f : ngram -> V -> result W)
      (d : dict V) (out0 : dict W) (e : exn) :
  fold_left
    (fun acc kv =>
       bind acc (fun out =>
       bind (f (fst kv) (snd kv)) (fun w =>
       Ok (dict_set (fst kv) w out))))
    d (Ok out0) = Error e ->
  exists k v, In (k, v) d /\ f k v = Error e.
Proof.
  revert out0. induction d as [|[k v] d IH]; intros out0; cbn [fold_left].
  - discriminate.
  - cbn [bind fst snd]. destruct (f k v) as [w|e'] eqn:E; cbn [bind].
    + intros H. destruct (IH _ H) as (k' & v' & Hin & Hf).
      exists k', v'. split; [ now right | exact Hf ].
    + rewrite fold_left_Error by reflexivity. intros [= <-].
      exists k, v. split; [ now left | exact E ].
Qed.

(** A quotient of absolute value at most one raises nothing. *)
Lemma true_div_total (a b : Z) :
  b <> 0%Z -> (Z.abs a <= Z.abs b)%Z ->
  exists q, Binary64.true_div a b = Ok q.
Proof.
  intros Hb Hab. destruct (Binary64.true_div a b) as [q|e] eqn:E.
  - now exists q.
  - apply true_div_raises in E. destruct E as [[H _]|(_ & _ & H)]; lia.
Qed.

(** X12. The loop that fills [uniProbDict] raises [ZeroDivisionError]
    exactly on a table that is not empty and whose values add up to zero.
    The one other exception it can raise is [OverflowError], and only on a
    table with a value greater in absolute value than the total; so it
    returns on the empty table and on every table with a total that is
    not zero and no such value, a table of counts among them. *)
Theorem uni_prob_dict_raises_iff (d : dict Z) :
  (Binary64.uni_prob_dict np_log d = Error ZeroDivisionError
   <-> d <> [] /\ sum_values d = 0%Z)
  /\ (forall e,
        Binary64.uni_prob_dict np_log d = Error e ->
        e = ZeroDivisionError \/ e = OverflowError)
  /\ (Binary64.uni_prob_dict np_log d = Error OverflowError ->
      sum_values d <> 0%Z
      /\ exists k v,
           In (k, v) d /\ (Z.abs (sum_values d) < Z.abs v)%Z)
  /\ (d = []
      \/ (sum_values d <> 0%Z
          /\ forall k v,
               In (k, v) d -> (Z.abs v <= Z.abs (sum_values d))%Z) ->
      exists probs, Binary64.uni_prob_dict np_log d = Ok probs).
Proof.
  set (f := fun (_ : ngram) value =>
              bind (Binary64.true_div value (sum_values d))
                   (fun p => Ok (np_log p))).
  assert (Hinv : forall e,
             Binary64.uni_prob_dict np_log d = Error e ->
             exists k v,
               In (k, v) d
               /\ Binary64.true_div v (sum_values d) = Error e).
  { intros e He. unfold Binary64.uni_prob_dict, dict_for in He.
    cbn zeta in He.
    apply (dict_for_Error_inv _ _ f) in He.
    destruct He as (k & v & Hin & Hf). exists k, v.
    split; [ exact Hin | ]. unfold f in Hf.
    destruct (Binary64.true_div v (sum_values d)); [ discriminate Hf | ].
    exact Hf. }
  assert (Hzero : d <> [] -> sum_values d = 0%Z ->
                  Binary64.uni_prob_dict np_log d = Error ZeroDivisionError).
  { intros Hne HN. unfold Binary64.uni_prob_dict, dict_for. cbn zeta.
    rewrite HN. destruct d as [|[k v] d']; [ contradiction | ].
    cbn [fold_left bind fst snd].
    change (Binary64.true_div v 0) with (@Error float ZeroDivisionError).
    cbn [bind]. apply fold_left_Error. reflexivity. }
  split; [ split | split; [ | split ] ].
  - intros H. destruct (Hinv _ H) as (k & v & Hin & Hv).
    split; [ intros ->; destruct Hin | ].
    apply true_div_raises in Hv.
    destruct Hv as [[HN _]|(_ & Hv & _)]; [ exact HN | discriminate Hv ].
  - intros [Hne HN]. now apply Hzero.
  - intros e He. destruct (Hinv _ He) as (k & v & _ & Hv).
    apply true_div_raises in Hv.
    destruct Hv as [[_ ->]|(_ & -> & _)]; [ now left | now right ].
  - intros H. destruct (Hinv _ H) as (k & v & Hin & Hv).
    apply true_div_raises in Hv.
    destruct Hv as [[_ Hv]|(HN & _ & Hlt)]; [ discriminate Hv | ].
    split; [ exact HN | ]. now exists k, v.
  - intros H. unfold Binary64.uni_prob_dict, dict_for. cbn zeta.
    apply (dict_for_total _ _ f). intros k v Hin.
    destruct H as [->|[HN Hle]]; [ destruct Hin | ].
    destruct (true_div_total v (sum_values d) HN (Hle k v Hin)) as (q & Hq).
    unfold f. rewrite Hq. eexists. reflexivity.
Qed.

(** X13. Over a count table (distinct keys, positive counts) of any size
    the loop returns; the float whose logarithm is stored for a word is
    one of zero to one, and a word counted at least as often as another
    gets a float that is at least as large. *)
Theorem quotients_ordered (d : dict Z) :
  NoDup (keys d) ->
  (forall k c, In (k, c) d -> (0 < c)%Z) ->
  exists probs,
    Binary64.uni_prob_dict np_log d = Ok probs
    /\ (forall w c,
          lookup w d = Some c ->
          exists q,
            Binary64.true_div c (sum_values d) = Ok q
            /\ lookup w probs = Some (np_log q)
            /\ 0 <= value q <= 1)
    /\ (forall w1 w2 c1 c2 q1 q2,
          lookup w1 d = Some c1 -> lookup w2 d = Some c2 ->
          Binary64.true_div c1 (sum_values d) = Ok q1 ->
          Binary64.true_div c2 (sum_values d) = Ok q2 ->
          (c1 <= c2)%Z -> value q1 <= value q2).
Proof.
  intros Hnd Hpos.
  set (N := sum_values d).
  assert (HN : forall w c, lookup w d = Some c ->
                           (0 < c)%Z /\ (c <= N)%Z /\ (0 < N)%Z).
  { intros w c Hw. apply lookup_In in Hw.
    assert (Hc : (0 < c)%Z) by now apply (Hpos w).
    pose proof (count_le_total d w c Hpos Hw). unfold N. lia. }
  set (f := fun (_ : ngram) value =>
              bind (Binary64.true_div value N) (fun p => Ok (np_log p))).
  destruct (dict_for_ok _ _ f d Hnd) as (probs & Hrun & Hall).
  { intros k c Hin.
    apply In_lookup in Hin; [ | exact Hnd ].
    destruct (HN k c Hin) as (Hc & Hle & HNpos).
    destruct (true_div_returns c N Hc HNpos Hle) as (q & E).
    unfold f. rewrite E. eexists. reflexivity. }
  exists probs. split; [ exact Hrun | ]. split.
  - intros w c Hw. destruct (HN w c Hw) as (Hc & Hle & HNpos).
    destruct (true_div_returns c N Hc HNpos Hle) as (q & E).
    exists q. split; [ exact E | ].
    split; [ | exact (true_div_range c N q Hc HNpos Hle E) ].
    destruct (built_from_lookup _ _ f d probs w c Hall Hw) as (v & Hv & Hl).
    unfold f in Hv. rewrite E in Hv. cbn [bind] in Hv.
    injection Hv as <-. exact Hl.
  - intros w1 w2 c1 c2 q1 q2 H1 H2 E1 E2 Hle.
    destruct (HN w1 c1 H1) as (Hc1 & _ & HNpos).
    exact (true_div_mono c1 c2 N q1 q2 Hc1 Hle HNpos E1 E2).
Qed.

End UnigramFloats.

Section UnigramFloatsExamples.

Import Ngrams Binary64 Scenario.

Local Open Scope Q_scope.

Lemma abab_counts_NoDup : NoDup (keys abab_counts).
Proof.
  repeat constructor; cbn; intros H;
    repeat (destruct H as [H|H]; [ discriminate | ]); exact H.
Qed.

Lemma abab_counts_positive (k : ngram) (c : Z) :
  In (k, c) abab_counts -> (0 < c)%Z.
Proof.
  intros H.
  repeat (destruct H as [H|H]; [ injection H as <- <-; lia | ]).
  destruct H.
Qed.

(** The unigram counts of ["a b a b c"]. *)
Lemma unigram_log_probability_witness :
  NoDup (keys abab_counts)
  /\ (forall k c, In (k, c) abab_counts -> (0 < c)%Z)
  /\ (0 < sum_values abab_counts <= 2 ^ 1022)%Z
  /\ exists probs quotients,
       Binary64.uni_prob_dict any_log abab_counts = Ok probs
       /\ Binary64.unigram_mle abab_counts = Ok quotients
       /\ values probs = map any_log quotients
       /\ Qabs (Qsum (map value quotients) - 1) <= unit_roundoff.
Proof.
  assert (HN : (0 < sum_values abab_counts <= 2 ^ 1022)%Z)
    by (split; vm_compute; [ reflexivity | discriminate ]).
  split; [ exact abab_counts_NoDup | ].
  split; [ exact abab_counts_positive | ].
  split; [ exact HN | ].
  destruct (unigram_log_probability any_log abab_counts abab_counts_NoDup
              abab_counts_positive HN)
    as (probs & quotients & Hrun & _ & _ & Hmle & Hval & Hsum).
  exists probs, quotients.
  split; [ exact Hrun | ]. split; [ exact Hmle | ].
  split; [ exact Hval | exact Hsum ].
Defined.

(** Ten words counted once each: the float for each is the one nearest
    to a tenth, which is above a tenth, and ten of them are [1 + 2^-54]
    together, where the exact quotients are one together.  Added one
    after another as floats they give the float below one,
    [1 - 2^-53]. *)
Lemma rounded_tenths_miss_one :
  exists q,
    Binary64.unigram_mle tenths = Ok (repeat q 10)
    /\ q = S754_finite false 7205759403792794 (-56)
    /\ Qsum (map value (repeat q 10)) == 1 + 2 ^ (-54)
    /\ ~ Qsum (map value (repeat q 10)) == 1
    /\ added_in_turn (repeat q 10)
       = S754_finite false 9007199254740991 (-53)
    /\ ~ value (added_in_turn (repeat q 10)) == 1
    /\ Qsum (Ngrams.unigram_mle tenths) == 1.
Proof.
  exists (S754_finite false 7205759403792794 (-56)).
  split; [ vm_compute; reflexivity | ]. split; [ reflexivity | ].
  split; [ vm_compute; reflexivity | ].
  split; [ intros H; vm_compute in H; discriminate H | ].
  split; [ vm_compute; reflexivity | ].
  split; [ intros H; vm_compute in H; discriminate H | ].
  vm_compute; reflexivity.
Qed.

Lemma quotients_ordered_witness :
  NoDup (keys abab_counts)
  /\ (forall k c, In (k, c) abab_counts -> (0 < c)%Z)
  /\ exists probs,
       Binary64.uni_prob_dict any_log abab_counts = Ok probs
       /\ exists q,
            lookup ["c"]%string probs = Some (any_log q)
            /\ 0 <= value q <= 1.
Proof.
  split; [ exact abab_counts_NoDup | ].
  split; [ exact abab_counts_positive | ].
  destruct (quotients_ordered any_log abab_counts abab_counts_NoDup
              abab_counts_positive)
    as (probs & Hrun & Hq & _).
  exists probs. split; [ exact Hrun | ].
  destruct (Hq ["c"]%string 1%Z eq_refl) as (q & _ & Hl & Hr).
  exists q. split; [ exact Hl | exact Hr ].
Defined.

(** A larger count need not give a larger float: out of [2^61 + 1] the
    counts [2^60] and [2^60 + 1] both give one half. *)
Example larger_count_same_float :
  Binary64.true_div (2 ^ 60) (2 ^ 61 + 1)
  = Ok (S754_finite false (2 ^ 52) (-53))
  /\ Binary64.true_div (2 ^ 60 + 1) (2 ^ 61 + 1)
     = Ok (S754_finite false (2 ^ 52) (-53)).
Proof. split; vm_compute; reflexivity. Qed.

(** A count of one out of more than [2^1075] gives the float zero, and a
    table may hold a value the total is too small for. *)
Example underflow_and_overflow :
  Binary64.true_div 1 (10 ^ 400) = Ok (S754_zero false)
  /\ Binary64.true_div (10 ^ 400) 1 = Error OverflowError
  /\ Binary64.true_div 1 0 = Error ZeroDivisionError
  /\ Binary64.true_div 0 (-5) = Ok (S754_zero true).
Proof. repeat split; vm_compute; reflexivity. Qed.

(** On quotients of every kind (exact, rounded up and down, ties,
    subnormal, underflow, overflow, a zero divisor, either sign)
    [true_div] returns what
    the division of the Standard Library's binary64 specification
    returns. *)
Example true_div_as_SFdiv :
  forallb (fun ab => as_SFdiv (fst ab) (snd ab))
          [(1, 3); (1, 10); (2, 3); (-7, 2); (7, -2); (5, 1); (1, 1);
           (0, 7); (0, -7); (1, 0); (0, 0); (10 ^ 400, 1); (1, 10 ^ 400);
           (2 ^ 1024 - 2 ^ 970, 1); (2 ^ 1024 - 2 ^ 970 - 1, 1);
           (1, 2 ^ 1074); (1, 2 ^ 1075); (1, 2 ^ 1075 + 1); (3, 2 ^ 1076);
           (2 ^ 60 - 1, 2 ^ 60); (123456789, 987654321); (10 ^ 30, 7);
           (7, 10 ^ 30); (2 ^ 53 + 1, 1); (2 ^ 53 + 1, 2); (2 ^ 54 + 2, 1);
           (2 ^ 54 + 6, 1); (1, 2 ^ 1022); (3, 2 ^ 1023); (2 ^ 1023, 5);
           (-1, 3)]%Z
  = true.
Proof. vm_compute. reflexivity. Qed.

End UnigramFloatsExamples.

(* ================================================================== *)
(** * More on the syllable splitter *)
(* ================================================================== *)

Section Pieces.

Import Syllable Notions.

Lemma join_cons2 (A : Type) (sep p q : list A) (r : list (list A)) :
  join sep (p :: q :: r) = p ++ sep ++ join sep (q :: r).
Proof. reflexivity. Qed.

Lemma re_match_nth (p : pattern) (s : word) (n : nat) (g : list char) :
  re_match p s = true ->
  nth_error p n = Some g ->
  exists c, nth_error s n = Some c /\ in_group g c = true.
Proof.
  revert s n. induction p as [|g0 p IH]; intros s n Hm Hn.
  - destruct n; discriminate Hn.
  - destruct s as [|c s]; [ discriminate Hm | ].
    cbn in Hm. apply andb_true_iff in Hm. destruct Hm as [Hc Hm].
    destruct n as [|n].
    + injection Hn as <-. now exists c.
    + cbn [nth_error] in Hn |- *. now apply IH.
Qed.

Lemma in_group_spec (g : list char) (c : char) :
  in_group g c = true <-> In c g.
Proof.
  unfold in_group. rewrite existsb_exists. split.
  - intros (x & Hx & E). apply N.eqb_eq in E. now subst.
  - intros H. exists c. split; [ exact H | apply N.eqb_refl ].
Qed.

Lemma nth_error_cut (A : Type) (l : list A) (n : nat) (x : A) :
  nth_error l n = Some x ->
  firstn (S n) l = firstn n l ++ [x] /\ skipn n l = x :: skipn (S n) l.
Proof.
  revert n. induction l as [|a l IH]; intros [|n] H; try discriminate H.
  - injection H as ->. now split.
  - cbn [nth_error] in H. destruct (IH n H) as [H1 H2].
    split; [ cbn [firstn app]; now rewrite <- H1 | exact H2 ].
Qed.

(** Putting the marker between two characters that are not of the marker
    cuts one piece in two. *)
Lemma cut_piece (pieces : list word) (front back : word) (u v : char) :
  Forall (fun piece => piece <> []) pieces ->
  join marker pieces = (front ++ [u]) ++ v :: back ->
  in_group marker u = false ->
  in_group marker v = false ->
  exists pieces',
    (front ++ [u]) ++ marker ++ v :: back = join marker pieces'
    /\ List.concat pieces' = List.concat pieces
    /\ Forall (fun piece => piece <> []) pieces'.
Proof.
  intros Hne. revert front.
  induction Hne as [|c cs Hc Hcs IH]; intros front Hjoin Hu Hv.
  - destruct front; discriminate Hjoin.
  - destruct cs as [|c2 cs].
    + cbn [join] in Hjoin. subst c.
      exists [front ++ [u]; v :: back]. split; [ reflexivity | ].
      split; [ cbn [List.concat]; now rewrite !app_nil_r | ].
      repeat constructor; [ now destruct front | discriminate ].
    + rewrite join_cons2 in Hjoin.
      apply app_eq_app in Hjoin. destruct Hjoin as (l & [[E1 E2]|[E1 E2]]).
      * destruct l as [|x l].
        { cbn [app] in E2. injection E2 as -> _. discriminate Hv. }
        cbn [app] in E2. injection E2 as <- ->.
        exists ((front ++ [u]) :: (v :: l) :: c2 :: cs).
        split; [ rewrite !join_cons2; now rewrite <- !app_assoc | ].
        split.
        { cbn [List.concat]. rewrite E1. now rewrite <- !app_assoc. }
        constructor; [ now destruct front | ].
        constructor; [ discriminate | exact Hcs ].
      * unfold marker in E2.
        destruct l as [|x1 [|x2 [|x3 l]]]; cbn [app] in E2.
        { injection E2 as <- _. discriminate Hv. }
        { injection E2 as _ <- _. discriminate Hv. }
        { injection E2 as _ _ <- _. discriminate Hv. }
        injection E2 as <- <- <- E2.
        destruct (list_eq_dec N.eq_dec l []) as [->|Hl].
        { change [64%N; 32%N; 64%N] with ([64%N; 32%N] ++ [64%N]) in E1.
          rewrite app_assoc in E1. apply app_inj_tail in E1.
          destruct E1 as [_ ->]. discriminate Hu. }
        destruct (exists_last Hl) as (front' & u' & ->).
        assert (E1' : front ++ [u]
                      = (c ++ [64%N; 32%N; 64%N] ++ front') ++ [u'])
          by (rewrite E1; now rewrite <- !app_assoc).
        apply app_inj_tail in E1'. destruct E1' as [-> <-].
        destruct (IH front' E2 Hu Hv) as (pieces' & Hj & Hcat & Hall).
        exists (c :: pieces'). split; [ | split ].
        { destruct pieces' as [|q r].
          - destruct front'; discriminate Hj.
          - rewrite join_cons2, <- Hj. unfold marker.
            now rewrite <- !app_assoc. }
        { cbn [List.concat]. now rewrite Hcat. }
        now constructor.
Qed.

(** A scan with a pattern free of the marker keeps the word cut into
    pieces. *)
Lemma scan_cuts (p : pattern) (k : Z) (w0 w : word) (pos : Z) (w' : word) :
  marker_free p ->
  1 <= k < len p ->
  0 <= pos ->
  scan p k w pos w' ->
  cut_into w0 w -> cut_into w0 w'.
Proof.
  intros Hfree Hk Hpos Hscan. revert Hpos.
  induction Hscan as [| w pos w' Hin Hm _ IH | w pos w' Hin Hm _ IH];
    intros Hpos Hcut; [ exact Hcut | | apply IH; [ lia | exact Hcut ] ].
  apply IH; [ lia | ].
  destruct Hcut as (pieces & Hw & Hcat & Hne).
  rewrite slice_inside in Hm by lia.
  replace (pos + len p - pos) with (len p) in Hm by lia.
  assert (Hchar : forall n : nat,
             Z.of_nat n < len p ->
             exists c, nth_error w (Z.to_nat pos + n) = Some c
                       /\ in_group marker c = false).
  { intros n Hn.
    destruct (nth_error p n) as [g|] eqn:Eg;
      [ | apply nth_error_None in Eg; unfold len in Hn; lia ].
    destruct (re_match_nth _ _ n g Hm Eg) as (c & Hc & Hg).
    rewrite nth_error_firstn in Hc.
    destruct (Nat.ltb_spec n (Z.to_nat (len p))); [ | discriminate Hc ].
    rewrite nth_error_skipn in Hc. exists c. split; [ exact Hc | ].
    apply nth_error_In in Eg. unfold marker_free in Hfree.
    rewrite Forall_forall in Hfree. specialize (Hfree g Eg).
    rewrite Forall_forall in Hfree. apply Hfree.
    now apply in_group_spec. }
  destruct (Hchar (Z.to_nat (k - 1)) ltac:(lia)) as (u & Hu & Hum).
  destruct (Hchar (Z.to_nat k) ltac:(lia)) as (v & Hv & Hvm).
  replace (Z.to_nat pos + Z.to_nat (k - 1))%nat
    with (Z.to_nat (pos + k) - 1)%nat in Hu by lia.
  replace (Z.to_nat pos + Z.to_nat k)%nat
    with (Z.to_nat (pos + k)) in Hv by lia.
  rewrite slice_prefix, slice_suffix by lia.
  destruct (nth_error_cut _ _ _ _ Hu) as [Hfront _].
  destruct (nth_error_cut _ _ _ _ Hv) as [_ Hback].
  replace (S (Z.to_nat (pos + k) - 1)) with (Z.to_nat (pos + k))
    in Hfront by lia.
  rewrite Hfront, Hback.
  destruct (cut_piece pieces (firstn (Z.to_nat (pos + k) - 1) w)
                      (skipn (S (Z.to_nat (pos + k))) w) u v Hne)
    as (pieces' & Hj & Hcat' & Hne'); [ | exact Hum | exact Hvm | ].
  - rewrite <- Hw, <- Hfront, <- Hback. symmetry. apply firstn_skipn.
  - exists pieces'. split; [ exact Hj | ].
    split; [ now rewrite Hcat' | exact Hne' ].
Qed.

(** X14. What the splitter returns for a word is the word cut into
    pieces, none of them empty, with the marker ["@ @"] between one piece
    and the next: the marker is never put in front of the word, behind it,
    or next to another marker, and the pieces put together again are the
    word. *)
Theorem split_word_cuts (w : word) :
  exists out pieces,
    split_word w = Some out
    /\ out = join marker pieces
    /\ List.concat pieces = w
    /\ Forall (fun piece => piece <> []) pieces.
Proof.
  destruct (split_word_ok w) as (w1 & w2 & w3 & w4 & Hrun & S1 & S2 & S3 & S4).
  assert (F1 : marker_free vcv) by (repeat constructor).
  assert (F2 : marker_free vccv) by (repeat constructor).
  assert (F3 : marker_free vccc) by (repeat constructor).
  assert (F4 : marker_free vgv) by (repeat constructor).
  assert (C0 : cut_into w w).
  { destruct w as [|c w].
    - exists []. repeat split. constructor.
    - exists [c :: w]. split; [ reflexivity | ].
      split; [ cbn; now rewrite app_nil_r | ].
      repeat constructor. discriminate. }
  pose proof (scan_cuts vcv 1 w w 0 w1 F1 ltac:(unfold len; cbn; lia)
                        ltac:(lia) S1 C0) as C1.
  pose proof (scan_cuts vccv 2 w w1 0 w2 F2 ltac:(unfold len; cbn; lia)
                        ltac:(lia) S2 C1) as C2.
  pose proof (scan_cuts vccc 3 w w2 0 w3 F3 ltac:(unfold len; cbn; lia)
                        ltac:(lia) S3 C2) as C3.
  pose proof (scan_cuts vgv 1 w w3 0 w4 F4 ltac:(unfold len; cbn; lia)
                        ltac:(lia) S4 C3) as C4.
  destruct C4 as (pieces & H1 & H2 & H3).
  now exists w4, pieces.
Qed.

End Pieces.

Section SplitterEdges.

Import Syllable Notions.

Lemma re_match_vgv_two (a b : char) :
  re_match vgv [a; b] = in_group (vowel ++ glide) a && in_group glide b.
Proof. unfold vgv. cbn [re_match]. now rewrite andb_true_r. Qed.

Lemma while_step (n : nat) (p : pattern) (k : Z) (st : loop) :
  while (S n) p k st
  = if j st <? lenWord st then while n p k (loop_body p k st) else Some st.
Proof. reflexivity. Qed.

(** A word shorter than the window is not looked at. *)
Lemma pass_short (p : pattern) (k width : Z) (w : word) :
  len w < width -> pass p k width w (len w + 1) = Some (w, len w + 1).
Proof.
  intros H. unfold pass, enough. rewrite while_step. cbn [j lenWord].
  destruct (Z.ltb_spec width (len w + 1)); [ lia | reflexivity ].
Qed.

Lemma pass_vgv_two (a b : char) :
  pass vgv 1 2 [a; b] 3
  = Some (if in_group (vowel ++ glide) a && in_group glide b
          then ([a] ++ marker ++ [b], 6) else ([a; b], 3)).
Proof.
  unfold pass.
  replace (enough {| cur := [a; b]; i := 0; j := 2; lenWord := 3 |})
    with 4%nat by reflexivity.
  rewrite while_step. cbn [j lenWord].
  replace (2 <? 3) with true by reflexivity.
  assert (Hbody : loop_body vgv 1 (mkLoop [a; b] 0 2 3)
                  = if in_group (vowel ++ glide) a && in_group glide b
                    then mkLoop ([a] ++ marker ++ [b]) 3 5 6
                    else mkLoop [a; b] 1 3 3).
  { unfold loop_body. cbn [cur i j lenWord].
    replace (slice [a; b] (Some 0) (Some 2)) with [a; b] by reflexivity.
    rewrite re_match_vgv_two.
    destruct (in_group (vowel ++ glide) a && in_group glide b); reflexivity. }
  rewrite Hbody.
  destruct (in_group (vowel ++ glide) a && in_group glide b).
  - rewrite while_step. cbn [j lenWord].
    replace (5 <? 6) with true by reflexivity.
    replace (loop_body vgv 1 (mkLoop ([a] ++ marker ++ [b]) 3 5 6))
      with (mkLoop ([a] ++ marker ++ [b]) 4 6 6) by reflexivity.
    reflexivity.
  - reflexivity.
Qed.

(** X15. Words of at most two characters: the first three passes need
    three or four characters and leave them alone; a word of two
    characters gets the marker between them exactly when the first is a
    vowel or glide and the second a glide; shorter words are returned as
    they are. *)
Theorem short_words (w : word) :
  len w <= 2 ->
  split_word w
  = Some match w with
         | [a; b] =>
             if in_group (vowel ++ glide) a && in_group glide b
             then [a] ++ marker ++ [b] else w
         | _ => w
         end.
Proof.
  intros Hw. unfold split_word. cbn zeta.
  rewrite (pass_short vcv) by lia.
  rewrite (pass_short vccv) by lia.
  rewrite (pass_short vccc) by lia.
  destruct w as [|a [|b [|c w]]].
  - reflexivity.
  - reflexivity.
  - replace (len [a; b] + 1) with 3 by reflexivity.
    rewrite pass_vgv_two.
    destruct (in_group (vowel ++ glide) a && in_group glide b); reflexivity.
  - unfold len in Hw. cbn [List.length] in Hw. lia.
Qed.

Lemma short_words_witness :
  len [0x430%N; 0x44f%N] <= 2
  /\ split_word [0x430%N; 0x44f%N]
     = Some [0x430%N; 0x40%N; 0x20%N; 0x40%N; 0x44f%N].
Proof.
  assert (H : len [0x430%N; 0x44f%N] <= 2) by (unfold len; cbn; lia).
  split; [ exact H | exact (short_words [0x430%N; 0x44f%N] H) ].
Defined.

Lemma split_ws_aux_blank (s : list char) :
  Forall (fun c => isspace c = true) s -> split_ws_aux isspace [] s = [].
Proof.
  induction 1 as [|c s Hc _ IH]; cbn [split_ws_aux]; [ reflexivity | ].
  now rewrite Hc.
Qed.

(** X16. A line prints nothing exactly when all its characters are
    whitespace; the empty line is one. *)
Theorem blank_line_prints_nothing (line : list char) :
  process_line line = Some []
  <-> Forall (fun c => isspace c = true) line.
Proof.
  unfold process_line. split.
  - intros Hrun.
    assert (Hws : split_ws isspace line = []).
    { destruct (split_ws isspace line) as [|w ws]; [ reflexivity | ].
      cbn [split_words] in Hrun.
      destruct (split_word w); [ | discriminate Hrun ].
      destruct (split_words ws); discriminate Hrun. }
    pose proof (split_ws_aux_concat isspace line []) as Hcat.
    fold (split_ws isspace line) in Hcat. rewrite Hws in Hcat.
    cbn in Hcat. symmetry in Hcat.
    apply Forall_forall. intros c Hc.
    destruct (isspace c) eqn:E; [ reflexivity | ].
    assert (Hin : In c (filter (fun c => negb (isspace c)) line))
      by (apply filter_In; split; [ exact Hc | now rewrite E ]).
    rewrite Hcat in Hin. destruct Hin.
  - intros Hblank. unfold split_ws.
    now rewrite split_ws_aux_blank.
Qed.

End SplitterEdges.

Section TrailingNewline.

Import Ngrams Notions.

Lemma kept_sentences_app (a b : string) (cutoff : Z) :
  kept_sentences (a ++ String newline b) cutoff
  = kept_sentences a cutoff ++ kept_sentences b cutoff.
Proof.
  unfold kept_sentences. now rewrite str_split_app, map_app, filter_app.
Qed.

(** X17. A newline at the end of the text leaves an empty last line,
    which counts as one empty token: with a cutoff of one or more, as in
    [main], it is dropped and the n-grams are those of the text without
    the newline; with a smaller cutoff it adds the unigram of the empty
    token. *)
Theorem trailing_newline (text : string) (cutoff : Z) :
  get_ngram_tuples (text ++ String newline EmptyString) cutoff
  = append_tuples
      (get_ngram_tuples text cutoff)
      (if cutoff <? 1 then mkTuples [[EmptyString]] [] []
       else mkTuples [] [] []).
Proof.
  rewrite !get_ngram_tuples_flat, kept_sentences_app.
  unfold append_tuples. cbn [unigrams bigrams trigrams].
  rewrite !flat_map_app.
  assert (Hlast : kept_sentences EmptyString cutoff
                  = if cutoff <? 1 then [[EmptyString]] else []).
  { unfold kept_sentences.
    change (str_split newline EmptyString) with [EmptyString].
    cbn [map].
    change (str_split space EmptyString) with [EmptyString].
    cbn [filter]. change (len [EmptyString]) with 1.
    destruct (Z.ltb_spec cutoff 1), (Z.gtb_spec 1 cutoff);
      try lia; reflexivity. }
  rewrite Hlast. destruct (cutoff <? 1); reflexivity.
Qed.

End TrailingNewline.

Section NothingLeft.

Import Syllable Notions.

Lemma re_match_short (p : pattern) (s : word) :
  (List.length s < List.length p)%nat -> re_match p s = false.
Proof.
  revert s. induction p as [|g p IH]; intros s Hs; [ cbn in Hs; lia | ].
  destruct s as [|c s]; [ reflexivity | ].
  cbn [re_match]. rewrite IH by (cbn in Hs; lia). apply andb_false_r.
Qed.

Lemma re_match_firstn (p : pattern) (s : word) :
  re_match p (firstn (List.length p) s) = re_match p s.
Proof.
  revert s. induction p as [|g p IH]; intros s; [ reflexivity | ].
  destruct s as [|c s]; [ reflexivity | ].
  cbn [List.length firstn re_match]. now rewrite IH.
Qed.

(** A window with a character of the marker in it does not match. *)
Lemma marker_blocks (p : pattern) (s : word) (n : nat) (m : char) :
  marker_free p ->
  nth_error s n = Some m ->
  in_group marker m = true ->
  (n < List.length p)%nat ->
  re_match p s = false.
Proof.
  intros Hfree Hs Hm Hn. destruct (re_match p s) eqn:E; [ | reflexivity ].
  destruct (nth_error p n) as [g|] eqn:Eg;
    [ | apply nth_error_None in Eg; lia ].
  destruct (re_match_nth p s n g E Eg) as (c & Hc & Hg).
  rewrite Hs in Hc. injection Hc as <-.
  apply nth_error_In in Eg. unfold marker_free in Hfree.
  rewrite Forall_forall in Hfree. specialize (Hfree g Eg).
  rewrite Forall_forall in Hfree.
  apply in_group_spec in Hg. rewrite (Hfree m Hg) in Hm. discriminate Hm.
Qed.

(** A match in a word with the marker put in lies before the marker or
    behind it, and was there without the marker. *)
Lemma window_insert (p : pattern) (front back : word) (q : nat) :
  marker_free p ->
  (0 < List.length p)%nat ->
  re_match p (skipn q (front ++ marker ++ back)) = true ->
  ((q + List.length p <= List.length front)%nat
   /\ re_match p (skipn q (front ++ back)) = true)
  \/ ((List.length front + 3 <= q)%nat
      /\ re_match p (skipn (q - 3) (front ++ back)) = true).
Proof.
  intros Hfree Hp Hm.
  destruct (le_lt_dec (q + List.length p) (List.length front)) as [H1|H1].
  - left. split; [ exact H1 | ].
    rewrite <- re_match_firstn in Hm |- *.
    rewrite !skipn_app in Hm |- *.
    replace (q - List.length front)%nat with 0%nat in Hm |- * by lia.
    cbn [skipn] in Hm |- *.
    rewrite firstn_app in Hm |- *.
    replace (List.length p - List.length (skipn q front))%nat with 0%nat
      in Hm |- * by (rewrite length_skipn; lia).
    cbn [firstn] in Hm |- *. exact Hm.
  - destruct (le_lt_dec (List.length front + 3) q) as [H2|H2].
    + right. split; [ exact H2 | ].
      rewrite !skipn_app in Hm. rewrite skipn_app.
      rewrite (skipn_all2 front) in Hm by lia.
      rewrite (skipn_all2 front) by lia.
      rewrite (skipn_all2 marker) in Hm by (cbn; lia).
      cbn [app] in Hm |- *.
      replace (q - 3 - List.length front)%nat
        with (q - List.length front - List.length marker)%nat
        by (cbn [marker List.length]; lia).
      exact Hm.
    + exfalso.
      set (idx := Nat.max q (List.length front)).
      assert (Hidx : exists m,
                 nth_error (front ++ marker ++ back) idx = Some m
                 /\ in_group marker m = true).
      { rewrite nth_error_app2 by lia.
        assert (Ht : (idx - List.length front = 0
                      \/ idx - List.length front = 1
                      \/ idx - List.length front = 2)%nat) by lia.
        destruct Ht as [ -> | [ -> | -> ] ]; eexists; split; reflexivity. }
      destruct Hidx as (m & Hidx & Hmark).
      rewrite (marker_blocks p _ (idx - q) m Hfree) in Hm;
        [ discriminate Hm | | exact Hmark | lia ].
      rewrite nth_error_skipn.
      now replace (q + (idx - q))%nat with idx by lia.
Qed.

Lemma insert_keeps_matchless (p : pattern) (front back : word) :
  marker_free p ->
  (0 < List.length p)%nat ->
  matches_nowhere p (front ++ back) ->
  matches_nowhere p (front ++ marker ++ back).
Proof.
  intros Hfree Hp Hno q.
  destruct (re_match p (skipn q (front ++ marker ++ back))) eqn:E;
    [ | reflexivity ].
  destruct (window_insert p front back q Hfree Hp E) as [[_ H]|[_ H]];
    now rewrite Hno in H.
Qed.

(** [w[:a] + w[a:]] is [w], wherever [a] lies. *)
Lemma slice_cut_any (A : Type) (l : list A) (a : Z) :
  slice l None (Some a) ++ slice l (Some a) None = l.
Proof.
  unfold slice. cbn zeta.
  assert (Hc : 0 <= clamp_index (len l) a <= len l).
  { unfold clamp_index. pose proof (len_nonneg A l).
    destruct (Z.ltb_spec a 0); lia. }
  rewrite Z.sub_0_r. cbn [skipn Z.to_nat].
  rewrite (firstn_all2 (skipn (Z.to_nat (clamp_index (len l) a)) l))
    by (rewrite length_skipn; unfold len in *; lia).
  apply firstn_skipn.
Qed.

(** A scan for another pattern brings no match back. *)
Lemma scan_keeps_matchless (p p2 : pattern) (k2 : Z) (w : word) (pos : Z)
      (w' : word) :
  marker_free p ->
  (0 < List.length p)%nat ->
  scan p2 k2 w pos w' ->
  matches_nowhere p w -> matches_nowhere p w'.
Proof.
  intros Hfree Hp Hscan.
  induction Hscan as [| w pos w' _ _ _ IH | w pos w' _ _ _ IH];
    intros Hno; [ exact Hno | | now apply IH ].
  apply IH. apply insert_keeps_matchless; [ exact Hfree | exact Hp | ].
  now rewrite slice_cut_any.
Qed.

(** A scan from the first character leaves no match of its pattern. *)
Lemma scan_finds_all (p : pattern) (k : Z) (w : word) (pos : Z) (w' : word) :
  marker_free p ->
  1 <= k < len p ->
  scan p k w pos w' ->
  0 <= pos ->
  (forall q, (q < Z.to_nat pos)%nat -> re_match p (skipn q w) = false) ->
  matches_nowhere p w'.
Proof.
  intros Hfree Hk Hscan.
  assert (Hp : (0 < List.length p)%nat) by (unfold len in Hk; lia).
  induction Hscan as [w pos Hend | w pos w' Hin Hm _ IH
                      | w pos w' Hin Hm _ IH];
    intros Hpos Hinv.
  - intros q. destruct (le_lt_dec (Z.to_nat pos) q) as [Hq|Hq].
    + apply re_match_short. rewrite length_skipn. unfold len in *. lia.
    + now apply Hinv.
  - apply IH; [ lia | ]. intros q Hq.
    rewrite slice_prefix, slice_suffix by lia.
    destruct (re_match p
                (skipn q (firstn (Z.to_nat (pos + k)) w ++ marker ++
                          skipn (Z.to_nat (pos + k)) w))) eqn:E;
      [ | reflexivity ].
    apply window_insert in E; [ | exact Hfree | exact Hp ].
    rewrite firstn_skipn, length_firstn in E. unfold len in *.
    destruct E as [[H1 H2]|[H1 _]]; [ | lia ].
    rewrite Hinv in H2 by lia. discriminate H2.
  - apply IH; [ lia | ]. intros q Hq.
    destruct (Nat.eq_dec q (Z.to_nat pos)) as [->|Hne];
      [ | apply Hinv; lia ].
    rewrite slice_inside in Hm by lia.
    replace (pos + len p - pos) with (len p) in Hm by lia.
    unfold len in Hm. rewrite Nat2Z.id in Hm.
    now rewrite re_match_firstn in Hm.
Qed.

(** X18. Nothing is left to split: in what the splitter returns for a
    word, no window matches any of the four patterns, those of the
    earlier passes included. *)
Theorem split_word_leaves_no_match (w : word) :
  exists out,
    split_word w = Some out
    /\ matches_nowhere vcv out
    /\ matches_nowhere vccv out
    /\ matches_nowhere vccc out
    /\ matches_nowhere vgv out.
Proof.
  destruct (split_word_ok w) as (w1 & w2 & w3 & w4 & Hrun & S1 & S2 & S3 & S4).
  assert (F1 : marker_free vcv) by (repeat constructor).
  assert (F2 : marker_free vccv) by (repeat constructor).
  assert (F3 : marker_free vccc) by (repeat constructor).
  assert (F4 : marker_free vgv) by (repeat constructor).
  assert (Hvac : forall (p : pattern) (x : word) (q : nat),
             (q < Z.to_nat 0)%nat -> re_match p (skipn q x) = false)
    by (intros p x q Hq; cbn in Hq; lia).
  pose proof (scan_finds_all vcv 1 w 0 w1 F1 ltac:(unfold len; cbn; lia)
                             S1 ltac:(lia) (Hvac vcv w)) as M1.
  pose proof (scan_finds_all vccv 2 w1 0 w2 F2 ltac:(unfold len; cbn; lia)
                             S2 ltac:(lia) (Hvac vccv w1)) as M2.
  pose proof (scan_finds_all vccc 3 w2 0 w3 F3 ltac:(unfold len; cbn; lia)
                             S3 ltac:(lia) (Hvac vccc w2)) as M3.
  pose proof (scan_finds_all vgv 1 w3 0 w4 F4 ltac:(unfold len; cbn; lia)
                             S4 ltac:(lia) (Hvac vgv w3)) as M4.
  exists w4. split; [ exact Hrun | ].
  split; [ | split; [ | split; [ | exact M4 ] ] ].
  - apply (scan_keeps_matchless vcv _ _ _ _ _ F1 ltac:(cbn; lia) S4).
    apply (scan_keeps_matchless vcv _ _ _ _ _ F1 ltac:(cbn; lia) S3).
    exact (scan_keeps_matchless vcv _ _ _ _ _ F1 ltac:(cbn; lia) S2 M1).
  - apply (scan_keeps_matchless vccv _ _ _ _ _ F2 ltac:(cbn; lia) S4).
    exact (scan_keeps_matchless vccv _ _ _ _ _ F2 ltac:(cbn; lia) S3 M2).
  - exact (scan_keeps_matchless vccc _ _ _ _ _ F3 ltac:(cbn; lia) S4 M3).
Qed.

End NothingLeft.
